(** * ts-eventbus: the dispatch engine

    A shallow embedding of the three core pieces of the event bus
    (pattern matcher, listener store, handler executor) and of the
    [emit] / [subscribe] flow of the facade, followed by the properties
    of the specification that were checked against them.

    Conventions of the embedding.
    - A JavaScript string is the list of its UTF-16 code units.
    - A [symbol] is a natural number drawn from a counter that the store
      carries: two calls of [Symbol(...)] never return the same value.
    - [Date.now()] is an input of the operation that reads it.
    - A JavaScript [Map] is an association list in insertion order with
      unique keys; [set] on a bound key keeps its position.
    - A handler is described by what a call of it does for a payload
      (return, throw, or a promise that settles); handlers that call back
      into the bus while they run are outside this model. *)

From Stdlib Require Import String Ascii.
From Stdlib Require Import QArith ZArith NArith Bool Arith Lia.
From Stdlib Require Import List Permutation Sorted.
Import ListNotations.

Set Implicit Arguments.
Set Maximal Implicit Insertion.

Local Open Scope N_scope.

(* ================================================================= *)
(** ** JavaScript strings *)

Module JS.

(** One UTF-16 code unit. *)
Definition char := N.

Definition str := list char.

(** A literal of the source, written with Rocq's string notation. *)
Definition lit (s : string) : str := map N_of_ascii (list_ascii_of_string s).

Fixpoint eqb (a b : str) : bool :=
  match a, b with
  | [], [] => true
  | x :: a', y :: b' => N.eqb x y && eqb a' b'
  | _, _ => false
  end.

(** [a.includes(c)] for a one-character needle. *)
Definition includes (a : str) (c : char) : bool := existsb (N.eqb c) a.

(** [a.replace(/[set]/g, f($&))]: every code unit in the set is replaced
    by the expansion [f] gives for it, the others are kept. *)
Definition replaceEach (inSet : char -> bool) (f : char -> str) (a : str) : str :=
  flat_map (fun c => if inSet c then f c else [c]) a.

(** [Array.prototype.sort(cmp)]: a stable sort (ECMAScript 2019).  For
    a comparator that is a total preorder the sorted, stable
    arrangement is unique; it is computed here by insertion from the
    right, an element going in front of the first one it does not
    exceed. *)
Section Sort.
Variable A : Type.
Variable cmp : A -> A -> Z.

Fixpoint insert (x : A) (l : list A) : list A :=
  match l with
  | [] => [x]
  | y :: l' => if (cmp x y <=? 0)%Z then x :: y :: l' else y :: insert x l'
  end.

Definition sort (l : list A) : list A := fold_right insert [] l.

(** [a] may stand in front of [b]. *)
Definition notAfter (a b : A) : Prop := (cmp a b <= 0)%Z.
End Sort.

(** A [number] that comes out of a division: a finite value (kept
    exact, the rounding of doubles is not modelled) or one of the
    special values a zero divisor yields. *)
Inductive number : Type :=
| Finite (q : Q)
| PosInfinity
| NegInfinity
| NaN.

(** [a / b] on integer-valued numbers. *)
Definition div (a b : Z) : number :=
  if (b =? 0)%Z then
    if (a =? 0)%Z then NaN
    else if (0 <? a)%Z then PosInfinity else NegInfinity
  else Finite (inject_Z a / inject_Z b)%Q.

End JS.

(** [Map<string, V>]: bindings in insertion order, keys unique. *)
Module JSMap.
Section Ops.
Variable V : Type.

Definition t := list (JS.str * V).

Definition empty : t := [].

Fixpoint get (k : JS.str) (m : t) : option V :=
  match m with
  | [] => None
  | (k', v) :: m' => if JS.eqb k k' then Some v else get k m'
  end.

(** [set] keeps the position of a key that is already bound and
    appends a new one. *)
Fixpoint set (k : JS.str) (v : V) (m : t) : t :=
  match m with
  | [] => [(k, v)]
  | (k', v') :: m' =>
      if JS.eqb k k' then (k, v) :: m' else (k', v') :: set k v m'
  end.

Definition delete (k : JS.str) (m : t) : t :=
  filter (fun kv => negb (JS.eqb k (fst kv))) m.

Definition keys (m : t) : list JS.str := map fst m.

Definition values (m : t) : list V := map snd m.
End Ops.
End JSMap.

(** [Set<symbol>]. *)
Module JSSet.
Definition t := list nat.
Definition empty : t := [].
Definition has (x : nat) (s : t) : bool := existsb (Nat.eqb x) s.
Definition add (x : nat) (s : t) : t := if has x s then s else s ++ [x].
Definition size (s : t) : nat := length s.
End JSSet.

(* ================================================================= *)
(** ** Regular expressions, as far as the matcher builds them *)

Module RegExp.

Definition CARET : JS.char := 94.      (* ^ *)
Definition DOLLAR : JS.char := 36.     (* $ *)
Definition BACKSLASH : JS.char := 92.  (* \ *)
Definition DOT : JS.char := 46.        (* . *)
Definition STAR : JS.char := 42.       (* * *)

(** SyntaxCharacter of the ECMAScript pattern grammar:
    [^ $ \ . * + ? ( ) [ ] { } |]. *)
Definition isSyntaxCharacter (c : JS.char) : bool :=
  existsb (N.eqb c) [94; 36; 92; 46; 42; 43; 63; 40; 41; 91; 93; 123; 125; 124].

(** LineTerminator: LF, CR, LS, PS.  Without the [s] flag the dot does
    not match them. *)
Definition isLineTerminator (c : JS.char) : bool :=
  existsb (N.eqb c) [10; 13; 8232; 8233].

(** The terms of a pattern.  [DotStar] is the atom [.] under the greedy
    quantifier [*]. *)
Inductive term : Type :=
| Start                    (* assertion ^ *)
| End_                     (* assertion $ *)
| Char (c : JS.char)       (* a pattern character or an identity escape *)
| Dot                      (* . *)
| DotStar.                 (* .* *)

Definition t := list term.

(** [new RegExp(src)] without flags.  [None] stands for the SyntaxError
    of the constructor and for the syntax this model leaves out
    (quantifiers on anything but the dot, groups, classes, class
    escapes). *)
Fixpoint parse (src : JS.str) : option t :=
  match src with
  | [] => Some []
  | c :: rest =>
      if N.eqb c BACKSLASH then
        match rest with
        | d :: rest' =>
            if isSyntaxCharacter d
            then option_map (cons (Char d)) (parse rest')
            else None
        | [] => None
        end
      else if N.eqb c DOT then
        match rest with
        | d :: rest' =>
            if N.eqb d STAR
            then option_map (cons DotStar) (parse rest')
            else option_map (cons Dot) (parse rest)
        | [] => Some [Dot]
        end
      else if N.eqb c CARET then option_map (cons Start) (parse rest)
      else if N.eqb c DOLLAR then option_map (cons End_) (parse rest)
      else if isSyntaxCharacter c then None
      else option_map (cons (Char c)) (parse rest)
  end.

(** Does the pattern match a prefix of [s]?  [atStart] tells whether
    [s] begins at index 0 of the input.  The greedy star backtracks, so
    for a yes/no answer every split is tried. *)
Fixpoint matchHere (r : t) : bool -> JS.str -> bool :=
  match r with
  | [] => fun _ _ => true
  | Start :: r' => fun atStart s => atStart && matchHere r' atStart s
  | End_ :: r' => fun atStart s =>
      match s with
      | [] => matchHere r' atStart []
      | _ :: _ => false
      end
  | Char c :: r' => fun _ s =>
      match s with
      | x :: s' => N.eqb x c && matchHere r' false s'
      | [] => false
      end
  | Dot :: r' => fun _ s =>
      match s with
      | x :: s' => negb (isLineTerminator x) && matchHere r' false s'
      | [] => false
      end
  | DotStar :: r' =>
      fix star (atStart : bool) (s : JS.str) {struct s} : bool :=
        matchHere r' atStart s
        || match s with
           | x :: s' => negb (isLineTerminator x) && star false s'
           | [] => false
           end
  end.

Fixpoint searchFrom (r : t) (atStart : bool) (s : JS.str) : bool :=
  matchHere r atStart s
  || match s with
     | _ :: s' => searchFrom r false s'
     | [] => false
     end.

(** [regex.test(s)] for a regex without the [g] and [y] flags: a match
    is looked for at every index. *)
Definition test (r : t) (s : JS.str) : bool := searchFrom r true s.

End RegExp.

(* ================================================================= *)
(** ** Pattern matcher (pattern-matcher.ts) *)

Module PatternMatcher.

(** The interface [PatternMatcher]. *)
Record Interface : Type := {
  matches : JS.str -> JS.str -> bool;
  hasWildcard : JS.str -> bool
}.

(** The character class of the first [replace]:
    [[.+?^${}()|[\]\\]]. *)
Definition isEscaped (c : JS.char) : bool :=
  existsb (N.eqb c) [46; 43; 63; 94; 36; 123; 125; 40; 41; 124; 91; 93; 92].

(** [pattern.replace(/[.+?^${}()|[\]\\]/g, '\\$&').replace(/\*/g, '.*')] *)
Definition regexPattern (pattern : JS.str) : JS.str :=
  JS.replaceEach (N.eqb RegExp.STAR) (fun _ => [RegExp.DOT; RegExp.STAR])
    (JS.replaceEach isEscaped (fun c => [RegExp.BACKSLASH; c]) pattern).

(** [`^${regexPattern}$`] *)
Definition regexSource (pattern : JS.str) : JS.str :=
  [RegExp.CARET] ++ regexPattern pattern ++ [RegExp.DOLLAR].

(** [patternCache]: compiled regexes keyed by the raw pattern. *)
Definition Cache := list (JS.str * RegExp.t).

Fixpoint cacheGet (pattern : JS.str) (c : Cache) : option RegExp.t :=
  match c with
  | [] => None
  | (k, r) :: c' => if JS.eqb pattern k then Some r else cacheGet pattern c'
  end.

(** [matches], with the cache threaded.  [None] is an exception thrown
    by [new RegExp]. *)
Definition matchesCached (pattern event : JS.str) (cache : Cache)
  : option bool * Cache :=
  if JS.eqb pattern [RegExp.STAR] then (Some true, cache)
  else if JS.eqb pattern event then (Some true, cache)
  else
    match cacheGet pattern cache with
    | Some regex => (Some (RegExp.test regex event), cache)
    | None =>
        match RegExp.parse (regexSource pattern) with
        | Some regex => (Some (RegExp.test regex event), (pattern, regex) :: cache)
        | None => (None, cache)
        end
    end.

(** [matches] as the other components see it: the answer for a matcher
    that starts with an empty cache.  [matchesCached_sound] shows that the cache
    never changes an answer, and [parse_regexSource] that the
    constructor never throws, so the last branch is dead. *)
Definition matchesImpl (pattern event : JS.str) : bool :=
  if JS.eqb pattern [RegExp.STAR] then true
  else if JS.eqb pattern event then true
  else
    match RegExp.parse (regexSource pattern) with
    | Some regex => RegExp.test regex event
    | None => false
    end.

Definition hasWildcardImpl (pattern : JS.str) : bool :=
  JS.includes pattern RegExp.STAR.

Definition createPatternMatcher : Interface :=
  {| matches := matchesImpl; hasWildcard := hasWildcardImpl |}.

(** What the two [replace] calls make of one character of the
    pattern. *)
Definition expansion (c : JS.char) : JS.str :=
  if N.eqb c RegExp.STAR then [RegExp.DOT; RegExp.STAR]
  else if isEscaped c then [RegExp.BACKSLASH; c]
  else [c].

(** *** What a pattern means

    The regex a pattern compiles to, term by term. *)
Definition compile (pattern : JS.str) : RegExp.t :=
  map (fun c => if N.eqb c RegExp.STAR then RegExp.DotStar else RegExp.Char c) pattern.

(** Every cached regex is the one its pattern compiles to. *)
Definition cacheOk (c : Cache) : Prop :=
  forall pattern regex,
    cacheGet pattern c = Some regex ->
    RegExp.parse (regexSource pattern) = Some regex.

(** Wildcard matching in the words of the specification: the wildcard
    token stands for zero or more characters, every other character for
    itself.  [any] says which characters the wildcard may stand for. *)
Inductive Glob (any : JS.char -> bool) : JS.str -> JS.str -> Prop :=
| Glob_nil : Glob any [] []
| Glob_char c pattern event :
    c <> RegExp.STAR ->
    Glob any pattern event ->
    Glob any (c :: pattern) (c :: event)
| Glob_star_none pattern event :
    Glob any pattern event ->
    Glob any (RegExp.STAR :: pattern) event
| Glob_star_more x pattern event :
    any x = true ->
    Glob any (RegExp.STAR :: pattern) event ->
    Glob any (RegExp.STAR :: pattern) (x :: event).

Definition anyChar (c : JS.char) : bool := true.

Definition notLineTerminator (c : JS.char) : bool :=
  negb (RegExp.isLineTerminator c).

End PatternMatcher.

Local Close Scope N_scope.
Local Open Scope Z_scope.

(* ================================================================= *)
(** ** Promises *)

Module Promise.

(** A promise, seen at the moment it is awaited. *)
Inductive t (A : Type) : Type :=
| Fulfilled (a : A)
| Rejected.

Arguments Rejected {A}.

(** [p.then(onFulfilled, onRejected)] for callbacks that return
    normally: the new promise is fulfilled with what the callback that
    ran returned. *)
Definition then_ (A B : Type) (p : t A)
    (onFulfilled : A -> B) (onRejected : unit -> B) : t B :=
  match p with
  | Fulfilled a => Fulfilled (onFulfilled a)
  | Rejected => Fulfilled (onRejected tt)
  end.

(** What a function typed [Promise<T> | T] hands back: a value, a
    promise of this realm, or a thenable that is no instance of this
    realm's [Promise] (a promise of another realm or of a library);
    [p] is what the promise or the thenable settles to. *)
Inductive maybe (A : Type) : Type :=
| Plain (a : A)
| Pending (p : t A)
| Thenable (p : t A).

(** The value of [result instanceof Promise ? await result : result]:
    the value of [result] or of the promise awaited, or the thenable
    itself, which [instanceof] did not recognise and nobody awaits. *)
Inductive awaited (A : Type) : Type :=
| Value (a : A)
| Unawaited (p : t A).

(** [result instanceof Promise ? await result : result], inside an
    async function: [Fulfilled v] continues with [v], [Rejected]
    is the exception that [await] rethrows. *)
Definition awaitIfPromise (A : Type) (r : maybe A) : t (awaited A) :=
  match r with
  | Plain a => Fulfilled (Value a)
  | Pending (Fulfilled a) => Fulfilled (Value a)
  | Pending Rejected => Rejected
  | Thenable p => Fulfilled (Unawaited p)
  end.

End Promise.

(* ================================================================= *)
(** ** Listener types (listener-store.types.ts) *)

Module Types.

Definition symbol := nat.

(** What one call [handler(payload)] does: it returns a value that is
    no thenable ([undefined], as a rule), it throws, it returns a
    promise of this realm that is fulfilled or rejected when awaited, or
    it returns a thenable that is no instance of this realm's [Promise]
    (a promise of another realm or of a library) and that calls back,
    at a time of its choosing, when it is fulfilled or rejected. *)
Inductive Outcome : Type :=
| ReturnsVoid
| Throws
| ReturnsFulfilled
| ReturnsRejected
| ReturnsForeignFulfilled
| ReturnsForeignRejected.

(** A handler maps the payload to its outcome and to the milliseconds
    [Date.now()] advances until that outcome is known. *)
Definition ListenerHandler (Payload : Type) := Payload -> Outcome * Z.

Record SubscribeOptions : Type := {
  opt_priority : option Z;
  opt_once : option bool
}.

Definition noOptions : SubscribeOptions :=
  {| opt_priority := None; opt_once := None |}.

Record ListenerInfo : Type := {
  info_id : symbol;
  info_priority : Z;
  info_once : bool;
  info_pattern : JS.str;
  info_addedAt : Z;
  info_executionCount : Z;
  avgDuration : JS.number
}.

Definition ListenerMap := JSMap.t (list ListenerInfo).

(** [x ?? d] *)
Definition orElse (A : Type) (x : option A) (d : A) : A :=
  match x with
  | Some a => a
  | None => d
  end.

End Types.

(* ================================================================= *)
(** ** Listener store (listener-store.ts) *)

Module ListenerStore.
Import Types.

Section Store.
Variable Payload : Type.
Variable patternMatcher : PatternMatcher.Interface.

Record Listener : Type := {
  id : symbol;
  handler : ListenerHandler Payload;
  priority : Z;
  once : bool;
  pattern : JS.str;
  addedAt : Z;
  executionCount : Z;
  totalDuration : Z
}.

Definition Buckets := JSMap.t (list Listener).

(** The three collections [createListenerStore] closes over, and the
    supply of fresh symbols. *)
Record State : Type := {
  exactMatches : Buckets;
  wildcardPatterns : Buckets;
  markedForRemoval : JSSet.t;
  nextSymbol : symbol
}.

Definition createListenerStore : State :=
  {| exactMatches := JSMap.empty _;
     wildcardPatterns := JSMap.empty _;
     markedForRemoval := JSSet.empty;
     nextSymbol := 0%nat |}.

Definition withExact (m : Buckets) (st : State) : State :=
  {| exactMatches := m;
     wildcardPatterns := wildcardPatterns st;
     markedForRemoval := markedForRemoval st;
     nextSymbol := nextSymbol st |}.

Definition withWildcard (m : Buckets) (st : State) : State :=
  {| exactMatches := exactMatches st;
     wildcardPatterns := m;
     markedForRemoval := markedForRemoval st;
     nextSymbol := nextSymbol st |}.

(** [getMapForPattern] returns one of the two maps by reference; the
    reference is a getter and a setter here. *)
Definition getMapForPattern (pattern : JS.str) (st : State) : Buckets :=
  if PatternMatcher.hasWildcard patternMatcher pattern
  then wildcardPatterns st else exactMatches st.

Definition putMapForPattern (pattern : JS.str) (m : Buckets) (st : State) : State :=
  if PatternMatcher.hasWildcard patternMatcher pattern
  then withWildcard m st else withExact m st.

(** The comparator of [sortByPriority]. *)
Definition comparePriority (a b : Listener) : Z :=
  if negb (priority b =? priority a)
  then priority b - priority a
  else addedAt a - addedAt b.

Definition sortByPriority (listeners : list Listener) : list Listener :=
  JS.sort comparePriority listeners.

Definition hasId (listenerId : symbol) (l : Listener) : bool :=
  Nat.eqb (id l) listenerId.

Definition withoutId (listenerId : symbol) (listeners : list Listener) : list Listener :=
  filter (fun l => negb (hasId listenerId l)) listeners.

(** The two branches [updated.length === 0 ? delete : set]. *)
Definition deleteOrSet (pattern : JS.str) (updated : list Listener) (m : Buckets) : Buckets :=
  if Nat.eqb (length updated) 0
  then JSMap.delete pattern m
  else JSMap.set pattern updated m.

(** The loop of [removeListenerById] over [map.entries()]; the map is
    changed only in the iteration that returns. *)
Fixpoint removeListenerByIdFrom (entries : Buckets) (m : Buckets) (listenerId : symbol)
  : option JS.str * Buckets :=
  match entries with
  | [] => (None, m)
  | (pat, listeners) :: rest =>
      if existsb (hasId listenerId) listeners
      then (Some pat, deleteOrSet pat (withoutId listenerId listeners) m)
      else removeListenerByIdFrom rest m listenerId
  end.

Definition removeListenerById (m : Buckets) (listenerId : symbol)
  : option JS.str * Buckets :=
  removeListenerByIdFrom m m listenerId.

Definition collectAllListeners (m : Buckets) : list (JS.str * symbol) :=
  flat_map (fun e => map (fun l => (fst e, id l)) (snd e)) m.

Definition mapListeners (listeners : list Listener) : list ListenerInfo :=
  map (fun l =>
         {| info_id := id l;
            info_priority := priority l;
            info_once := once l;
            info_pattern := pattern l;
            info_addedAt := addedAt l;
            info_executionCount := executionCount l;
            avgDuration :=
              if 0 <? executionCount l
              then JS.div (totalDuration l) (executionCount l)
              else JS.Finite 0 |})
      listeners.

Definition addMatchingToResult (m : Buckets) (result : ListenerMap)
    (event : option JS.str) : ListenerMap :=
  fold_left
    (fun res e =>
       if match event with
          | None => true
          | Some ev => PatternMatcher.matches patternMatcher (fst e) ev
          end
       then JSMap.set (fst e) (mapListeners (snd e)) res
       else res)
    m result.

(** One iteration of [removeMarkedFromMap]. *)
Definition removeMarkedStep (marked : JSSet.t) (m : Buckets)
    (e : JS.str * list Listener) : Buckets :=
  let updated := filter (fun l => negb (JSSet.has (id l) marked)) (snd e) in
  if Nat.eqb (length updated) 0 then JSMap.delete (fst e) m
  else if negb (Nat.eqb (length updated) (length (snd e)))
       then JSMap.set (fst e) updated m
       else m.

(** The iteration visits the entries that were there when it began:
    an iteration touches no binding but its own. *)
Definition removeMarkedFromMap (marked : JSSet.t) (m : Buckets) : Buckets :=
  fold_left (removeMarkedStep marked) m m.

(** *** The methods *)

(** The object literal of [add]; [now] is the value of [Date.now()]. *)
Definition newListener (listenerId : symbol) (pat : JS.str)
    (h : ListenerHandler Payload) (options : SubscribeOptions) (now : Z)
  : Listener :=
  {| id := listenerId;
     handler := h;
     priority := orElse (opt_priority options) 0;
     once := orElse (opt_once options) false;
     pattern := pat;
     addedAt := now;
     executionCount := 0;
     totalDuration := 0 |}.

Definition add (pat : JS.str) (h : ListenerHandler Payload)
    (options : SubscribeOptions) (now : Z) (st : State) : symbol * State :=
  let listenerId := nextSymbol st in
  let listener := newListener listenerId pat h options now in
  let listenerMap := getMapForPattern pat st in
  let existing := orElse (JSMap.get pat listenerMap) [] in
  let updated := sortByPriority (existing ++ [listener]) in
  (listenerId,
   putMapForPattern pat (JSMap.set pat updated listenerMap)
     {| exactMatches := exactMatches st;
        wildcardPatterns := wildcardPatterns st;
        markedForRemoval := markedForRemoval st;
        nextSymbol := S (nextSymbol st) |}).

Definition remove (pat : JS.str) (listenerId : symbol) (st : State) : bool * State :=
  let listenerMap := getMapForPattern pat st in
  let existing := orElse (JSMap.get pat listenerMap) [] in
  let updated := withoutId listenerId existing in
  (negb (Nat.eqb (length updated) (length existing)),
   putMapForPattern pat (deleteOrSet pat updated listenerMap) st).

(** [removeListenerById(exactMatches, id) ?? removeListenerById(wildcardPatterns, id)] *)
Definition removeById (listenerId : symbol) (st : State) : option JS.str * State :=
  match removeListenerById (exactMatches st) listenerId with
  | (Some pat, m) => (Some pat, withExact m st)
  | (None, m) =>
      let st' := withExact m st in
      let (r, w) := removeListenerById (wildcardPatterns st') listenerId in
      (r, withWildcard w st')
  end.

Definition removeAll (event : option JS.str) (st : State)
  : list (JS.str * symbol) * State :=
  match event with
  | None =>
      let removed :=
        collectAllListeners (exactMatches st)
        ++ collectAllListeners (wildcardPatterns st) in
      (removed, withWildcard (JSMap.empty _) (withExact (JSMap.empty _) st))
  | Some ev =>
      let listeners := orElse (JSMap.get ev (exactMatches st)) [] in
      let removed := map (fun l => (ev, id l)) listeners in
      (removed,
       withWildcard (JSMap.delete ev (wildcardPatterns st))
         (withExact (JSMap.delete ev (exactMatches st)) st))
  end.

Definition getMatching (event : JS.str) (st : State) : list Listener :=
  let exactListeners := JSMap.get event (exactMatches st) in
  let matching :=
    match exactListeners with
    | Some ls => ls
    | None => []
    end in
  let matching :=
    fold_left
      (fun acc e =>
         if PatternMatcher.matches patternMatcher (fst e) event
         then acc ++ snd e else acc)
      (wildcardPatterns st) matching in
  sortByPriority matching.

Definition getAll (event : option JS.str) (st : State) : ListenerMap :=
  let result := JSMap.empty _ in
  let result := addMatchingToResult (exactMatches st) result event in
  addMatchingToResult (wildcardPatterns st) result event.

(** [listener.executionCount++; listener.totalDuration += duration] *)
Definition recordExecution (duration : Z) (l : Listener) : Listener :=
  {| id := id l;
     handler := handler l;
     priority := priority l;
     once := once l;
     pattern := pattern l;
     addedAt := addedAt l;
     executionCount := executionCount l + 1;
     totalDuration := totalDuration l + duration |}.

(** [listeners.find(l => l.id === listenerId)] followed by the update
    of the object found. *)
Fixpoint updateFirst (listenerId : symbol) (duration : Z)
    (listeners : list Listener) : option (list Listener) :=
  match listeners with
  | [] => None
  | l :: rest =>
      if hasId listenerId l then Some (recordExecution duration l :: rest)
      else option_map (cons l) (updateFirst listenerId duration rest)
  end.

Fixpoint findAndUpdate (listenerId : symbol) (duration : Z) (m : Buckets)
  : bool * Buckets :=
  match m with
  | [] => (false, [])
  | (pat, listeners) :: rest =>
      match updateFirst listenerId duration listeners with
      | Some listeners' => (true, (pat, listeners') :: rest)
      | None =>
          let (found, rest') := findAndUpdate listenerId duration rest in
          (found, (pat, listeners) :: rest')
      end
  end.

Definition updateStats (listenerId : symbol) (duration : Z) (st : State) : State :=
  let (found, m) := findAndUpdate listenerId duration (exactMatches st) in
  if found then withExact m st
  else withWildcard (snd (findAndUpdate listenerId duration (wildcardPatterns st))) st.

Definition markForRemoval (listenerId : symbol) (st : State) : State :=
  {| exactMatches := exactMatches st;
     wildcardPatterns := wildcardPatterns st;
     markedForRemoval := JSSet.add listenerId (markedForRemoval st);
     nextSymbol := nextSymbol st |}.

Definition removeMarked (st : State) : State :=
  if Nat.eqb (JSSet.size (markedForRemoval st)) 0 then st
  else
    {| exactMatches := removeMarkedFromMap (markedForRemoval st) (exactMatches st);
       wildcardPatterns := removeMarkedFromMap (markedForRemoval st) (wildcardPatterns st);
       markedForRemoval := JSSet.empty;
       nextSymbol := nextSymbol st |}.

(** *** Shared listener objects

    The array [getMatching] returns is fresh, the listeners in it are
    the objects of the buckets.  When the executor bumps the counters
    of such an object the bucket sees it: [writeBack l'] stores the
    new content of the object known by [id l']. *)
Definition writeBackIn (l' : Listener) (m : Buckets) : Buckets :=
  map (fun e => (fst e, map (fun l => if hasId (id l') l then l' else l) (snd e))) m.

Definition writeBack (l' : Listener) (st : State) : State :=
  {| exactMatches := writeBackIn l' (exactMatches st);
     wildcardPatterns := writeBackIn l' (wildcardPatterns st);
     markedForRemoval := markedForRemoval st;
     nextSymbol := nextSymbol st |}.

(** Every listener the store holds, exact buckets first. *)
Definition listenersOf (m : Buckets) : list Listener := flat_map snd m.

Definition allListeners (st : State) : list Listener :=
  listenersOf (exactMatches st) ++ listenersOf (wildcardPatterns st).

Definition ids (listeners : list Listener) : list symbol := map id listeners.

(** *** Invariants *)

(** The order [sortByPriority] establishes: higher priority first,
    earlier timestamp first among equal priorities. *)
Definition before (a b : Listener) : Prop :=
  priority b < priority a \/ (priority a = priority b /\ addedAt a <= addedAt b).

(** One of the two maps: keys unique, no empty bucket, every key on
    the side [hasWildcard] assigns it to, every listener under the
    pattern it was registered with. *)
Definition bucketsOk (wild : bool) (m : Buckets) : Prop :=
  NoDup (JSMap.keys m)
  /\ forall pat listeners,
       In (pat, listeners) m ->
       listeners <> []
       /\ PatternMatcher.hasWildcard patternMatcher pat = wild
       /\ forall l, In l listeners -> pattern l = pat.

Record wf (st : State) : Prop := {
  wf_exact : bucketsOk false (exactMatches st);
  wf_wildcard : bucketsOk true (wildcardPatterns st);
  wf_unique : NoDup (ids (allListeners st));
  wf_fresh : forall l, In l (allListeners st) -> (id l < nextSymbol st)%nat;
  wf_counted : forall l, In l (allListeners st) -> 0 <= executionCount l
}.

(** Two versions of one listener object: everything but the counters
    agrees. *)
Definition sameListener (a b : Listener) : Prop :=
  id a = id b /\ handler a = handler b /\ priority a = priority b
  /\ once a = once b /\ pattern a = pattern b /\ addedAt a = addedAt b.

(** The listeners an event name selects: those registered under the
    name itself and those whose wildcard pattern matches it. *)
Definition selects (event : JS.str) (l : Listener) : bool :=
  if PatternMatcher.hasWildcard patternMatcher (pattern l)
  then PatternMatcher.matches patternMatcher (pattern l) event
  else JS.eqb (pattern l) event.

(** Removal seen from outside: the listeners that satisfy [keep]
    stay where they are, a bucket left empty goes. *)
Definition prune (keep : Listener -> bool) (m : Buckets) : Buckets :=
  flat_map
    (fun e =>
       match filter keep (snd e) with
       | [] => []
       | updated => [(fst e, updated)]
       end)
    m.

Definition pruned (keep : Listener -> bool) (st : State) : State :=
  withWildcard (prune keep (wildcardPatterns st))
    (withExact (prune keep (exactMatches st)) st).

(** [st'] holds the buckets of [st] pruned; marks may differ. *)
Definition isPruned (keep : Listener -> bool) (st st' : State) : Prop :=
  exactMatches st' = prune keep (exactMatches st)
  /\ wildcardPatterns st' = prune keep (wildcardPatterns st)
  /\ nextSymbol st' = nextSymbol st.

(** A listener after its counters moved. *)
Definition newerVersion (a b : Listener) : Prop :=
  sameListener a b /\ (0 <= executionCount a -> 0 <= executionCount b).

(** Two maps that differ in counters only. *)
Definition sameBuckets (m m' : Buckets) : Prop :=
  Forall2 (fun e e' => fst e = fst e' /\ Forall2 newerVersion (snd e) (snd e')) m m'.

Definition sameState (st st' : State) : Prop :=
  sameBuckets (exactMatches st) (exactMatches st')
  /\ sameBuckets (wildcardPatterns st) (wildcardPatterns st')
  /\ nextSymbol st' = nextSymbol st.

(** Timestamps that tell registrations apart: a later symbol has a
    later timestamp. *)
Definition chronological (st : State) : Prop :=
  forall a b,
    In a (allListeners st) -> In b (allListeners st) ->
    (id a < id b)%nat -> addedAt a < addedAt b.

(** The clock reads [now], later than every timestamp in the store. *)
Definition clockAhead (now : Z) (st : State) : Prop :=
  forall l, In l (allListeners st) -> addedAt l < now.

(** Higher priority first, earlier registration first among equal
    priorities. *)
Definition fifo (a b : Listener) : Prop :=
  priority b < priority a \/ (priority a = priority b /\ (id a < id b)%nat).

(** An id the store has handed out and does not hold. *)
Definition absent (listenerId : symbol) (st : State) : Prop :=
  (listenerId < nextSymbol st)%nat /\ ~ In listenerId (ids (allListeners st)).

(** From [st] to [st']: symbols are never reused, and a listener of
    [st'] is a version of one of [st] or was created in between. *)
Definition inherits (st st' : State) : Prop :=
  (nextSymbol st <= nextSymbol st')%nat
  /\ forall l', In l' (allListeners st') ->
       (exists l, In l (allListeners st) /\ sameListener l l')
       \/ (nextSymbol st <= id l')%nat.

End Store.
End ListenerStore.

(* ================================================================= *)
(** ** Handler executor (handler-executor.ts) *)

Module HandlerExecutor.
Import Types.

Section Executor.
Variable Payload : Type.

Record ExecutionResult : Type := {
  shouldRemove : bool;
  duration : Z
}.

Record HandlerExecutionResult : Type := {
  listenersToRemove : list symbol
}.

(** [executeHandler].  Beside its result the function changes the
    listener it was given, so the listener object as it is afterwards
    is part of what comes back.  The [try] block covers the call of
    the handler: [Throws] lands in [catch].  Whatever has a [then]
    gets both callbacks, and what its [then] returns is handed back:
    a promise of this realm for a promise of this realm, a thenable
    of its own kind for any other thenable. *)
Definition executeHandler (payload : Payload)
    (listener : ListenerStore.Listener Payload)
  : Promise.maybe (ListenerStore.Listener Payload * ExecutionResult) :=
  let (outcome, elapsed) := ListenerStore.handler listener payload in
  let onSuccess :=
    (ListenerStore.recordExecution elapsed listener,
     {| shouldRemove := ListenerStore.once listener; duration := elapsed |}) in
  let onFailure :=
    (listener, {| shouldRemove := false; duration := elapsed |}) in
  match outcome with
  | ReturnsFulfilled =>
      Promise.Pending
        (Promise.then_ (Promise.Fulfilled tt) (fun _ => onSuccess) (fun _ => onFailure))
  | ReturnsRejected =>
      Promise.Pending
        (Promise.then_ (@Promise.Rejected unit) (fun _ => onSuccess) (fun _ => onFailure))
  | ReturnsForeignFulfilled =>
      Promise.Thenable
        (Promise.then_ (Promise.Fulfilled tt) (fun _ => onSuccess) (fun _ => onFailure))
  | ReturnsForeignRejected =>
      Promise.Thenable
        (Promise.then_ (@Promise.Rejected unit) (fun _ => onSuccess) (fun _ => onFailure))
  | ReturnsVoid => Promise.Plain onSuccess
  | Throws => Promise.Plain onFailure
  end.

(** What a run of [execute] leaves behind: the listeners whose
    handler was called, in call order and as they are when [execute]
    is done with them, and the promise the async function returns. *)
Record Run : Type := {
  called : list (ListenerStore.Listener Payload);
  outcome : Promise.t HandlerExecutionResult
}.

(** The [for ... of] loop of [execute], run from a listener to the
    end with nothing else happening in between.  A thenable that
    [instanceof Promise] does not recognise is not awaited: it is
    taken for the result, has no [shouldRemove], and the loop goes on
    while the callbacks of [executeHandler] are still to be called. *)
Fixpoint executeFrom (payload : Payload)
    (listeners : list (ListenerStore.Listener Payload))
    (toRemove : list symbol) (done : list (ListenerStore.Listener Payload))
  : Run :=
  match listeners with
  | [] =>
      {| called := done;
         outcome := Promise.Fulfilled {| listenersToRemove := toRemove |} |}
  | listener :: rest =>
      let result := executeHandler payload listener in
      match Promise.awaitIfPromise result with
      | Promise.Rejected =>
          {| called := done ++ [listener]; outcome := Promise.Rejected |}
      | Promise.Fulfilled (Promise.Value (listener', executionResult)) =>
          executeFrom payload rest
            (if shouldRemove executionResult
             then toRemove ++ [ListenerStore.id listener]
             else toRemove)
            (done ++ [listener'])
      | Promise.Fulfilled (Promise.Unawaited _) =>
          executeFrom payload rest toRemove (done ++ [listener])
      end
  end.

Definition execute (payload : Payload)
    (listeners : list (ListenerStore.Listener Payload)) : Run :=
  executeFrom payload listeners [] [].

(** [execute] sees the handler of a listener succeed for this
    payload: the handler returns, or the promise of this realm it
    returns is fulfilled.  What becomes of a thenable of another kind
    [execute] does not see. *)
Definition succeeds (payload : Payload)
    (listener : ListenerStore.Listener Payload) : bool :=
  match fst (ListenerStore.handler listener payload) with
  | ReturnsVoid | ReturnsFulfilled => true
  | Throws | ReturnsRejected => false
  | ReturnsForeignFulfilled | ReturnsForeignRejected => false
  end.

(** The handler of a listener completes for this payload: it returns,
    or what it returns is fulfilled, a thenable of another kind
    included. *)
Definition completes (payload : Payload)
    (listener : ListenerStore.Listener Payload) : bool :=
  match fst (ListenerStore.handler listener payload) with
  | ReturnsVoid | ReturnsFulfilled | ReturnsForeignFulfilled => true
  | Throws | ReturnsRejected | ReturnsForeignRejected => false
  end.

(** The handler returns a thenable that [execute] does not await. *)
Definition detaches (payload : Payload)
    (listener : ListenerStore.Listener Payload) : bool :=
  match fst (ListenerStore.handler listener payload) with
  | ReturnsForeignFulfilled | ReturnsForeignRejected => true
  | _ => false
  end.

(** The callbacks [execute] leaves behind: for each thenable it did
    not await and that is fulfilled, the first callback of
    [executeHandler] is still to be called, and adds one execution and
    the duration to the counters of the listener when it is. *)
Definition detached (payload : Payload)
    (listeners : list (ListenerStore.Listener Payload)) : list (symbol * Z) :=
  flat_map
    (fun listener =>
       match ListenerStore.handler listener payload with
       | (ReturnsForeignFulfilled, elapsed) => [(ListenerStore.id listener, elapsed)]
       | _ => []
       end)
    listeners.

(** The listener object when [execute] is done with it. *)
Definition afterCall (payload : Payload)
    (listener : ListenerStore.Listener Payload)
  : ListenerStore.Listener Payload :=
  if succeeds payload listener
  then ListenerStore.recordExecution
         (snd (ListenerStore.handler listener payload)) listener
  else listener.

End Executor.
End HandlerExecutor.

(* ================================================================= *)
(** ** The facade (eventbus.ts) *)

Module EventBus.
Import Types.

Section Bus.
Variable Payload : Type.

Definition patternMatcher := PatternMatcher.createPatternMatcher.

(** [createEventBus]: the state of a bus is the state of the listener
    store it creates. *)
Definition createEventBus : ListenerStore.State Payload :=
  ListenerStore.createListenerStore Payload.

(** [subscribe] returns the closure
    [() => listenerStore.remove(pattern, listenerId)]; the closure is
    given here by the two values it captures. *)
Record Unsubscribe : Type := {
  unsub_pattern : JS.str;
  unsub_id : symbol
}.

Definition subscribe (pat : JS.str) (h : ListenerHandler Payload)
    (options : SubscribeOptions) (now : Z) (st : ListenerStore.State Payload)
  : Unsubscribe * ListenerStore.State Payload :=
  let (listenerId, st') := ListenerStore.add patternMatcher pat h options now st in
  ({| unsub_pattern := pat; unsub_id := listenerId |}, st').

(** Calling the closure. *)
Definition unsubscribe (u : Unsubscribe) (st : ListenerStore.State Payload)
  : ListenerStore.State Payload :=
  snd (ListenerStore.remove patternMatcher (unsub_pattern u) (unsub_id u) st).

Definition on := subscribe.

Definition onPattern := subscribe.

(** [{ ...options, once: true }] *)
Definition once (event : JS.str) (h : ListenerHandler Payload)
    (options : SubscribeOptions) (now : Z) (st : ListenerStore.State Payload)
  : Unsubscribe * ListenerStore.State Payload :=
  subscribe event h
    {| opt_priority := opt_priority options; opt_once := Some true |} now st.

(** The listeners the executor called are objects of the store: what
    it did to them is seen there. *)
Definition seenByStore (called : list (ListenerStore.Listener Payload))
    (st : ListenerStore.State Payload) : ListenerStore.State Payload :=
  fold_left (fun s l => ListenerStore.writeBack l s) called st.

(** [for (const listenerId of listenersToRemove)
       listenerStore.removeById(listenerId)] *)
Definition removeEach (listenersToRemove : list symbol)
    (st : ListenerStore.State Payload) : ListenerStore.State Payload :=
  fold_left (fun s listenerId => snd (ListenerStore.removeById listenerId s))
    listenersToRemove st.

(** [emit], from the call to the end with nothing else calling the
    bus in between, as when the caller awaits it: the matching
    listeners, the executor, then the removal of the listeners it
    flagged.  The first component is the promise [emit] returns.
    Callbacks of thenables the executor did not await
    ([HandlerExecutor.detached]) are still to be called.  [Async] has
    the same code with its [await]s as places where other calls come
    in between. *)
Definition emit (event : JS.str) (payload : Payload)
    (st : ListenerStore.State Payload)
  : Promise.t unit * ListenerStore.State Payload :=
  let matchingListeners := ListenerStore.getMatching patternMatcher event st in
  let run := HandlerExecutor.execute payload matchingListeners in
  let st1 := seenByStore (HandlerExecutor.called run) st in
  match HandlerExecutor.outcome run with
  | Promise.Rejected => (Promise.Rejected, st1)
  | Promise.Fulfilled r =>
      (Promise.Fulfilled tt, removeEach (HandlerExecutor.listenersToRemove r) st1)
  end.

Definition off (listenerId : symbol) (st : ListenerStore.State Payload)
  : ListenerStore.State Payload :=
  snd (ListenerStore.removeById listenerId st).

(** [listenerStore.removeAll(event ? String(event) : undefined)]: the
    empty string is falsy. *)
Definition offAll (event : option JS.str) (st : ListenerStore.State Payload)
  : ListenerStore.State Payload :=
  snd (ListenerStore.removeAll
         match event with
         | Some [] => None
         | other => other
         end
         st).

Definition getListeners (event : option JS.str)
    (st : ListenerStore.State Payload) : ListenerMap :=
  ListenerStore.getAll patternMatcher event st.

(** *** Reachable states

    One call on the store or the bus.  The methods of the store are
    listed on their own: the store is an interface of its own, and
    [on], [onPattern], [once], [off] and [offAll] are calls of [add],
    [removeById] and [removeAll]. *)
Inductive step : ListenerStore.State Payload -> ListenerStore.State Payload -> Prop :=
| step_add pat h options now st :
    step st (snd (ListenerStore.add patternMatcher pat h options now st))
| step_remove pat listenerId st :
    step st (snd (ListenerStore.remove patternMatcher pat listenerId st))
| step_removeById listenerId st :
    step st (snd (ListenerStore.removeById listenerId st))
| step_removeAll event st :
    step st (snd (ListenerStore.removeAll event st))
| step_updateStats listenerId duration st :
    step st (ListenerStore.updateStats listenerId duration st)
| step_markForRemoval listenerId st :
    step st (ListenerStore.markForRemoval listenerId st)
| step_removeMarked st :
    step st (ListenerStore.removeMarked st)
| step_emit event payload st :
    step st (snd (emit event payload st)).

Inductive steps : ListenerStore.State Payload -> ListenerStore.State Payload -> Prop :=
| steps_refl st : steps st st
| steps_step st1 st2 st3 : steps st1 st2 -> step st2 st3 -> steps st1 st3.

Definition reachable (st : ListenerStore.State Payload) : Prop :=
  steps createEventBus st.

End Bus.
End EventBus.


(* ================================================================= *)
(** ** Emissions that overlap (eventbus.ts, handler-executor.ts) *)

(** [emit] and [execute] are async functions.  [execute] runs from the
    start of its loop to the first handler that returns a promise of this
    realm and stops there at [await result]; resumed, it goes on to the
    next such handler or to its end.  [emit] stops at
    [await handlerExecutor.execute(...)] even when [execute] never
    stopped, and removes the flagged listeners only when it is resumed.
    While an emission waits, other calls of the bus run, other emissions
    among them. *)
Module Async.
Import Types.

Section Interleaving.
Variable Payload : Type.

(** An emission that has started, at the [await] where it waits. *)
Inductive Emission : Type :=
| AtHandler (payload : Payload) (listener : ListenerStore.Listener Payload)
    (promise : Promise.t unit) (elapsed : Z)
    (rest : list (ListenerStore.Listener Payload)) (toRemove : list symbol)
| AtExecute (toRemove : list symbol).

(** The bus with its store, the emissions that wait, and the callbacks
    that thenables nobody awaits have still to call: the id of the
    listener and the duration the callback will measure. *)
Record Bus : Type := {
  store : ListenerStore.State Payload;
  inFlight : list Emission;
  callbacks : list (symbol * Z)
}.

Definition idle (st : ListenerStore.State Payload) : Bus :=
  {| store := st; inFlight := []; callbacks := [] |}.

(** A stretch of the loop of [execute] that runs without waiting. *)
Record Stretch : Type := {
  reached : ListenerStore.State Payload;
  waitsAt : Emission;
  leaves : list (symbol * Z);
  calls : list symbol
}.

Definition afterCalling (listener : ListenerStore.Listener Payload)
    (left : list (symbol * Z)) (s : Stretch) : Stretch :=
  {| reached := reached s;
     waitsAt := waitsAt s;
     leaves := left ++ leaves s;
     calls := ListenerStore.id listener :: calls s |}.

(** [listenersToRemove.push(listener.id)] when the result says so. *)
Definition flag (shouldRemove : bool) (listener : ListenerStore.Listener Payload)
    (toRemove : list symbol) : list symbol :=
  if shouldRemove then toRemove ++ [ListenerStore.id listener] else toRemove.

(** The loop of [execute] from [listeners] on, up to the next [await]
    ([executeHandler] for each listener, by the cases of what the
    handler does).  The listener is an object of the store for as
    long as the store holds it: what [executeHandler] adds to its
    counters is added where the store keeps the listener with this
    id, as [updateStats] does.  At the end of the list [execute]
    returns and [emit] waits for its promise. *)
Fixpoint runLoop (payload : Payload)
    (listeners : list (ListenerStore.Listener Payload))
    (toRemove : list symbol) (st : ListenerStore.State Payload) : Stretch :=
  match listeners with
  | [] =>
      {| reached := st; waitsAt := AtExecute toRemove; leaves := []; calls := [] |}
  | listener :: rest =>
      let (outcome, elapsed) := ListenerStore.handler listener payload in
      match outcome with
      | ReturnsVoid =>
          afterCalling listener []
            (runLoop payload rest
               (flag (ListenerStore.once listener) listener toRemove)
               (ListenerStore.updateStats (ListenerStore.id listener) elapsed st))
      | Throws =>
          afterCalling listener [] (runLoop payload rest toRemove st)
      | ReturnsFulfilled =>
          {| reached := st;
             waitsAt :=
               AtHandler payload listener (Promise.Fulfilled tt) elapsed rest toRemove;
             leaves := [];
             calls := [ListenerStore.id listener] |}
      | ReturnsRejected =>
          {| reached := st;
             waitsAt := AtHandler payload listener Promise.Rejected elapsed rest toRemove;
             leaves := [];
             calls := [ListenerStore.id listener] |}
      | ReturnsForeignFulfilled =>
          afterCalling listener [(ListenerStore.id listener, elapsed)]
            (runLoop payload rest toRemove st)
      | ReturnsForeignRejected =>
          afterCalling listener [] (runLoop payload rest toRemove st)
      end
  end.

Definition dropAt (A : Type) (k : nat) (xs : list A) : list A :=
  firstn k xs ++ skipn (S k) xs.

Definition putAt (A : Type) (k : nat) (x : A) (xs : list A) : list A :=
  firstn k xs ++ x :: skipn (S k) xs.

(** A call of [emit], up to its first [await]; the second component
    lists the listeners whose handler was called, in call order. *)
Definition emitBegin (event : JS.str) (payload : Payload) (b : Bus)
  : Bus * list symbol :=
  let s :=
    runLoop payload
      (ListenerStore.getMatching EventBus.patternMatcher event (store b)) []
      (store b) in
  ({| store := reached s;
      inFlight := inFlight b ++ [waitsAt s];
      callbacks := callbacks b ++ leaves s |},
   calls s).

(** The emission at position [k] goes on from its [await] to the
    next, or to its end.  At [AtHandler] the promise of the handler
    has settled: the callback [executeHandler] gave it runs, then the
    loop goes on.  At [AtExecute] the loop of [emit] removes the
    flagged listeners and the emission is over. *)
Definition resume (k : nat) (b : Bus) : Bus * list symbol :=
  match nth_error (inFlight b) k with
  | None => (b, [])
  | Some (AtExecute toRemove) =>
      ({| store := EventBus.removeEach toRemove (store b);
          inFlight := dropAt k (inFlight b);
          callbacks := callbacks b |},
       [])
  | Some (AtHandler payload listener promise elapsed rest toRemove) =>
      let s :=
        match promise with
        | Promise.Fulfilled _ =>
            runLoop payload rest
              (flag (ListenerStore.once listener) listener toRemove)
              (ListenerStore.updateStats (ListenerStore.id listener) elapsed (store b))
        | Promise.Rejected => runLoop payload rest toRemove (store b)
        end in
      ({| store := reached s;
          inFlight := putAt k (waitsAt s) (inFlight b);
          callbacks := callbacks b ++ leaves s |},
       calls s)
  end.

(** A thenable that nobody awaits calls the callback at position
    [k]. *)
Definition settle (k : nat) (b : Bus) : Bus :=
  match nth_error (callbacks b) k with
  | None => b
  | Some (listenerId, elapsed) =>
      {| store := ListenerStore.updateStats listenerId elapsed (store b);
         inFlight := inFlight b;
         callbacks := dropAt k (callbacks b) |}
  end.

(** The emission at position [k] resumed [n] times in a row. *)
Fixpoint resumeTimes (n k : nat) (b : Bus) : Bus * list symbol :=
  match n with
  | O => (b, [])
  | S n' =>
      let (b1, calls1) := resume k b in
      let (b2, calls2) := resumeTimes n' k b1 in
      (b2, calls1 ++ calls2)
  end.

(** One thing that happens to the bus: a call of a method that does
    not wait, the start of an emission, an emission that goes on, a
    callback that is called.  An [await] is resumed from the microtask
    queue when its promise has settled, which is up to the handlers:
    every order is allowed for here. *)
Inductive turn : Bus -> Bus -> Prop :=
| turn_call b st' :
    EventBus.step (store b) st' ->
    turn b {| store := st'; inFlight := inFlight b; callbacks := callbacks b |}
| turn_emitBegin event payload b :
    turn b (fst (emitBegin event payload b))
| turn_resume k b :
    turn b (fst (resume k b))
| turn_settle k b :
    turn b (settle k b).

Inductive turns : Bus -> Bus -> Prop :=
| turns_refl b : turns b b
| turns_step b1 b2 b3 : turns b1 b2 -> turn b2 b3 -> turns b1 b3.

(** The buses that arise from a new one. *)
Definition arises (b : Bus) : Prop :=
  turns (idle (EventBus.createEventBus Payload)) b.

End Interleaving.
End Async.

(* ================================================================= *)
(** ** Sample states *)

Module Examples.
Import Types.

Definition pm := EventBus.patternMatcher.

Definition succeeding : ListenerHandler unit := fun _ => (ReturnsVoid, 1).

Definition throwing : ListenerHandler unit := fun _ => (Throws, 1).

Definition rejecting : ListenerHandler unit := fun _ => (ReturnsRejected, 1).

(** A handler that returns a promise of another realm, fulfilled. *)
Definition foreign : ListenerHandler unit := fun _ => (ReturnsForeignFulfilled, 1).

Definition onceOnly : SubscribeOptions :=
  {| opt_priority := None; opt_once := Some true |}.

Definition userAny : JS.str := JS.lit "user:*".

Definition userLogin : JS.str := JS.lit "user:login".

(** [user:a], a line feed, [b]. *)
Definition userTwoLines : JS.str := JS.lit "user:a" ++ [10%N] ++ JS.lit "b".

Definition fresh := EventBus.createEventBus unit.

(** [onPattern('user:*', h)] and then [on('user:login', h)], both within
    the millisecond 1000 of the clock. *)
Definition wildcardOnly :=
  snd (ListenerStore.add pm userAny succeeding noOptions 1000 fresh).

Definition wildcardThenExact :=
  snd (ListenerStore.add pm userLogin succeeding noOptions 1000 wildcardOnly).

(** A one-shot listener whose handler throws, followed by one that
    succeeds, both on [user:login]. *)
Definition failingOnce :=
  snd (ListenerStore.add pm userLogin throwing onceOnly 1000 fresh).

Definition failingOnceThenOk :=
  snd (ListenerStore.add pm userLogin succeeding noOptions 1001 failingOnce).

(** A one-shot listener that succeeds. *)
Definition succeedingOnce :=
  snd (ListenerStore.add pm userLogin succeeding onceOnly 1000 fresh).

(** A one-shot listener whose handler returns a fulfilled promise of
    another realm. *)
Definition foreignOnce :=
  snd (ListenerStore.add pm userLogin foreign onceOnly 1000 fresh).

(** Three listeners of priority 0 on one pattern, within one
    millisecond. *)
Definition threeEqual :=
  snd (ListenerStore.add pm userLogin succeeding noOptions 1000
         (snd (ListenerStore.add pm userLogin succeeding noOptions 1000
                 (snd (ListenerStore.add pm userLogin succeeding noOptions 1000 fresh))))).

(** The scenario of the specification: H1 (priority 10), H2
    (priority 5, once) and H3 (priority 5) on [x:y]. *)
Definition xy : JS.str := JS.lit "x:y".

Definition scenario :=
  snd (ListenerStore.add pm xy succeeding
         {| opt_priority := Some 5; opt_once := None |} 1000
         (snd (ListenerStore.add pm xy succeeding
                 {| opt_priority := Some 5; opt_once := Some true |} 1000
                 (snd (ListenerStore.add pm xy succeeding
                         {| opt_priority := Some 10; opt_once := None |} 1000
                         fresh))))).

Definition afterLogin :=
  snd (EventBus.emit userLogin tt wildcardThenExact).

(** Two emissions of [user:login] on [succeedingOnce], the second
    started while the first waits at its [await]. *)
Definition firstStarted :=
  fst (Async.emitBegin userLogin tt (Async.idle succeedingOnce)).

Definition bothStarted :=
  fst (Async.emitBegin userLogin tt firstStarted).

(** The listeners of the sample states. *)
Definition wildcardListener := ListenerStore.newListener 0%nat userAny succeeding noOptions 1000.

Definition exactListener := ListenerStore.newListener 1%nat userLogin succeeding noOptions 1000.

Definition failingListener := ListenerStore.newListener 0%nat userLogin throwing onceOnly 1000.

Definition onceListener := ListenerStore.newListener 0%nat userLogin succeeding onceOnly 1000.

Definition foreignListener := ListenerStore.newListener 0%nat userLogin foreign onceOnly 1000.

(** The summary of [exactListener] after one emission of [user:login]
    that took 1 ms in its handler. *)
Definition exactSummary : ListenerInfo :=
  {| info_id := 1%nat;
     info_priority := 0;
     info_once := false;
     info_pattern := userLogin;
     info_addedAt := 1000;
     info_executionCount := 1;
     avgDuration := JS.Finite (inject_Z 1 / inject_Z 1) |}.

End Examples.

(* ================================================================= *)
(** ** More views of the store *)

Module StoreViews.
Import Types ListenerStore.

Section Views.
Variable Payload : Type.
Variable patternMatcher : PatternMatcher.Interface.

(** The buckets with every listener object changed by [f], keys and
    positions kept: what an update of objects in place looks like. *)
Definition rewriteBuckets (f : Listener Payload -> Listener Payload)
    (m : Buckets Payload) : Buckets Payload :=
  map (fun e => (fst e, map f (snd e))) m.

(** The listener with this id after [updateStats], the others as they
    are. *)
Definition withStats (listenerId : symbol) (duration : Z)
    (l : Listener Payload) : Listener Payload :=
  if hasId listenerId l then recordExecution duration l else l.

(** Every bucket is in the order [sortByPriority] gives. *)
Definition bucketsSorted (st : State Payload) : Prop :=
  forall pat listeners,
    In (pat, listeners) (exactMatches st)
    \/ In (pat, listeners) (wildcardPatterns st) ->
    StronglySorted (@before Payload) listeners.

(** The summaries [getAll] makes of one bucket. *)
Definition summary (e : JS.str * list (Listener Payload))
  : JS.str * list ListenerInfo :=
  (fst e, mapListeners (snd e)).

(** The filter of [getAll]. *)
Definition listed (event : option JS.str)
    (e : JS.str * list (Listener Payload)) : bool :=
  match event with
  | Some ev => PatternMatcher.matches patternMatcher (fst e) ev
  | None => true
  end.

(** The listeners [removeAll] is meant to remove. *)
Definition named (event : option JS.str) (l : Listener Payload) : bool :=
  match event with
  | Some ev => JS.eqb (pattern l) ev
  | None => true
  end.

(** [markForRemoval] for each id of a list, in order. *)
Definition markEach (listenerIds : list symbol) (st : State Payload)
  : State Payload :=
  fold_left (fun s listenerId => markForRemoval listenerId s) listenerIds st.

End Views.
End StoreViews.

(** ** A clock that moves on *)

Module Clock.
Import Types ListenerStore EventBus.

Section Ticking.
Variable Payload : Type.

(** The states the bus reaches when every [add] reads a clock value
    later than all timestamps in the store, that is, when no two
    registrations fall into one millisecond. *)
Inductive ticking : State Payload -> Prop :=
| ticking_init : ticking (createEventBus Payload)
| ticking_step st st' :
    ticking st ->
    step st st' ->
    (forall pat h options now,
        st' = snd (add patternMatcher pat h options now st) ->
        clockAhead now st) ->
    ticking st'.

End Ticking.
End Clock.

(* ================================================================= *)
(** ** Logger (logger.ts) *)

Module Logger.

Inductive Level : Type := Error | Warn | Info | Debug.

(** One call of a [console] method: the method and the message.  The
    further arguments are values the model does not look into. *)
Record Entry : Type := {
  level : Level;
  message : JS.str
}.

(** The console, as the list of the calls made on it. *)
Definition Console := list Entry.

Definition error (msg : JS.str) (console : Console) : Console :=
  console ++ [{| level := Error; message := msg |}].

Definition warn (msg : JS.str) (console : Console) : Console :=
  console ++ [{| level := Warn; message := msg |}].

Definition info (msg : JS.str) (console : Console) : Console :=
  console ++ [{| level := Info; message := msg |}].

Definition debug (msg : JS.str) (console : Console) : Console :=
  console ++ [{| level := Debug; message := msg |}].

End Logger.

(* ================================================================= *)
(** ** Plugin manager (plugin-manager.ts) *)

Module PluginManager.
Import Types.

(** [keyof Plugin]. *)
Inductive HookName : Type :=
| Name
| OnInit
| OnSubscribe
| OnUnsubscribe
| OnBeforeEmit
| OnAfterEmit
| OnError.

(** [String(hookName)] *)
Definition hookNameString (hookName : HookName) : JS.str :=
  match hookName with
  | Name => JS.lit "name"
  | OnInit => JS.lit "onInit"
  | OnSubscribe => JS.lit "onSubscribe"
  | OnUnsubscribe => JS.lit "onUnsubscribe"
  | OnBeforeEmit => JS.lit "onBeforeEmit"
  | OnAfterEmit => JS.lit "onAfterEmit"
  | OnError => JS.lit "onError"
  end.

Section Manager.
(** The arguments [callHook] passes on. *)
Variable Args : Type.

(** A hook, by what a call of it does: it returns [undefined], it
    throws, or it returns a promise or another thenable that is
    fulfilled or rejected. *)
Definition Hook := Args -> Outcome.

Record Plugin : Type := {
  name : JS.str;
  onInit : option Hook;
  onSubscribe : option Hook;
  onUnsubscribe : option Hook;
  onBeforeEmit : option Hook;
  onAfterEmit : option Hook;
  onError : option Hook
}.

(** The value of [plugin[hookName]]. *)
Inductive Property : Type :=
| Undefined
| Text (s : JS.str)
| Function (h : Hook).

Definition ofHook (h : option Hook) : Property :=
  match h with
  | Some f => Function f
  | None => Undefined
  end.

Definition property (plugin : Plugin) (hookName : HookName) : Property :=
  match hookName with
  | Name => Text (name plugin)
  | OnInit => ofHook (onInit plugin)
  | OnSubscribe => ofHook (onSubscribe plugin)
  | OnUnsubscribe => ofHook (onUnsubscribe plugin)
  | OnBeforeEmit => ofHook (onBeforeEmit plugin)
  | OnAfterEmit => ofHook (onAfterEmit plugin)
  | OnError => ofHook (onError plugin)
  end.

(** [if (hook)]: a function is truthy, a string is unless empty. *)
Definition truthy (p : Property) : bool :=
  match p with
  | Undefined => false
  | Text [] => false
  | Text (_ :: _) => true
  | Function _ => true
  end.

(** [hook(...args)]: calling a value that is no function throws a
    TypeError. *)
Definition call (p : Property) (args : Args) : Outcome :=
  match p with
  | Function h => h args
  | Undefined | Text _ => Throws
  end.

(** [`Error in plugin "${plugin.name}" hook "${String(hookName)}":`] *)
Definition errorMessage (plugin : Plugin) (hookName : HookName) : JS.str :=
  JS.lit "Error in plugin " ++ [34%N] ++ name plugin ++ [34%N]
  ++ JS.lit " hook " ++ [34%N] ++ hookNameString hookName ++ [34%N]
  ++ JS.lit ":".

(** What the callback of [map] returns for one plugin. *)
Inductive Returned : Type :=
| NoValue
| APromise (p : Promise.t unit).

(** What a call of [callHook] leaves behind: the plugins whose hook
    function was entered, in order, the console, and the promise
    [callHook] returns. *)
Record Report : Type := {
  entered : list JS.str;
  console : Logger.Console;
  settled : Promise.t unit
}.

(** The callback of [plugins.map], with the console and the trace of
    calls threaded. *)
Definition callOne (hookName : HookName) (args : Args) (plugin : Plugin)
    (trace : list JS.str) (con : Logger.Console)
  : Returned * list JS.str * Logger.Console :=
  let hook := property plugin hookName in
  if truthy hook then
    let trace' :=
      match hook with
      | Function _ => trace ++ [name plugin]
      | _ => trace
      end in
    match call hook args with
    | ReturnsVoid => (NoValue, trace', con)
    | ReturnsFulfilled => (APromise (Promise.Fulfilled tt), trace', con)
    | ReturnsRejected => (APromise Promise.Rejected, trace', con)
    | ReturnsForeignFulfilled => (APromise (Promise.Fulfilled tt), trace', con)
    | ReturnsForeignRejected => (APromise Promise.Rejected, trace', con)
    | Throws => (NoValue, trace', Logger.error (errorMessage plugin hookName) con)
    end
  else (NoValue, trace, con).

(** [plugins.map(...)]: every callback runs before anything is
    awaited. *)
Fixpoint mapPlugins (hookName : HookName) (args : Args) (plugins : list Plugin)
    (trace : list JS.str) (con : Logger.Console)
  : list Returned * list JS.str * Logger.Console :=
  match plugins with
  | [] => ([], trace, con)
  | plugin :: rest =>
      let '(r, trace', con') := callOne hookName args plugin trace con in
      let '(rs, trace'', con'') := mapPlugins hookName args rest trace' con' in
      (r :: rs, trace'', con'')
  end.

(** [.filter((p) => p !== undefined)] *)
Definition definedOnly (rs : list Returned) : list (Promise.t unit) :=
  flat_map (fun r => match r with APromise p => [p] | NoValue => [] end) rs.

(** [Promise.all]: fulfilled when every promise is, rejected as soon as
    one is.  It resolves every element, so a thenable of another kind
    counts as a promise does. *)
Fixpoint promiseAll (ps : list (Promise.t unit)) : Promise.t unit :=
  match ps with
  | [] => Promise.Fulfilled tt
  | Promise.Fulfilled _ :: rest => promiseAll rest
  | Promise.Rejected :: _ => Promise.Rejected
  end.

(** [callHook]: the [await] of a rejected promise rejects the promise
    of the async function. *)
Definition callHook (plugins : list Plugin) (hookName : HookName) (args : Args)
    (con : Logger.Console) : Report :=
  let '(results, trace, con') := mapPlugins hookName args plugins [] con in
  let hookPromises := definedOnly results in
  {| entered := trace; console := con'; settled := promiseAll hookPromises |}.

(** *** Words for the properties *)

(** The plugin has a function under the hook name. *)
Definition hasHook (hookName : HookName) (plugin : Plugin) : bool :=
  match property plugin hookName with
  | Function _ => true
  | _ => false
  end.

(** The call made for the plugin throws: its hook throws, or the
    value under the hook name is a non-empty string. *)
Definition throws (hookName : HookName) (args : Args) (plugin : Plugin) : bool :=
  truthy (property plugin hookName)
  && match call (property plugin hookName) args with
     | Throws => true
     | _ => false
     end.

(** The hook of the plugin returns a promise, or another thenable,
    that is rejected. *)
Definition rejects (hookName : HookName) (args : Args) (plugin : Plugin) : bool :=
  match property plugin hookName with
  | Function h =>
      match h args with
      | ReturnsRejected | ReturnsForeignRejected => true
      | _ => false
      end
  | _ => false
  end.

End Manager.
End PluginManager.

(* ================================================================= *)
(** ** More sample values *)

Module MoreExamples.
Import Types Examples.

(** A plugin with only [onInit], by what the hook does. *)
Definition pluginWith (n : JS.str) (h : PluginManager.Hook unit)
  : PluginManager.Plugin unit :=
  {| PluginManager.name := n;
     PluginManager.onInit := Some h;
     PluginManager.onSubscribe := None;
     PluginManager.onUnsubscribe := None;
     PluginManager.onBeforeEmit := None;
     PluginManager.onAfterEmit := None;
     PluginManager.onError := None |}.

Definition user : JS.str := JS.lit "user:".

(** One registration at millisecond 1000, the next at 1001. *)
Definition tickingTwo :=
  snd (ListenerStore.add pm userLogin succeeding noOptions 1001 wildcardOnly).

End MoreExamples.


Local Close Scope Z_scope.

Unset Implicit Arguments.
Unset Maximal Implicit Insertion.


(* ================================================================= *)
(** * Properties *)

(** ** Strings and maps *)

Section StringFacts.

Lemma str_eqb_eq (a b : JS.str) : JS.eqb a b = true <-> a = b.
Proof.
  revert b; induction a as [|x a IH]; intros [|y b]; simpl; split;
    try congruence; try reflexivity.
  - intros H. apply andb_true_iff in H as [Hx Hab].
    apply N.eqb_eq in Hx. apply IH in Hab. congruence.
  - intros H. injection H as -> ->.
    rewrite N.eqb_refl. simpl. now apply IH.
Qed.

Lemma str_eqb_refl (a : JS.str) : JS.eqb a a = true.
Proof. now apply str_eqb_eq. Qed.

Lemma str_eqb_neq (a b : JS.str) : JS.eqb a b = false <-> a <> b.
Proof.
  rewrite <- str_eqb_eq. destruct (JS.eqb a b); split; intros; congruence.
Qed.

Lemma str_eqb_spec (a b : JS.str) : reflect (a = b) (JS.eqb a b).
Proof.
  destruct (JS.eqb a b) eqn:E; constructor.
  - now apply str_eqb_eq.
  - now apply str_eqb_neq.
Qed.

Lemma str_eqb_sym (a b : JS.str) : JS.eqb a b = JS.eqb b a.
Proof.
  destruct (str_eqb_spec a b) as [->|H].
  - now rewrite str_eqb_refl.
  - symmetry. apply str_eqb_neq. congruence.
Qed.

End StringFacts.

Section MapFacts.
Variable V : Type.
Implicit Types (m : JSMap.t V) (k : JS.str) (v : V).

Lemma get_In k v m : JSMap.get k m = Some v -> In (k, v) m.
Proof.
  induction m as [|[k' v'] m IH]; simpl; [discriminate|].
  destruct (str_eqb_spec k k') as [->|Hk].
  - intros [= ->]. now left.
  - intros H. right. now apply IH.
Qed.

Lemma In_get k v m :
  NoDup (JSMap.keys m) -> In (k, v) m -> JSMap.get k m = Some v.
Proof.
  induction m as [|[k' v'] m IH]; simpl; [easy|].
  intros Hnd [Heq|Hin].
  - injection Heq as -> ->. now rewrite str_eqb_refl.
  - inversion Hnd as [|? ? Hk' Hnd']; subst.
    destruct (str_eqb_spec k k') as [->|Hk].
    + exfalso. apply Hk'. change k' with (fst (k', v)). now apply in_map.
    + now apply IH.
Qed.

Lemma get_None k m : JSMap.get k m = None <-> ~ In k (JSMap.keys m).
Proof.
  induction m as [|[k' v'] m IH]; simpl.
  - split; [intros _ []|reflexivity].
  - destruct (str_eqb_spec k k') as [->|Hk].
    + split; [discriminate|]. intros H. exfalso. apply H. now left.
    + rewrite IH. split.
      * intros H [E|Hin]; [congruence|easy].
      * intros H Hin. apply H. now right.
Qed.

(** [set] with the value already bound changes nothing. *)
Lemma set_same k v m : JSMap.get k m = Some v -> JSMap.set k v m = m.
Proof.
  induction m as [|[k' v'] m IH]; simpl; [discriminate|].
  destruct (str_eqb_spec k k') as [->|Hk].
  - now intros [= ->].
  - intros H. now rewrite IH.
Qed.

(** [delete] of an unbound key changes nothing. *)
Lemma delete_absent k m : JSMap.get k m = None -> JSMap.delete k m = m.
Proof.
  induction m as [|[k' v'] m IH]; simpl; [reflexivity|].
  destruct (str_eqb_spec k k') as [->|Hk]; [discriminate|].
  intros H. simpl. now rewrite IH.
Qed.

Lemma In_set k v m k' v' :
  In (k', v') (JSMap.set k v m) -> (k' = k /\ v' = v) \/ In (k', v') m.
Proof.
  induction m as [|[k0 v0] m IH]; simpl.
  - intros [[= <- <-]|[]]. now left.
  - destruct (str_eqb_spec k k0) as [->|Hk]; simpl.
    + intros [[= <- <-]|H]; [now left|now right; right].
    + intros [H|H]; [now right; left|].
      destruct (IH H) as [?|?]; [now left|now right; right].
Qed.

Lemma keys_set k v m :
  JSMap.keys (JSMap.set k v m)
  = match JSMap.get k m with
    | Some _ => JSMap.keys m
    | None => JSMap.keys m ++ [k]
    end.
Proof.
  induction m as [|[k0 v0] m IH]; simpl; [reflexivity|].
  destruct (str_eqb_spec k k0) as [->|Hk]; simpl; [reflexivity|].
  rewrite IH. now destruct (JSMap.get k m).
Qed.

Lemma NoDup_keys_set k v m :
  NoDup (JSMap.keys m) -> NoDup (JSMap.keys (JSMap.set k v m)).
Proof.
  intros Hnd. rewrite keys_set.
  destruct (JSMap.get k m) eqn:E; [assumption|].
  apply get_None in E.
  apply NoDup_app; [assumption|repeat constructor; easy|].
  intros a Ha [<-|[]]. easy.
Qed.

Lemma In_delete k m k' v' :
  In (k', v') (JSMap.delete k m) <-> In (k', v') m /\ k' <> k.
Proof.
  unfold JSMap.delete. rewrite filter_In. simpl.
  rewrite negb_true_iff, str_eqb_neq. intuition congruence.
Qed.

Lemma keys_delete k m :
  JSMap.keys (JSMap.delete k m)
  = filter (fun k' => negb (JS.eqb k k')) (JSMap.keys m).
Proof.
  induction m as [|[k0 v0] m IH]; simpl; [reflexivity|].
  destruct (JS.eqb k k0); simpl; now rewrite IH.
Qed.

Lemma NoDup_keys_delete k m :
  NoDup (JSMap.keys m) -> NoDup (JSMap.keys (JSMap.delete k m)).
Proof. intros H. rewrite keys_delete. now apply NoDup_filter. Qed.

Lemma get_delete k m : JSMap.get k (JSMap.delete k m) = None.
Proof.
  apply get_None. rewrite keys_delete, filter_In, str_eqb_refl. simpl. easy.
Qed.

(** With unique keys a binding splits the map in a unique way. *)
Lemma set_split k v v0 (pre post : JSMap.t V) :
  ~ In k (JSMap.keys pre) ->
  JSMap.set k v (pre ++ (k, v0) :: post) = pre ++ (k, v) :: post.
Proof.
  induction pre as [|[k' v'] pre IH]; simpl.
  - now rewrite str_eqb_refl.
  - intros H. destruct (str_eqb_spec k k') as [->|Hk].
    + exfalso. apply H. now left.
    + rewrite IH; [reflexivity|]. intros Hin. apply H. now right.
Qed.

Lemma delete_split k v0 (pre post : JSMap.t V) :
  ~ In k (JSMap.keys pre) -> ~ In k (JSMap.keys post) ->
  JSMap.delete k (pre ++ (k, v0) :: post) = pre ++ post.
Proof.
  intros Hpre Hpost. unfold JSMap.delete.
  rewrite filter_app. simpl. rewrite str_eqb_refl. simpl.
  f_equal; apply (delete_absent k); now apply get_None.
Qed.

End MapFacts.

(** ** Sorting *)

Section SortFacts.
Variable A : Type.
Variable cmp : A -> A -> Z.

Lemma insert_perm (x : A) (l : list A) : Permutation (JS.insert cmp x l) (x :: l).
Proof.
  induction l as [|y l IH]; simpl; [reflexivity|].
  destruct (cmp x y <=? 0)%Z; [reflexivity|].
  rewrite IH. apply perm_swap.
Qed.

Lemma sort_perm (l : list A) : Permutation (JS.sort cmp l) l.
Proof.
  induction l as [|x l IH]; simpl; [reflexivity|].
  rewrite insert_perm. now constructor.
Qed.

Lemma sort_In (l : list A) (x : A) : In x (JS.sort cmp l) <-> In x l.
Proof.
  split; apply Permutation_in; [|symmetry]; apply sort_perm.
Qed.

Lemma sort_length (l : list A) : length (JS.sort cmp l) = length l.
Proof. apply Permutation_length, sort_perm. Qed.

Lemma sort_nil_inv (l : list A) : JS.sort cmp l = [] -> l = [].
Proof.
  intros H. apply length_zero_iff_nil.
  rewrite <- sort_length, H. reflexivity.
Qed.

(** The comparator is total: of two elements one does not exceed the
    other. *)
Hypothesis cmp_total : forall a b, (0 < cmp a b -> cmp b a <= 0)%Z.

Lemma insert_sorted (x : A) (l : list A) :
  Sorted (JS.notAfter cmp) l -> Sorted (JS.notAfter cmp) (JS.insert cmp x l).
Proof.
  unfold JS.notAfter.
  induction l as [|y l IH]; simpl; intros Hs.
  - repeat constructor.
  - destruct (Z.leb_spec (cmp x y) 0) as [Hxy|Hxy].
    + constructor; [assumption|]. now constructor.
    + inversion Hs as [|? ? Hs' Hhd]; subst.
      constructor; [now apply IH|].
      destruct l as [|z l]; simpl.
      * constructor. now apply cmp_total.
      * destruct (Z.leb_spec (cmp x z) 0).
        -- constructor. now apply cmp_total.
        -- inversion Hhd; subst. now constructor.
Qed.

Lemma sort_sorted (l : list A) : Sorted (JS.notAfter cmp) (JS.sort cmp l).
Proof.
  induction l as [|x l IH]; simpl; [constructor|].
  now apply insert_sorted.
Qed.

(** The sort is stable: the elements the comparator cannot tell apart
    keep their order.  Written with filters: what is left of the
    sorted list when one keeps the elements equivalent to [z] is what
    is left of the input. *)
Hypothesis cmp_equiv :
  forall z x y, cmp z x = 0%Z -> cmp z y = 0%Z -> (cmp x y <= 0)%Z.

Lemma insert_stable (z x : A) (l : list A) :
  filter (fun w => (cmp z w =? 0)%Z) (JS.insert cmp x l)
  = filter (fun w => (cmp z w =? 0)%Z) (x :: l).
Proof.
  induction l as [|y l IH]; [reflexivity|].
  simpl JS.insert. destruct (Z.leb_spec (cmp x y) 0) as [Hxy|Hxy]; [reflexivity|].
  simpl. simpl in IH. rewrite IH.
  destruct (Z.eqb_spec (cmp z x) 0) as [Hx|Hx];
    destruct (Z.eqb_spec (cmp z y) 0) as [Hy|Hy]; try reflexivity.
  pose proof (cmp_equiv z x y Hx Hy). lia.
Qed.

Lemma sort_stable (z : A) (l : list A) :
  filter (fun w => (cmp z w =? 0)%Z) (JS.sort cmp l)
  = filter (fun w => (cmp z w =? 0)%Z) l.
Proof.
  induction l as [|x l IH]; [reflexivity|].
  simpl JS.sort. rewrite insert_stable. simpl. now rewrite IH.
Qed.

End SortFacts.


(** ** The pattern matcher *)

Section MatcherFacts.
Import PatternMatcher.
Local Open Scope N_scope.

Ltac split_class E :=
  unfold isEscaped, RegExp.isSyntaxCharacter in E; simpl in E;
  repeat (apply orb_false_iff in E as [? E]).

Ltac pick_class E :=
  unfold isEscaped in E; simpl in E;
  repeat (apply orb_true_iff in E as [E|E]);
  try discriminate E; apply N.eqb_eq in E; subst.

Lemma regexPattern_cons (c : JS.char) (pattern : JS.str) :
  regexPattern (c :: pattern) = expansion c ++ regexPattern pattern.
Proof.
  unfold regexPattern, JS.replaceEach, expansion. cbn [flat_map].
  rewrite flat_map_app. f_equal.
  destruct (isEscaped c) eqn:E.
  - pick_class E; reflexivity.
  - cbn [flat_map]. now rewrite app_nil_r, (N.eqb_sym RegExp.STAR c).
Qed.

(** The parser reads an expansion back as one term, whatever follows. *)
Lemma parse_expansion (c : JS.char) (tail : JS.str) :
  RegExp.parse (expansion c ++ tail)
  = option_map
      (cons (if N.eqb c RegExp.STAR then RegExp.DotStar else RegExp.Char c))
      (RegExp.parse tail).
Proof.
  unfold expansion.
  destruct (N.eqb_spec c RegExp.STAR) as [->|Hc]; [reflexivity|].
  destruct (isEscaped c) eqn:E.
  - pick_class E; reflexivity.
  - apply N.eqb_neq in Hc. unfold RegExp.STAR in Hc.
    split_class E. simpl.
    unfold RegExp.BACKSLASH, RegExp.DOT, RegExp.CARET, RegExp.DOLLAR,
      RegExp.isSyntaxCharacter. simpl.
    repeat match goal with H : N.eqb c _ = false |- _ => rewrite H; clear H end.
    reflexivity.
Qed.

Lemma parse_regexPattern (pattern tail : JS.str) :
  RegExp.parse (regexPattern pattern ++ tail)
  = option_map (app (compile pattern)) (RegExp.parse tail).
Proof.
  induction pattern as [|c pattern IH]; simpl.
  - now destruct (RegExp.parse tail).
  - rewrite regexPattern_cons, <- app_assoc, parse_expansion, IH.
    now destruct (RegExp.parse tail).
Qed.

(** [new RegExp] never throws on what [matches] hands it: the source
    of every pattern parses, to the compiled terms between the two
    anchors. *)
Lemma parse_regexSource (pattern : JS.str) :
  RegExp.parse (regexSource pattern)
  = Some (RegExp.Start :: compile pattern ++ [RegExp.End_]).
Proof.
  unfold regexSource.
  change ([RegExp.CARET] ++ regexPattern pattern ++ [RegExp.DOLLAR])
    with (RegExp.CARET :: (regexPattern pattern ++ [RegExp.DOLLAR])).
  change (RegExp.parse (RegExp.CARET :: ?s))
    with (option_map (cons RegExp.Start) (RegExp.parse s)).
  now rewrite parse_regexPattern.
Qed.

Lemma matchHere_DotStar (r : RegExp.t) (atStart : bool) (s : JS.str) :
  RegExp.matchHere (RegExp.DotStar :: r) atStart s
  = RegExp.matchHere r atStart s
    || match s with
       | x :: s' =>
           negb (RegExp.isLineTerminator x)
           && RegExp.matchHere (RegExp.DotStar :: r) false s'
       | [] => false
       end.
Proof. destruct s; reflexivity. Qed.

(** An anchored regex is tried at index 0 only. *)
Lemma searchFrom_Start_later (r : RegExp.t) (s : JS.str) :
  RegExp.searchFrom (RegExp.Start :: r) false s = false.
Proof. induction s as [|x s IH]; simpl; [reflexivity|exact IH]. Qed.

Lemma test_anchored (r : RegExp.t) (s : JS.str) :
  RegExp.test (RegExp.Start :: r) s = RegExp.matchHere r true s.
Proof.
  unfold RegExp.test. destruct s as [|x s]; simpl.
  - now rewrite orb_false_r.
  - fold (RegExp.searchFrom (RegExp.Start :: r) false s).
    now rewrite searchFrom_Start_later, orb_false_r.
Qed.

Lemma Glob_nil_inv any (event : JS.str) : Glob any [] event -> event = [].
Proof. now inversion 1. Qed.

Lemma Glob_char_inv any (c : JS.char) (pattern event : JS.str) :
  c <> RegExp.STAR ->
  Glob any (c :: pattern) event ->
  exists event', event = c :: event' /\ Glob any pattern event'.
Proof. intros Hc H. inversion H; subst; try congruence. eauto. Qed.

(** The compiled terms up to the end anchor accept exactly the event
    names the pattern stands for when the wildcard skips no line
    terminator. *)
Lemma matchHere_compile (pattern : JS.str) :
  forall (atStart : bool) (event : JS.str),
    RegExp.matchHere (compile pattern ++ [RegExp.End_]) atStart event = true
    <-> Glob notLineTerminator pattern event.
Proof.
  induction pattern as [|c pattern IH]; intros atStart event.
  - simpl. destruct event; split; try discriminate; try constructor.
    intros H. apply Glob_nil_inv in H. discriminate.
  - simpl compile. destruct (N.eqb_spec c RegExp.STAR) as [->|Hc].
    + change ((RegExp.DotStar :: compile pattern) ++ [RegExp.End_])
        with (RegExp.DotStar :: (compile pattern ++ [RegExp.End_])).
      revert atStart.
      induction event as [|x event IHe]; intros atStart;
        rewrite matchHere_DotStar.
      * rewrite orb_false_r, IH. split; [apply Glob_star_none|].
        intros H. now inversion H; subst.
      * rewrite orb_true_iff, andb_true_iff, IH, IHe. split.
        -- intros [H|[Hx H]];
             [now apply Glob_star_none|now apply Glob_star_more].
        -- intros H. inversion H; subst; try congruence; auto.
    + simpl. destruct event as [|x event].
      * split; [discriminate|]. intros H.
        apply Glob_char_inv in H as (? & ? & _); [discriminate|assumption].
      * rewrite andb_true_iff, N.eqb_eq, IH. split.
        -- intros [-> H]. now constructor.
        -- intros H. apply Glob_char_inv in H as (? & [= -> ->] & H); auto.
Qed.

(** What [matches] computes, rule by rule. *)
Lemma matches_spec (pattern event : JS.str) :
  matchesImpl pattern event = true
  <-> pattern = [RegExp.STAR] \/ pattern = event
      \/ Glob notLineTerminator pattern event.
Proof.
  unfold matchesImpl.
  destruct (str_eqb_spec pattern [RegExp.STAR]) as [->|Hstar]; [tauto|].
  destruct (str_eqb_spec pattern event) as [->|Hne]; [tauto|].
  rewrite parse_regexSource, test_anchored, matchHere_compile. tauto.
Qed.

Lemma Glob_weaken (any any' : JS.char -> bool) (pattern event : JS.str) :
  (forall x, In x event -> any x = true -> any' x = true) ->
  Glob any pattern event -> Glob any' pattern event.
Proof.
  intros Hsub H. induction H.
  - constructor.
  - constructor; [assumption|]. apply IHGlob. intros; apply Hsub; simpl; auto.
  - apply Glob_star_none. now apply IHGlob.
  - apply Glob_star_more.
    + apply Hsub; simpl; auto.
    + apply IHGlob. intros; apply Hsub; simpl; auto.
Qed.

Lemma Glob_star_all (any : JS.char -> bool) (event : JS.str) :
  (forall x, In x event -> any x = true) -> Glob any [RegExp.STAR] event.
Proof.
  induction event as [|x event IH]; intros H.
  - apply Glob_star_none. constructor.
  - apply Glob_star_more; [apply H; now left|].
    apply IH. intros; apply H; now right.
Qed.

Lemma Glob_refl (any : JS.char -> bool) (pattern : JS.str) :
  (forall x, In x pattern -> any x = true) -> Glob any pattern pattern.
Proof.
  induction pattern as [|c pattern IH]; intros H; [constructor|].
  assert (Glob any pattern pattern) as Hp by (apply IH; intros; apply H; now right).
  destruct (N.eq_dec c RegExp.STAR) as [->|Hc].
  - apply Glob_star_more; [apply H; now left|]. now apply Glob_star_none.
  - now constructor.
Qed.

(** On event names without line terminators [matches] is wildcard
    matching as the specification words it. *)
Lemma matches_Glob (pattern event : JS.str) :
  (forall x, In x event -> RegExp.isLineTerminator x = false) ->
  (matchesImpl pattern event = true <-> Glob anyChar pattern event).
Proof.
  intros Hlt.
  assert (forall x, In x event -> notLineTerminator x = true) as Hnl.
  { intros x Hx. unfold notLineTerminator. now rewrite (Hlt x Hx). }
  rewrite matches_spec. split.
  - intros [->|[->|H]].
    + now apply Glob_star_all.
    + now apply Glob_refl.
    + revert H. now apply Glob_weaken.
  - intros H. right; right. revert H. apply Glob_weaken. auto.
Qed.

Lemma matches_star (event : JS.str) : matchesImpl [RegExp.STAR] event = true.
Proof. reflexivity. Qed.

Lemma matches_refl (pattern : JS.str) : matchesImpl pattern pattern = true.
Proof. apply matches_spec. auto. Qed.

Lemma hasWildcard_In (pattern : JS.str) :
  hasWildcardImpl pattern = true <-> In RegExp.STAR pattern.
Proof.
  unfold hasWildcardImpl, JS.includes. rewrite existsb_exists. split.
  - intros (x & Hx & E). apply N.eqb_eq in E. now subst.
  - intros H. exists RegExp.STAR. split; [assumption|apply N.eqb_refl].
Qed.

(** A pattern without the wildcard token matches its own text only. *)
Lemma Glob_literal (any : JS.char -> bool) (pattern event : JS.str) :
  ~ In RegExp.STAR pattern -> Glob any pattern event -> pattern = event.
Proof.
  intros Hno H. induction H; simpl in *.
  - reflexivity.
  - f_equal. apply IHGlob. tauto.
  - tauto.
  - tauto.
Qed.

Lemma matches_literal (pattern event : JS.str) :
  hasWildcardImpl pattern = false ->
  (matchesImpl pattern event = true <-> pattern = event).
Proof.
  intros Hw.
  assert (~ In RegExp.STAR pattern) as Hno.
  { rewrite <- hasWildcard_In. congruence. }
  rewrite matches_spec. split.
  - intros [->|[->|H]]; [exfalso; apply Hno; now left|reflexivity|].
    revert H. now apply Glob_literal.
  - auto.
Qed.

(** The cache is transparent. *)
Lemma cacheGet_cons_ok (pattern : JS.str) (regex : RegExp.t) (c : Cache) :
  RegExp.parse (regexSource pattern) = Some regex ->
  cacheOk c -> cacheOk ((pattern, regex) :: c).
Proof.
  intros Hp Hc p r. simpl.
  destruct (str_eqb_spec p pattern) as [->|Hne].
  - now intros [= <-].
  - apply Hc.
Qed.

Lemma matchesCached_sound (pattern event : JS.str) (c : Cache) :
  cacheOk c ->
  fst (matchesCached pattern event c) = Some (matchesImpl pattern event)
  /\ cacheOk (snd (matchesCached pattern event c)).
Proof.
  intros Hc. unfold matchesCached, matchesImpl.
  destruct (JS.eqb pattern [RegExp.STAR]); [now split|].
  destruct (JS.eqb pattern event); [now split|].
  destruct (cacheGet pattern c) as [regex|] eqn:E.
  - rewrite (Hc _ _ E). now split.
  - rewrite parse_regexSource. split; [reflexivity|].
    apply cacheGet_cons_ok; [apply parse_regexSource|assumption].
Qed.

End MatcherFacts.


(** ** Buckets *)

Section BucketFacts.
Variable Payload : Type.
Variable pm : PatternMatcher.Interface.
Import ListenerStore.
Implicit Types (m : Buckets Payload) (l : Listener Payload)
  (ls : list (Listener Payload)) (pat : JS.str) (keep : Listener Payload -> bool).

Lemma filter_id (A : Type) (f : A -> bool) (xs : list A) :
  (forall x, In x xs -> f x = true) -> filter f xs = xs.
Proof.
  induction xs as [|x xs IH]; simpl; intros H; [reflexivity|].
  rewrite (H x) by now left. f_equal. apply IH. intros; apply H; now right.
Qed.

Lemma filter_none (A : Type) (f : A -> bool) (xs : list A) :
  (forall x, In x xs -> f x = false) -> filter f xs = [].
Proof.
  induction xs as [|x xs IH]; simpl; intros H; [reflexivity|].
  rewrite (H x) by now left. apply IH. intros; apply H; now right.
Qed.

Lemma NoDup_map_filter (A B : Type) (g : A -> B) (f : A -> bool) (xs : list A) :
  NoDup (map g xs) -> NoDup (map g (filter f xs)).
Proof.
  induction xs as [|x xs IH]; simpl; intros H; [constructor|].
  inversion H as [|? ? Hx Hnd]; subst.
  destruct (f x); simpl; [|now apply IH].
  constructor; [|now apply IH].
  intros Hin. apply Hx. apply in_map_iff in Hin as (y & <- & Hy).
  apply filter_In in Hy as [Hy _]. now apply in_map.
Qed.

Lemma listenersOf_app m1 m2 :
  listenersOf (m1 ++ m2) = listenersOf m1 ++ listenersOf m2.
Proof. apply flat_map_app. Qed.

Lemma In_listenersOf l m :
  In l (listenersOf m) <-> exists pat ls, In (pat, ls) m /\ In l ls.
Proof.
  unfold listenersOf. rewrite in_flat_map. split.
  - intros ([pat ls] & H1 & H2). now exists pat, ls.
  - intros (pat & ls & H1 & H2). now exists (pat, ls).
Qed.

Lemma bucket_split (V : Type) (k : JS.str) (v : V) (m : JSMap.t V) :
  NoDup (JSMap.keys m) -> In (k, v) m ->
  exists pre post,
    m = pre ++ (k, v) :: post
    /\ ~ In k (JSMap.keys pre) /\ ~ In k (JSMap.keys post).
Proof.
  intros Hnd Hin. apply in_split in Hin as (pre & post & ->).
  exists pre, post. split; [reflexivity|].
  unfold JSMap.keys in *. rewrite map_app in Hnd. simpl in Hnd.
  apply NoDup_remove_2 in Hnd. rewrite in_app_iff in Hnd. tauto.
Qed.

(** *** [prune] *)

Lemma prune_app keep m1 m2 :
  prune keep (m1 ++ m2) = prune keep m1 ++ prune keep m2.
Proof. apply flat_map_app. Qed.

Lemma prune_cons keep pat ls m :
  prune keep ((pat, ls) :: m)
  = match filter keep ls with
    | [] => []
    | updated => [(pat, updated)]
    end ++ prune keep m.
Proof. reflexivity. Qed.

Lemma listenersOf_prune keep m :
  listenersOf (prune keep m) = filter keep (listenersOf m).
Proof.
  induction m as [|[pat ls] m IH]; [reflexivity|].
  rewrite prune_cons, listenersOf_app, IH.
  change (listenersOf ((pat, ls) :: m)) with (ls ++ listenersOf m).
  rewrite filter_app. f_equal.
  destruct (filter keep ls); [reflexivity|]. simpl. now rewrite app_nil_r.
Qed.

Lemma In_prune keep m pat ls' :
  In (pat, ls') (prune keep m)
  <-> exists ls, In (pat, ls) m /\ ls' = filter keep ls /\ ls' <> [].
Proof.
  unfold prune. rewrite in_flat_map. split.
  - intros ([k ls] & Hin & H). simpl in H.
    destruct (filter keep ls) eqn:E; [easy|].
    destruct H as [[= <- <-]|[]]. exists ls. now rewrite E.
  - intros (ls & Hin & -> & Hne). exists (pat, ls). split; [assumption|].
    simpl. destruct (filter keep ls); [easy|now left].
Qed.

Lemma keys_prune_incl keep m k :
  In k (JSMap.keys (prune keep m)) -> In k (JSMap.keys m).
Proof.
  unfold JSMap.keys. rewrite !in_map_iff.
  intros ([k' ls'] & <- & Hin). apply In_prune in Hin as (ls & Hin & _).
  now exists (k', ls).
Qed.

Lemma NoDup_keys_prune keep m :
  NoDup (JSMap.keys m) -> NoDup (JSMap.keys (prune keep m)).
Proof.
  induction m as [|[pat ls] m IH]; intros H; [constructor|].
  change (JSMap.keys ((pat, ls) :: m)) with (pat :: JSMap.keys m) in H.
  inversion H as [|? ? Hpat Hnd]; subst.
  rewrite prune_cons. destruct (filter keep ls); simpl; [now apply IH|].
  constructor; [|now apply IH].
  intros Hin. apply Hpat. revert Hin. apply keys_prune_incl.
Qed.

Lemma bucketsOk_prune wild keep m :
  bucketsOk pm wild m -> bucketsOk pm wild (prune keep m).
Proof.
  intros [Hnd Hok]. split; [now apply NoDup_keys_prune|].
  intros pat ls' Hin. apply In_prune in Hin as (ls & Hin & -> & Hne).
  destruct (Hok _ _ Hin) as (_ & Hw & Hpat).
  repeat split; try assumption.
  intros l Hl. apply filter_In in Hl as [Hl _]. now apply Hpat.
Qed.

Lemma prune_id keep m :
  (forall pat ls, In (pat, ls) m -> ls <> []) ->
  (forall l, In l (listenersOf m) -> keep l = true) ->
  prune keep m = m.
Proof.
  induction m as [|[pat ls] m IH]; intros Hne Hkeep; [reflexivity|].
  rewrite prune_cons, IH.
  - rewrite filter_id.
    + destruct ls; [|reflexivity].
      exfalso. apply (Hne pat []); [now left|reflexivity].
    + intros l Hl. apply Hkeep. simpl. apply in_or_app. now left.
  - intros; eapply Hne; right; eassumption.
  - intros l Hl. apply Hkeep. simpl. apply in_or_app. now right.
Qed.

Lemma prune_ext keep keep' m :
  (forall l, In l (listenersOf m) -> keep l = keep' l) ->
  prune keep m = prune keep' m.
Proof.
  induction m as [|[pat ls] m IH]; intros H; [reflexivity|].
  rewrite !prune_cons, IH.
  - f_equal. rewrite (filter_ext_in keep keep'); [reflexivity|].
    intros l Hl. apply H. simpl. apply in_or_app. now left.
  - intros l Hl. apply H. simpl. apply in_or_app. now right.
Qed.

(** *** The removals are prunings *)

Lemma deleteOrSet_split pat ls updated (pre post : Buckets Payload) :
  ~ In pat (JSMap.keys pre) -> ~ In pat (JSMap.keys post) ->
  deleteOrSet pat updated (pre ++ (pat, ls) :: post)
  = pre ++ match updated with
           | [] => []
           | kept => [(pat, kept)]
           end ++ post.
Proof.
  intros Hpre Hpost. unfold deleteOrSet.
  destruct updated as [|u updated]; simpl.
  - now apply delete_split.
  - now apply set_split.
Qed.

Lemma bucketsOk_nonempty wild m pat ls :
  bucketsOk pm wild m -> In (pat, ls) m -> ls <> [].
Proof. intros [_ H] Hin. now apply (H _ _ Hin). Qed.

Lemma bucketsOk_pattern wild m l :
  bucketsOk pm wild m -> In l (listenersOf m) ->
  exists ls, In (pattern l, ls) m /\ In l ls.
Proof.
  intros [_ H] Hin. apply In_listenersOf in Hin as (pat & ls & Hin & Hl).
  destruct (H _ _ Hin) as (_ & _ & Hp). rewrite (Hp l Hl). now exists ls.
Qed.

Lemma bucketsOk_side wild m l :
  bucketsOk pm wild m -> In l (listenersOf m) ->
  PatternMatcher.hasWildcard pm (pattern l) = wild.
Proof.
  intros Hok Hin. destruct (bucketsOk_pattern _ _ _ Hok Hin) as (ls & Hin' & _).
  destruct Hok as [_ H]. now apply (H _ _ Hin').
Qed.

Lemma bucketsOk_app_inv wild (m1 m2 : Buckets Payload) :
  bucketsOk pm wild (m1 ++ m2) -> bucketsOk pm wild m1 /\ bucketsOk pm wild m2.
Proof.
  intros [Hnd H]. unfold JSMap.keys in Hnd. rewrite map_app in Hnd.
  split; (split; [|intros pat ls Hin; apply H, in_or_app; auto]).
  - eapply NoDup_app_remove_r; eassumption.
  - eapply NoDup_app_remove_l; eassumption.
Qed.

(** Listeners under other keys have other patterns. *)
Lemma other_keys_other_patterns wild m pat l :
  bucketsOk pm wild m -> ~ In pat (JSMap.keys m) ->
  In l (listenersOf m) -> JS.eqb (pattern l) pat = false.
Proof.
  intros Hok Hpat Hl. apply str_eqb_neq. intros <-.
  destruct (bucketsOk_pattern _ _ _ Hok Hl) as (ls & Hin & _).
  apply Hpat. unfold JSMap.keys. apply in_map_iff. now exists (pattern l, ls).
Qed.

Lemma prune_under_key wild m pat keep keep' :
  bucketsOk pm wild m ->
  (forall l, pattern l = pat -> keep l = keep' l) ->
  (forall l, pattern l <> pat -> keep l = true) ->
  prune keep m
  = match JSMap.get pat m with
    | Some ls => deleteOrSet pat (filter keep' ls) m
    | None => m
    end.
Proof.
  intros Hok Hsame Hother.
  destruct (JSMap.get pat m) as [ls|] eqn:E.
  - apply get_In in E.
    destruct (bucket_split _ _ _ _ (proj1 Hok) E) as (pre & post & -> & Hpre & Hpost).
    rewrite deleteOrSet_split by assumption.
    apply bucketsOk_app_inv in Hok as [Hok1 Hok2].
    change ((pat, ls) :: post) with ([(pat, ls)] ++ post) in Hok2.
    apply bucketsOk_app_inv in Hok2 as [Hok2 Hok3].
    rewrite prune_app, prune_cons.
    rewrite (prune_id keep pre), (prune_id keep post).
    + f_equal. f_equal.
      rewrite (filter_ext_in keep keep'); [now destruct (filter keep' ls)|].
      intros l Hl. apply Hsame.
      destruct Hok2 as [_ H2]. apply (H2 pat ls); [now left|assumption].
    + intros ? ? Hin. exact (bucketsOk_nonempty _ _ _ _ Hok3 Hin).
    + intros l Hl. apply Hother, str_eqb_neq.
      exact (other_keys_other_patterns _ _ _ _ Hok3 Hpost Hl).
    + intros ? ? Hin. exact (bucketsOk_nonempty _ _ _ _ Hok1 Hin).
    + intros l Hl. apply Hother, str_eqb_neq.
      exact (other_keys_other_patterns _ _ _ _ Hok1 Hpre Hl).
  - apply prune_id.
    + intros; eapply bucketsOk_nonempty; eassumption.
    + intros l Hl. apply Hother. apply str_eqb_neq.
      apply get_None in E. eapply other_keys_other_patterns; eassumption.
Qed.

(** The map step of [remove]. *)
Lemma remove_prune wild m pat listenerId :
  bucketsOk pm wild m ->
  deleteOrSet pat (withoutId listenerId (Types.orElse (JSMap.get pat m) [])) m
  = prune (fun l => negb (JS.eqb (pattern l) pat && hasId listenerId l)) m.
Proof.
  intros Hok.
  rewrite (prune_under_key _ _ pat _ (fun l => negb (hasId listenerId l)) Hok).
  - destruct (JSMap.get pat m) eqn:E; simpl; [reflexivity|].
    unfold deleteOrSet. simpl. now apply delete_absent.
  - intros l <-. now rewrite str_eqb_refl.
  - intros l Hl. apply str_eqb_neq in Hl. now rewrite Hl.
Qed.

(** The map step of [removeAll(event)]. *)
Lemma delete_prune wild m ev :
  bucketsOk pm wild m ->
  JSMap.delete ev m = prune (fun l => negb (JS.eqb (pattern l) ev)) m.
Proof.
  intros Hok.
  rewrite (prune_under_key _ _ ev _ (fun _ => false) Hok).
  - destruct (JSMap.get ev m) as [ls|] eqn:E.
    + rewrite filter_none by reflexivity. reflexivity.
    + now apply delete_absent.
  - intros l <-. now rewrite str_eqb_refl.
  - intros l Hl. apply str_eqb_neq in Hl. now rewrite Hl.
Qed.

End BucketFacts.


Section BucketOps.
Variable Payload : Type.
Variable pm : PatternMatcher.Interface.
Import ListenerStore.
Implicit Types (m : Buckets Payload) (l : Listener Payload)
  (ls : list (Listener Payload)) (pat : JS.str) (keep : Listener Payload -> bool).

Lemma NoDup_app_disjoint (A : Type) (xs ys : list A) (x : A) :
  NoDup (xs ++ ys) -> In x xs -> In x ys -> False.
Proof.
  induction xs as [|a xs IH]; simpl; [easy|].
  intros H [->|Hx] Hy; inversion H as [|? ? Ha Hnd]; subst.
  - apply Ha, in_or_app. now right.
  - now apply IH.
Qed.

Lemma filter_length_eq (A : Type) (f : A -> bool) (xs : list A) :
  length (filter f xs) = length xs -> filter f xs = xs.
Proof.
  induction xs as [|x xs IH]; simpl; [reflexivity|].
  destruct (f x); simpl; intros H.
  - f_equal. apply IH. lia.
  - pose proof (filter_length_le f xs). lia.
Qed.

Lemma keys_split_fresh (pre post : Buckets Payload) pat ls :
  NoDup (JSMap.keys (pre ++ (pat, ls) :: post)) ->
  ~ In pat (JSMap.keys pre) /\ ~ In pat (JSMap.keys post).
Proof.
  unfold JSMap.keys. rewrite map_app. simpl. intros H.
  apply NoDup_remove_2 in H. rewrite in_app_iff in H. tauto.
Qed.

Lemma ids_app ls1 ls2 : ids (ls1 ++ ls2) = ids ls1 ++ ids ls2.
Proof. apply map_app. Qed.

Lemma hasId_true listenerId l : hasId listenerId l = true <-> id l = listenerId.
Proof. apply Nat.eqb_eq. Qed.

Lemma hasId_false listenerId l : hasId listenerId l = false <-> id l <> listenerId.
Proof. apply Nat.eqb_neq. Qed.

Lemma In_ids listenerId ls :
  In listenerId (ids ls) <-> exists l, In l ls /\ id l = listenerId.
Proof.
  unfold ids. rewrite in_map_iff. split; intros (l & H1 & H2); exists l; tauto.
Qed.

Lemma existsb_hasId listenerId ls :
  existsb (hasId listenerId) ls = true <-> In listenerId (ids ls).
Proof.
  rewrite existsb_exists, In_ids.
  split; intros (l & H1 & H2); exists l; split; try assumption;
    now apply hasId_true.
Qed.

(** *** [removeListenerById] *)

Lemma removeListenerByIdFrom_prune wild listenerId :
  forall (entries pre : Buckets Payload),
    bucketsOk pm wild (pre ++ entries) ->
    NoDup (ids (listenersOf (pre ++ entries))) ->
    ~ In listenerId (ids (listenersOf pre)) ->
    snd (removeListenerByIdFrom entries (pre ++ entries) listenerId)
    = prune (fun l => negb (hasId listenerId l)) (pre ++ entries)
    /\ (fst (removeListenerByIdFrom entries (pre ++ entries) listenerId) = None
        <-> ~ In listenerId (ids (listenersOf entries))).
Proof.
  induction entries as [|[pat ls] rest IH]; intros pre Hok Hnd Hpre.
  - simpl. split; [|tauto]. symmetry. apply prune_id.
    + intros ? ? Hin. exact (bucketsOk_nonempty _ _ _ _ _ _ Hok Hin).
    + intros l Hl. rewrite app_nil_r in Hl. apply negb_true_iff, hasId_false.
      intros E. apply Hpre, In_ids. now exists l.
  - simpl removeListenerByIdFrom.
    destruct (existsb (hasId listenerId) ls) eqn:E.
    + simpl. apply existsb_hasId in E.
      destruct (keys_split_fresh _ _ _ _ (proj1 Hok)) as [Hk1 Hk2].
      rewrite deleteOrSet_split by assumption.
      assert (~ In listenerId (ids (listenersOf rest))) as Hrest.
      { intros Hin. rewrite listenersOf_app, ids_app in Hnd.
        apply NoDup_app_remove_l in Hnd.
        change (listenersOf ((pat, ls) :: rest)) with (ls ++ listenersOf rest) in Hnd.
        rewrite ids_app in Hnd. exact (NoDup_app_disjoint _ _ _ _ Hnd E Hin). }
      split.
      * rewrite prune_app, prune_cons.
        apply bucketsOk_app_inv in Hok as [Hok1 Hok2].
        change ((pat, ls) :: rest) with ([(pat, ls)] ++ rest) in Hok2.
        apply bucketsOk_app_inv in Hok2 as [_ Hok3].
        rewrite (prune_id _ _ pre), (prune_id _ _ rest).
        -- unfold withoutId.
           now destruct (filter (fun l => negb (hasId listenerId l)) ls).
        -- intros ? ? Hin. exact (bucketsOk_nonempty _ _ _ _ _ _ Hok3 Hin).
        -- intros l Hl. apply negb_true_iff, hasId_false.
           intros Eq. apply Hrest, In_ids. now exists l.
        -- intros ? ? Hin. exact (bucketsOk_nonempty _ _ _ _ _ _ Hok1 Hin).
        -- intros l Hl. apply negb_true_iff, hasId_false.
           intros Eq. apply Hpre, In_ids. now exists l.
      * split; [discriminate|]. intros H. exfalso. apply H.
        change (listenersOf ((pat, ls) :: rest)) with (ls ++ listenersOf rest).
        rewrite ids_app. apply in_or_app. now left.
    + assert (~ In listenerId (ids ls)) as Hls.
      { rewrite <- existsb_hasId. congruence. }
      change (pre ++ (pat, ls) :: rest) with (pre ++ [(pat, ls)] ++ rest) in *.
      rewrite app_assoc in *.
      destruct (IH (pre ++ [(pat, ls)]) Hok Hnd) as [H1 H2].
      * rewrite listenersOf_app, ids_app, in_app_iff. simpl.
        rewrite app_nil_r. tauto.
      * split; [exact H1|]. rewrite H2.
        change (listenersOf ((pat, ls) :: rest)) with (ls ++ listenersOf rest).
        rewrite ids_app, in_app_iff. tauto.
Qed.

Lemma removeListenerById_prune wild listenerId m :
  bucketsOk pm wild m ->
  NoDup (ids (listenersOf m)) ->
  snd (removeListenerById m listenerId)
  = prune (fun l => negb (hasId listenerId l)) m
  /\ (fst (removeListenerById m listenerId) = None
      <-> ~ In listenerId (ids (listenersOf m))).
Proof.
  intros Hok Hnd.
  apply (removeListenerByIdFrom_prune wild listenerId m []); simpl; auto.
Qed.

(** *** [removeMarkedFromMap] *)

Lemma removeMarkedFromMap_from marked :
  forall (entries pre : Buckets Payload),
    NoDup (JSMap.keys (pre ++ entries)) ->
    fold_left (removeMarkedStep marked) entries
      (prune (fun l => negb (JSSet.has (id l) marked)) pre ++ entries)
    = prune (fun l => negb (JSSet.has (id l) marked)) (pre ++ entries).
Proof.
  set (keep := fun l : Listener Payload => negb (JSSet.has (id l) marked)).
  induction entries as [|[pat ls] rest IH]; intros pre Hnd.
  - simpl. now rewrite !app_nil_r.
  - destruct (keys_split_fresh _ _ _ _ Hnd) as [Hk1 Hk2].
    assert (~ In pat (JSMap.keys (prune keep pre))) as Hk1'.
    { intros H. apply Hk1. revert H. apply keys_prune_incl. }
    change (pre ++ (pat, ls) :: rest) with (pre ++ [(pat, ls)] ++ rest) in *.
    rewrite app_assoc in *.
    rewrite <- (IH (pre ++ [(pat, ls)]) Hnd).
    simpl fold_left. f_equal.
    unfold removeMarkedStep. simpl fst. simpl snd. fold keep.
    rewrite prune_app.
    change (prune keep [(pat, ls)])
      with (match filter keep ls with
            | [] => []
            | updated => [(pat, updated)]
            end ++ []).
    rewrite app_nil_r.
    destruct (filter keep ls) as [|u updated] eqn:E.
    + simpl. rewrite app_nil_r. now apply delete_split.
    + change (length (u :: updated) =? 0)%nat with false. cbv iota.
      destruct (Nat.eqb_spec (length (u :: updated)) (length ls)) as [Hlen|Hlen];
        simpl negb; cbv iota.
      * rewrite <- E in Hlen. apply filter_length_eq in Hlen.
        rewrite Hlen in E. rewrite <- E, <- app_assoc. reflexivity.
      * rewrite <- app_assoc. now apply set_split.
Qed.

Lemma removeMarkedFromMap_prune marked m :
  NoDup (JSMap.keys m) ->
  removeMarkedFromMap marked m
  = prune (fun l => negb (JSSet.has (id l) marked)) m.
Proof.
  intros Hnd. exact (removeMarkedFromMap_from marked m [] Hnd).
Qed.

End BucketOps.


(** ** The store *)

Section StoreFacts.
Variable Payload : Type.
Variable pm : PatternMatcher.Interface.
Import ListenerStore.
Implicit Types (m : Buckets Payload) (l : Listener Payload) (st : State Payload)
  (ls : list (Listener Payload)) (pat : JS.str) (keep : Listener Payload -> bool).

Local Open Scope Z_scope.

Lemma withExact_same st : withExact (exactMatches st) st = st.
Proof. now destruct st. Qed.

Lemma withWildcard_same st : withWildcard (wildcardPatterns st) st = st.
Proof. now destruct st. Qed.

Lemma In_allListeners l st :
  In l (allListeners st)
  <-> In l (listenersOf (exactMatches st)) \/ In l (listenersOf (wildcardPatterns st)).
Proof. apply in_app_iff. Qed.

Lemma sameListener_refl l : sameListener l l.
Proof. repeat split. Qed.

Lemma sameListener_trans l1 l2 l3 :
  sameListener l1 l2 -> sameListener l2 l3 -> sameListener l1 l3.
Proof.
  unfold sameListener. intros (?&?&?&?&?&?) (?&?&?&?&?&?).
  repeat split; congruence.
Qed.

Lemma newerVersion_refl l : newerVersion l l.
Proof. split; [apply sameListener_refl|auto]. Qed.

Lemma newerVersion_recordExecution duration l :
  newerVersion l (recordExecution duration l).
Proof. split; [repeat split|]. simpl. lia. Qed.

(** *** Pruned states *)

Lemma isPruned_pruned keep st : isPruned keep st (pruned keep st).
Proof. now destruct st. Qed.

Lemma isPruned_all keep st st' :
  isPruned keep st st' -> allListeners st' = filter keep (allListeners st).
Proof.
  intros (He & Hw & _). unfold allListeners.
  now rewrite He, Hw, !listenersOf_prune, filter_app.
Qed.

Lemma isPruned_wf keep st st' : isPruned keep st st' -> wf pm st -> wf pm st'.
Proof.
  intros Hp [H1 H2 H3 H4 H5].
  pose proof (isPruned_all _ _ _ Hp) as Hall.
  destruct Hp as (He & Hw & Hn).
  split.
  - rewrite He. now apply bucketsOk_prune.
  - rewrite Hw. now apply bucketsOk_prune.
  - rewrite Hall. now apply NoDup_map_filter.
  - intros l Hl. rewrite Hall in Hl. apply filter_In in Hl as [Hl _].
    rewrite Hn. now apply H4.
  - intros l Hl. rewrite Hall in Hl. apply filter_In in Hl as [Hl _].
    now apply H5.
Qed.

Lemma isPruned_inherits keep st st' : isPruned keep st st' -> inherits st st'.
Proof.
  intros Hp. pose proof (isPruned_all _ _ _ Hp) as Hall.
  destruct Hp as (_ & _ & Hn). split; [lia|].
  intros l Hl. left. exists l. rewrite Hall in Hl.
  apply filter_In in Hl as [Hl _]. split; [assumption|apply sameListener_refl].
Qed.

Lemma prune_none m : prune (fun _ => false) m = [].
Proof.
  induction m as [|[pat ls] m IH]; [reflexivity|].
  rewrite prune_cons, IH, filter_none; reflexivity.
Qed.

Lemma pruned_id keep st :
  wf pm st ->
  (forall l, In l (allListeners st) -> keep l = true) ->
  pruned keep st = st.
Proof.
  intros Hwf Hkeep. unfold pruned.
  rewrite !prune_id.
  - simpl. rewrite withExact_same. apply withWildcard_same.
  - intros ? ? Hin. exact (bucketsOk_nonempty _ _ _ _ _ _ (wf_exact Hwf) Hin).
  - intros l Hl. apply Hkeep, In_allListeners. now left.
  - intros ? ? Hin. exact (bucketsOk_nonempty _ _ _ _ _ _ (wf_wildcard Hwf) Hin).
  - intros l Hl. apply Hkeep, In_allListeners. now right.
Qed.

(** A listener sits in the map [getMapForPattern] gives for its
    pattern, and in no bucket of the other map. *)
Lemma wf_side st l :
  wf pm st -> In l (allListeners st) ->
  In l (listenersOf (getMapForPattern pm (pattern l) st)).
Proof.
  intros Hwf Hl. unfold getMapForPattern. apply In_allListeners in Hl as [Hl|Hl].
  - now rewrite (bucketsOk_side _ _ _ _ _ (wf_exact Hwf) Hl).
  - now rewrite (bucketsOk_side _ _ _ _ _ (wf_wildcard Hwf) Hl).
Qed.

(** *** [remove] *)

Lemma remove_pruned pat listenerId st :
  wf pm st ->
  snd (remove pm pat listenerId st)
  = pruned (fun l => negb (JS.eqb (pattern l) pat && hasId listenerId l)) st.
Proof.
  intros Hwf. unfold remove, getMapForPattern, putMapForPattern, pruned. simpl.
  destruct (PatternMatcher.hasWildcard pm pat) eqn:Hw.
  - rewrite (remove_prune _ _ _ _ _ _ (wf_wildcard Hwf)).
    rewrite (prune_id _ _ (exactMatches st)).
    + now rewrite withExact_same.
    + intros ? ? Hin. exact (bucketsOk_nonempty _ _ _ _ _ _ (wf_exact Hwf) Hin).
    + intros l Hl.
      pose proof (bucketsOk_side _ _ _ _ _ (wf_exact Hwf) Hl) as Hs.
      destruct (str_eqb_spec (pattern l) pat) as [E|E]; [congruence|reflexivity].
  - rewrite (remove_prune _ _ _ _ _ _ (wf_exact Hwf)).
    rewrite (prune_id _ _ (wildcardPatterns st)).
    + destruct st; reflexivity.
    + intros ? ? Hin. exact (bucketsOk_nonempty _ _ _ _ _ _ (wf_wildcard Hwf) Hin).
    + intros l Hl.
      pose proof (bucketsOk_side _ _ _ _ _ (wf_wildcard Hwf) Hl) as Hs.
      destruct (str_eqb_spec (pattern l) pat) as [E|E]; [congruence|reflexivity].
Qed.

(** [remove] answers [true] exactly when the bucket of the pattern
    holds the id. *)
Lemma remove_result pat listenerId st :
  fst (remove pm pat listenerId st) = true
  <-> In listenerId
        (ids (Types.orElse (JSMap.get pat (getMapForPattern pm pat st)) [])).
Proof.
  unfold remove. simpl.
  set (existing := Types.orElse (JSMap.get pat (getMapForPattern pm pat st)) []).
  rewrite negb_true_iff, Nat.eqb_neq. unfold withoutId. split.
  - intros Hlen. apply existsb_hasId.
    destruct (existsb (hasId listenerId) existing) eqn:E; [reflexivity|].
    exfalso. apply Hlen. f_equal. apply filter_id.
    intros l Hl. apply negb_true_iff.
    destruct (hasId listenerId l) eqn:El; [|reflexivity].
    assert (existsb (hasId listenerId) existing = true) as Ht; [|congruence].
    apply existsb_exists. now exists l.
  - intros Hin Hlen. apply filter_length_eq in Hlen.
    apply In_ids in Hin as (l & Hl & <-).
    rewrite <- Hlen in Hl. apply filter_In in Hl as [_ Hl].
    apply negb_true_iff, hasId_false in Hl. congruence.
Qed.

(** *** [removeById] *)

Lemma removeById_pruned listenerId st :
  wf pm st ->
  snd (removeById listenerId st) = pruned (fun l => negb (hasId listenerId l)) st
  /\ (fst (removeById listenerId st) = None
      <-> ~ In listenerId (ids (allListeners st))).
Proof.
  intros Hwf. pose proof (wf_unique Hwf) as Hnd.
  unfold allListeners in Hnd. rewrite ids_app in Hnd.
  destruct (removeListenerById_prune _ pm false listenerId _ (wf_exact Hwf)
              (NoDup_app_remove_r _ _ Hnd)) as [He1 He2].
  destruct (removeListenerById_prune _ pm true listenerId _ (wf_wildcard Hwf)
              (NoDup_app_remove_l _ _ Hnd)) as [Hw1 Hw2].
  unfold removeById, pruned, allListeners.
  destruct (removeListenerById (exactMatches st) listenerId) as [[found|] m] eqn:E;
    simpl in He1, He2; subst m.
  - assert (In listenerId (ids (listenersOf (exactMatches st)))) as Hin.
    { destruct (in_dec Nat.eq_dec listenerId (ids (listenersOf (exactMatches st))));
        [assumption|]. apply He2 in n. discriminate. }
    simpl. split.
    + rewrite (prune_id _ _ (wildcardPatterns st)).
      * now destruct st.
      * intros ? ? Hi. exact (bucketsOk_nonempty _ _ _ _ _ _ (wf_wildcard Hwf) Hi).
      * intros l Hl. apply negb_true_iff, hasId_false. intros Eq.
        apply (NoDup_app_disjoint _ _ _ listenerId Hnd Hin).
        apply In_ids. now exists l.
    + split; [discriminate|]. rewrite ids_app, in_app_iff. tauto.
  - change (wildcardPatterns (withExact _ st)) with (wildcardPatterns st).
    destruct (removeListenerById (wildcardPatterns st) listenerId) as [r w] eqn:Ew.
    simpl in Hw1, Hw2. subst w. simpl. split; [reflexivity|].
    rewrite ids_app, in_app_iff, Hw2. tauto.
Qed.

(** *** [removeAll] *)

Lemma removeAll_pruned event st :
  wf pm st ->
  snd (removeAll event st)
  = pruned
      match event with
      | Some ev => fun l => negb (JS.eqb (pattern l) ev)
      | None => fun _ => false
      end
      st.
Proof.
  intros Hwf. unfold removeAll, pruned. destruct event as [ev|]; simpl.
  - now rewrite (delete_prune _ _ _ _ _ (wf_exact Hwf)),
      (delete_prune _ _ _ _ _ (wf_wildcard Hwf)).
  - now rewrite !prune_none.
Qed.

(** *** [removeMarked] *)

Lemma removeMarked_pruned st :
  wf pm st ->
  isPruned (fun l => negb (JSSet.has (id l) (markedForRemoval st))) st
    (removeMarked st).
Proof.
  intros Hwf. unfold removeMarked, JSSet.size.
  destruct (markedForRemoval st) as [|x marked] eqn:E.
  - simpl. unfold isPruned. rewrite !prune_id; auto.
    + intros ? ? Hin. exact (bucketsOk_nonempty _ _ _ _ _ _ (wf_wildcard Hwf) Hin).
    + intros ? ? Hin. exact (bucketsOk_nonempty _ _ _ _ _ _ (wf_exact Hwf) Hin).
  - simpl. unfold isPruned. simpl.
    rewrite !removeMarkedFromMap_prune; auto.
    + apply (wf_wildcard Hwf).
    + apply (wf_exact Hwf).
Qed.

End StoreFacts.


Section StoreFacts2.
Variable Payload : Type.
Variable pm : PatternMatcher.Interface.
Import ListenerStore.
Implicit Types (m : Buckets Payload) (l : Listener Payload) (st : State Payload)
  (ls : list (Listener Payload)) (pat : JS.str) (keep : Listener Payload -> bool).

Local Open Scope Z_scope.

(** *** [add] *)

Lemma set_absent (V : Type) (k : JS.str) (v : V) (m : JSMap.t V) :
  JSMap.get k m = None -> JSMap.set k v m = m ++ [(k, v)].
Proof.
  induction m as [|[k' v'] m IH]; simpl; [reflexivity|].
  destruct (JS.eqb k k'); [discriminate|]. intros H. now rewrite IH.
Qed.

Lemma add_bucketsOk wild m pat new :
  bucketsOk pm wild m ->
  PatternMatcher.hasWildcard pm pat = wild ->
  pattern new = pat ->
  bucketsOk pm wild
    (JSMap.set pat (sortByPriority (Types.orElse (JSMap.get pat m) [] ++ [new])) m).
Proof.
  intros [Hnd Hok] Hw Hp. split; [now apply NoDup_keys_set|].
  intros k ls Hin. apply In_set in Hin as [[-> ->]|Hin]; [|now apply Hok].
  repeat split; try assumption.
  - intros E. apply sort_nil_inv in E. now destruct (Types.orElse _ _).
  - intros l Hl. apply sort_In, in_app_iff in Hl as [Hl|[<-|[]]]; [|assumption].
    destruct (JSMap.get pat m) as [existing|] eqn:E; [|easy].
    apply get_In in E. now apply (Hok _ _ E).
Qed.

Lemma add_listenersOf m pat new :
  NoDup (JSMap.keys m) ->
  Permutation
    (listenersOf
       (JSMap.set pat (sortByPriority (Types.orElse (JSMap.get pat m) [] ++ [new])) m))
    (new :: listenersOf m).
Proof.
  intros Hnd. destruct (JSMap.get pat m) as [existing|] eqn:E; simpl Types.orElse.
  - apply get_In in E.
    destruct (bucket_split _ _ _ _ Hnd E) as (pre & post & -> & Hpre & Hpost).
    rewrite set_split by assumption.
    rewrite !listenersOf_app.
    change (listenersOf ((pat, ?x) :: post)) with (x ++ listenersOf post).
    unfold sortByPriority. rewrite sort_perm.
    rewrite <- app_assoc. simpl.
    rewrite (Permutation_app_comm existing (new :: listenersOf post)). simpl.
    rewrite <- Permutation_middle. constructor.
    apply Permutation_app_head, Permutation_app_comm.
  - rewrite set_absent by assumption.
    rewrite listenersOf_app. simpl.
    symmetry. apply Permutation_cons_append.
Qed.

Lemma add_fst pat h options now st :
  fst (add pm pat h options now st) = nextSymbol st.
Proof. reflexivity. Qed.

Lemma add_nextSymbol pat h options now st :
  nextSymbol (snd (add pm pat h options now st)) = S (nextSymbol st).
Proof.
  unfold add, putMapForPattern. simpl.
  now destruct (PatternMatcher.hasWildcard pm pat).
Qed.

Lemma add_allListeners pat h options now st :
  wf pm st ->
  Permutation (allListeners (snd (add pm pat h options now st)))
    (newListener (nextSymbol st) pat h options now :: allListeners st).
Proof.
  intros Hwf. unfold add, putMapForPattern, getMapForPattern, allListeners. simpl.
  destruct (PatternMatcher.hasWildcard pm pat); simpl.
  - rewrite (add_listenersOf _ _ _ (proj1 (wf_wildcard Hwf))).
    symmetry. apply Permutation_middle.
  - now rewrite (add_listenersOf _ _ _ (proj1 (wf_exact Hwf))).
Qed.

Lemma add_wf pat h options now st :
  wf pm st -> wf pm (snd (add pm pat h options now st)).
Proof.
  intros Hwf. pose proof (add_allListeners pat h options now st Hwf) as Hperm.
  pose proof (add_nextSymbol pat h options now st) as Hnext.
  assert (forall l, In l (allListeners (snd (add pm pat h options now st))) ->
                    l = newListener (nextSymbol st) pat h options now
                    \/ In l (allListeners st)) as Hin.
  { intros l Hl. apply (Permutation_in _ Hperm) in Hl as [<-|Hl]; auto. }
  split.
  - unfold add, putMapForPattern, getMapForPattern. simpl.
    destruct (PatternMatcher.hasWildcard pm pat) eqn:Hw; simpl.
    + apply (wf_exact Hwf).
    + apply add_bucketsOk; [apply (wf_exact Hwf)|assumption|reflexivity].
  - unfold add, putMapForPattern, getMapForPattern. simpl.
    destruct (PatternMatcher.hasWildcard pm pat) eqn:Hw; simpl.
    + apply add_bucketsOk; [apply (wf_wildcard Hwf)|assumption|reflexivity].
    + apply (wf_wildcard Hwf).
  - unfold ids. apply (Permutation_map id) in Hperm.
    apply (Permutation_NoDup (Permutation_sym Hperm)). simpl.
    constructor; [|apply (wf_unique Hwf)].
    intros Hdup. apply In_ids in Hdup as (l & Hl & E).
    apply (wf_fresh Hwf) in Hl. lia.
  - intros l Hl. rewrite Hnext. destruct (Hin l Hl) as [->|Hold].
    + simpl. lia.
    + apply (wf_fresh Hwf) in Hold. lia.
  - intros l Hl. destruct (Hin l Hl) as [->|Hold].
    + simpl. lia.
    + now apply (wf_counted Hwf).
Qed.

Lemma add_inherits pat h options now st :
  wf pm st -> inherits st (snd (add pm pat h options now st)).
Proof.
  intros Hwf. split; [rewrite add_nextSymbol; lia|].
  intros l Hl.
  apply (Permutation_in _ (add_allListeners pat h options now st Hwf)) in Hl
    as [<-|Hl].
  - right. simpl. lia.
  - left. exists l. split; [assumption|apply sameListener_refl].
Qed.

(** *** States that differ in counters *)

Lemma newerVersions_refl ls : Forall2 newerVersion ls ls.
Proof.
  induction ls as [|l ls IH]; constructor; [apply newerVersion_refl|assumption].
Qed.

Lemma sameBuckets_refl m : sameBuckets m m.
Proof.
  induction m as [|[pat ls] m IH]; constructor; [|assumption].
  split; [reflexivity|apply newerVersions_refl].
Qed.

Lemma newerVersions_ids ls ls' : Forall2 newerVersion ls ls' -> ids ls' = ids ls.
Proof.
  induction 1 as [|l l' ls ls' [(E & _) _] _ IH]; [reflexivity|].
  simpl. now rewrite IH, E.
Qed.

Lemma newerVersions_In ls ls' l' :
  Forall2 newerVersion ls ls' -> In l' ls' ->
  exists l, In l ls /\ newerVersion l l'.
Proof.
  induction 1 as [|a b ls ls' Hab _ IH]; simpl; [easy|].
  intros [<-|Hin].
  - exists a. auto.
  - destruct (IH Hin) as (l & ? & ?). exists l. auto.
Qed.

Lemma sameBuckets_keys m m' : sameBuckets m m' -> JSMap.keys m' = JSMap.keys m.
Proof.
  induction 1 as [|[k ls] [k' ls'] m m' [E _] _ IH]; [reflexivity|].
  simpl in *. now rewrite IH, E.
Qed.

Lemma sameBuckets_ids m m' :
  sameBuckets m m' -> ids (listenersOf m') = ids (listenersOf m).
Proof.
  induction 1 as [|[k ls] [k' ls'] m m' [_ E] _ IH]; [reflexivity|].
  change (ids (ls' ++ listenersOf m') = ids (ls ++ listenersOf m)).
  simpl in E. now rewrite !ids_app, IH, (newerVersions_ids _ _ E).
Qed.

Lemma sameBuckets_In_bucket m m' pat ls' :
  sameBuckets m m' -> In (pat, ls') m' ->
  exists ls, In (pat, ls) m /\ Forall2 newerVersion ls ls'.
Proof.
  induction 1 as [|[k ls] [k' ls0] m m' [E1 E2] _ IH]; simpl; [easy|].
  simpl in E1, E2. subst k'. intros [[= -> ->]|Hin].
  - exists ls. auto.
  - destruct (IH Hin) as (ls1 & ? & ?). exists ls1. auto.
Qed.

Lemma sameBuckets_In m m' l' :
  sameBuckets m m' -> In l' (listenersOf m') ->
  exists l, In l (listenersOf m) /\ newerVersion l l'.
Proof.
  intros Hs Hin. apply In_listenersOf in Hin as (pat & ls' & Hin & Hl).
  destruct (sameBuckets_In_bucket _ _ _ _ Hs Hin) as (ls & Hin' & Hf).
  destruct (newerVersions_In _ _ _ Hf Hl) as (l & ? & ?).
  exists l. split; [|assumption]. apply In_listenersOf. now exists pat, ls.
Qed.

Lemma sameBuckets_ok wild m m' :
  sameBuckets m m' -> bucketsOk pm wild m -> bucketsOk pm wild m'.
Proof.
  intros Hs [Hnd Hok]. split; [now rewrite (sameBuckets_keys _ _ Hs)|].
  intros pat ls' Hin.
  destruct (sameBuckets_In_bucket _ _ _ _ Hs Hin) as (ls & Hin' & Hf).
  destruct (Hok _ _ Hin') as (Hne & Hw & Hp). repeat split; try assumption.
  - intros ->. inversion Hf. congruence.
  - intros l' Hl'. destruct (newerVersions_In _ _ _ Hf Hl') as (l & Hl & [Hsame _]).
    destruct Hsame as (_ & _ & _ & _ & <- & _). now apply Hp.
Qed.

Lemma sameState_all st st' l' :
  sameState st st' -> In l' (allListeners st') ->
  exists l, In l (allListeners st) /\ newerVersion l l'.
Proof.
  intros (He & Hw & _) Hin. apply In_allListeners in Hin as [Hin|Hin].
  - destruct (sameBuckets_In _ _ _ He Hin) as (l & ? & ?).
    exists l. split; [apply In_allListeners; now left|assumption].
  - destruct (sameBuckets_In _ _ _ Hw Hin) as (l & ? & ?).
    exists l. split; [apply In_allListeners; now right|assumption].
Qed.

Lemma sameState_ids st st' :
  sameState st st' -> ids (allListeners st') = ids (allListeners st).
Proof.
  intros (He & Hw & _). unfold allListeners.
  now rewrite !ids_app, (sameBuckets_ids _ _ He), (sameBuckets_ids _ _ Hw).
Qed.

Lemma sameState_wf st st' : sameState st st' -> wf pm st -> wf pm st'.
Proof.
  intros Hs Hwf. pose proof Hs as (He & Hw & Hn). split.
  - exact (sameBuckets_ok _ _ _ He (wf_exact Hwf)).
  - exact (sameBuckets_ok _ _ _ Hw (wf_wildcard Hwf)).
  - rewrite (sameState_ids _ _ Hs). apply (wf_unique Hwf).
  - intros l' Hl'. destruct (sameState_all _ _ _ Hs Hl') as (l & Hl & [Hsame _]).
    destruct Hsame as (<- & _). rewrite Hn. now apply (wf_fresh Hwf).
  - intros l' Hl'. destruct (sameState_all _ _ _ Hs Hl') as (l & Hl & [_ Hc]).
    apply Hc. now apply (wf_counted Hwf).
Qed.

Lemma sameState_inherits st st' : sameState st st' -> inherits st st'.
Proof.
  intros Hs. pose proof Hs as (_ & _ & Hn). split; [lia|].
  intros l' Hl'. destruct (sameState_all _ _ _ Hs Hl') as (l & Hl & [Hsame _]).
  left. now exists l.
Qed.

(** *** [updateStats] *)

Lemma updateFirst_same listenerId duration ls ls' :
  updateFirst listenerId duration ls = Some ls' -> Forall2 newerVersion ls ls'.
Proof.
  revert ls'. induction ls as [|l ls IH]; simpl; intros ls'; [discriminate|].
  destruct (hasId listenerId l).
  - intros [= <-].
    constructor; [apply newerVersion_recordExecution|apply newerVersions_refl].
  - destruct (updateFirst listenerId duration ls) as [r|]; [|discriminate].
    intros [= <-]. constructor; [apply newerVersion_refl|now apply IH].
Qed.

Lemma findAndUpdate_same listenerId duration m :
  sameBuckets m (snd (findAndUpdate listenerId duration m)).
Proof.
  induction m as [|[pat ls] m IH]; simpl; [constructor|].
  destruct (updateFirst listenerId duration ls) as [ls'|] eqn:E.
  - simpl. constructor; [|apply sameBuckets_refl].
    split; [reflexivity|]. eapply updateFirst_same; eassumption.
  - destruct (findAndUpdate listenerId duration m) as [found rest]. simpl in *.
    constructor; [|assumption]. split; [reflexivity|apply newerVersions_refl].
Qed.

Lemma updateStats_same listenerId duration st :
  sameState st (updateStats listenerId duration st).
Proof.
  unfold updateStats.
  pose proof (findAndUpdate_same listenerId duration (exactMatches st)) as He.
  pose proof (findAndUpdate_same listenerId duration (wildcardPatterns st)) as Hw.
  destruct (findAndUpdate listenerId duration (exactMatches st)) as [[|] m];
    simpl in He; repeat split; simpl; auto using sameBuckets_refl.
Qed.

(** *** [writeBack] *)

Lemma writeBackIn_same l' m :
  (forall l, In l (listenersOf m) -> id l = id l' -> newerVersion l l') ->
  sameBuckets m (writeBackIn l' m).
Proof.
  induction m as [|[pat ls] m IH]; intros H; [constructor|].
  constructor.
  - split; [reflexivity|]. simpl.
    assert (forall l, In l ls -> id l = id l' -> newerVersion l l') as Hls.
    { intros l Hl. apply H. simpl. apply in_or_app. now left. }
    clear H IH. induction ls as [|l ls IH]; simpl; constructor.
    + destruct (hasId (id l') l) eqn:E.
      * apply Hls; [now left|now apply hasId_true].
      * apply newerVersion_refl.
    + apply IH. intros; apply Hls; simpl; auto.
  - apply IH. intros l Hl. apply H. simpl. apply in_or_app. now right.
Qed.

Lemma writeBack_same l' st :
  (forall l, In l (allListeners st) -> id l = id l' -> newerVersion l l') ->
  sameState st (writeBack l' st).
Proof.
  intros H. repeat split; simpl; try reflexivity;
    apply writeBackIn_same; intros l Hl; apply H, In_allListeners; auto.
Qed.

End StoreFacts2.


Section MatchingFacts.
Variable Payload : Type.
Variable pm : PatternMatcher.Interface.
Import ListenerStore.
Implicit Types (m : Buckets Payload) (l : Listener Payload) (st : State Payload)
  (ls : list (Listener Payload)) (pat : JS.str) (keep : Listener Payload -> bool).

Local Open Scope Z_scope.

(** *** [getMatching] *)

Lemma collect_wildcards (event : JS.str) (wild : Buckets Payload) :
  forall init,
    fold_left
      (fun acc e =>
         if PatternMatcher.matches pm (fst e) event then acc ++ snd e else acc)
      wild init
    = init
      ++ listenersOf (filter (fun e => PatternMatcher.matches pm (fst e) event) wild).
Proof.
  induction wild as [|[pat ls] wild IH]; intros init; simpl.
  - now rewrite app_nil_r.
  - rewrite IH. destruct (PatternMatcher.matches pm pat event); [|reflexivity].
    change (listenersOf ((pat, ls) :: ?x)) with (ls ++ listenersOf x).
    now rewrite app_assoc.
Qed.

Lemma bucketsOk_cons_inv wild pat ls m :
  bucketsOk pm wild ((pat, ls) :: m) ->
  (forall l, In l ls -> pattern l = pat)
  /\ ~ In pat (JSMap.keys m)
  /\ bucketsOk pm wild m.
Proof.
  intros [Hnd Hok]. simpl in Hnd. inversion Hnd; subst. repeat split.
  - apply (Hok pat ls). now left.
  - assumption.
  - assumption.
  - apply (Hok pat0 listeners). now right.
  - apply (Hok pat0 listeners). now right.
  - apply (Hok pat0 listeners). now right.
Qed.

Lemma listenersOf_filter_keys wild (p : JS.str -> bool) m :
  bucketsOk pm wild m ->
  listenersOf (filter (fun e => p (fst e)) m)
  = filter (fun l => p (pattern l)) (listenersOf m).
Proof.
  induction m as [|[pat ls] m IH]; intros Hok; [reflexivity|].
  apply bucketsOk_cons_inv in Hok as (Hp & _ & Hok).
  change (listenersOf ((pat, ls) :: m)) with (ls ++ listenersOf m).
  rewrite filter_app, <- (IH Hok). simpl. destruct (p pat) eqn:E.
  - change (listenersOf ((pat, ls) :: ?x)) with (ls ++ listenersOf x).
    f_equal. symmetry. apply filter_id. intros l Hl. now rewrite (Hp l Hl).
  - rewrite (filter_none _ _ ls); [reflexivity|].
    intros l Hl. now rewrite (Hp l Hl).
Qed.

Lemma get_as_keys m (event : JS.str) :
  NoDup (JSMap.keys m) ->
  Types.orElse (JSMap.get event m) []
  = listenersOf (filter (fun e => JS.eqb (fst e) event) m).
Proof.
  induction m as [|[pat ls] m IH]; intros Hnd; [reflexivity|].
  simpl in Hnd. inversion Hnd as [|? ? Hpat Hnd']; subst.
  simpl. rewrite (str_eqb_sym event pat).
  destruct (str_eqb_spec pat event) as [->|Hne]; [|now apply IH].
  rewrite (filter_none _ _ m).
  - simpl. now rewrite app_nil_r.
  - intros [k ls'] Hin. apply str_eqb_neq. intros E. simpl in E. subst k.
    apply Hpat. unfold JSMap.keys. apply in_map_iff. now exists (event, ls').
Qed.

Lemma get_as_filter wild m (event : JS.str) :
  bucketsOk pm wild m ->
  Types.orElse (JSMap.get event m) []
  = filter (fun l => JS.eqb (pattern l) event) (listenersOf m).
Proof.
  intros Hok.
  rewrite <- (listenersOf_filter_keys wild (fun k => JS.eqb k event) m Hok).
  apply get_as_keys, Hok.
Qed.

(** [getMatching] sorts the listeners the event name selects. *)
Lemma getMatching_spec (event : JS.str) st :
  wf pm st ->
  getMatching pm event st
  = sortByPriority (filter (selects pm event) (allListeners st)).
Proof.
  intros Hwf. unfold getMatching. f_equal.
  rewrite collect_wildcards.
  rewrite (listenersOf_filter_keys true
             (fun k => PatternMatcher.matches pm k event) _ (wf_wildcard Hwf)).
  unfold allListeners. rewrite filter_app. f_equal.
  - transitivity (Types.orElse (JSMap.get event (exactMatches st)) []);
      [now destruct (JSMap.get event (exactMatches st))|].
    rewrite (get_as_filter false _ event (wf_exact Hwf)).
    apply filter_ext_in. intros l Hl. unfold selects.
    now rewrite (bucketsOk_side _ _ _ _ _ (wf_exact Hwf) Hl).
  - apply filter_ext_in. intros l Hl. unfold selects.
    now rewrite (bucketsOk_side _ _ _ _ _ (wf_wildcard Hwf) Hl).
Qed.

Lemma In_getMatching (event : JS.str) st l :
  wf pm st ->
  (In l (getMatching pm event st)
   <-> In l (allListeners st) /\ selects pm event l = true).
Proof.
  intros Hwf. rewrite (getMatching_spec event st Hwf).
  unfold sortByPriority. now rewrite sort_In, filter_In.
Qed.

Lemma getMatching_perm (event : JS.str) st :
  wf pm st ->
  Permutation (getMatching pm event st)
    (filter (selects pm event) (allListeners st)).
Proof.
  intros Hwf. rewrite (getMatching_spec event st Hwf). apply sort_perm.
Qed.

Lemma getMatching_NoDup (event : JS.str) st :
  wf pm st -> NoDup (ids (getMatching pm event st)).
Proof.
  intros Hwf. unfold ids.
  apply (Permutation_NoDup
           (Permutation_sym (Permutation_map id (getMatching_perm event st Hwf)))).
  apply NoDup_map_filter, (wf_unique Hwf).
Qed.

(** The comparator of [sortByPriority] is the order [before]. *)
Lemma comparePriority_before (a b : Listener Payload) :
  JS.notAfter comparePriority a b <-> before a b.
Proof.
  unfold JS.notAfter, comparePriority, before.
  destruct (Z.eqb_spec (priority b) (priority a)); simpl; lia.
Qed.

Lemma comparePriority_total (a b : Listener Payload) :
  0 < comparePriority a b -> comparePriority b a <= 0.
Proof.
  unfold comparePriority.
  destruct (Z.eqb_spec (priority b) (priority a));
    destruct (Z.eqb_spec (priority a) (priority b)); simpl; lia.
Qed.

Lemma before_trans (a b c : Listener Payload) :
  before a b -> before b c -> before a c.
Proof. unfold before. lia. Qed.

(** What [sortByPriority] returns is in order: every listener stands
    [before] all that follow it. *)
Lemma sortByPriority_sorted ls : StronglySorted before (sortByPriority ls).
Proof.
  apply Sorted_StronglySorted; [exact before_trans|].
  pose proof (sort_sorted _ comparePriority comparePriority_total ls) as H.
  unfold sortByPriority. induction H as [|a s Hs IH Hhd]; constructor; auto.
  destruct Hhd; constructor. now apply comparePriority_before.
Qed.

Lemma comparePriority_equiv (z x y : Listener Payload) :
  comparePriority z x = 0 -> comparePriority z y = 0 -> comparePriority x y <= 0.
Proof.
  unfold comparePriority.
  destruct (Z.eqb_spec (priority x) (priority z));
    destruct (Z.eqb_spec (priority y) (priority z));
    destruct (Z.eqb_spec (priority y) (priority x)); simpl; lia.
Qed.

(** Listeners of equal priority and equal timestamp leave
    [sortByPriority] in the order they entered it. *)
Lemma sortByPriority_stable (z : Listener Payload) ls :
  filter (fun w => comparePriority z w =? 0) (sortByPriority ls)
  = filter (fun w => comparePriority z w =? 0) ls.
Proof.
  apply sort_stable. exact comparePriority_equiv.
Qed.

(** The unique owner of an id. *)
Lemma unique_by_id ls (a b : Listener Payload) :
  NoDup (ids ls) -> In a ls -> In b ls -> id a = id b -> a = b.
Proof.
  induction ls as [|l ls IH]; simpl; [easy|].
  intros Hnd Ha Hb E. inversion Hnd as [|? ? Hl Hnd']; subst.
  destruct Ha as [->|Ha], Hb as [->|Hb]; auto.
  - exfalso. apply Hl. rewrite E. now apply in_map.
  - exfalso. apply Hl. rewrite <- E. now apply in_map.
Qed.

End MatchingFacts.


(** ** The executor *)

Section ExecutorFacts.
Variable Payload : Type.
Import ListenerStore HandlerExecutor.
Implicit Types (l : Listener Payload) (ls : list (Listener Payload))
  (payload : Payload).

Local Open Scope Z_scope.

(** Whatever the handler does, the value [execute] gets from
    [executeHandler] (awaited if it is a promise of this realm) is a
    result or a thenable left alone, never an exception. *)
Lemma executeHandler_settles payload l :
  detaches payload l = false ->
  Promise.awaitIfPromise (executeHandler payload l)
  = Promise.Fulfilled
      (Promise.Value
         (afterCall payload l,
          {| shouldRemove := succeeds payload l && once l;
             duration := snd (handler l payload) |})).
Proof.
  unfold executeHandler, afterCall, succeeds, detaches.
  destruct (handler l payload) as [[| | | | |] elapsed]; simpl;
    intros H; try discriminate H; reflexivity.
Qed.

Lemma executeHandler_detaches payload l :
  detaches payload l = true ->
  succeeds payload l = false
  /\ exists p,
       Promise.awaitIfPromise (executeHandler payload l)
       = Promise.Fulfilled (Promise.Unawaited p).
Proof.
  unfold executeHandler, succeeds, detaches.
  destruct (handler l payload) as [[| | | | |] elapsed]; simpl;
    intros H; try discriminate H; split; try reflexivity; eauto.
Qed.

Lemma executeFrom_spec payload ls :
  forall toRemove done,
    executeFrom payload ls toRemove done
    = {| called := done ++ map (afterCall payload) ls;
         outcome :=
           Promise.Fulfilled
             {| listenersToRemove :=
                  toRemove
                  ++ ids (filter (fun l => succeeds payload l && once l) ls) |} |}.
Proof.
  induction ls as [|l ls IH]; intros toRemove done; simpl.
  - now rewrite !app_nil_r.
  - destruct (detaches payload l) eqn:Hd.
    + destruct (executeHandler_detaches payload l Hd) as (Hs & p & ->).
      rewrite IH. unfold afterCall. rewrite Hs. simpl.
      now rewrite <- !app_assoc.
    + rewrite (executeHandler_settles payload l Hd), IH. simpl.
      rewrite <- !app_assoc. simpl.
      destruct (succeeds payload l && once l); simpl;
        now rewrite <- ?app_assoc.
Qed.

Lemma execute_spec payload ls :
  execute payload ls
  = {| called := map (afterCall payload) ls;
       outcome :=
         Promise.Fulfilled
           {| listenersToRemove :=
                ids (filter (fun l => succeeds payload l && once l) ls) |} |}.
Proof. apply executeFrom_spec. Qed.

Lemma afterCall_id payload l : id (afterCall payload l) = id l.
Proof. unfold afterCall. now destruct (succeeds payload l). Qed.

(** [execute] calls the listeners it was given, all of them, in the
    order it was given them. *)
Lemma called_ids payload ls : ids (called (execute payload ls)) = ids ls.
Proof.
  rewrite execute_spec. simpl. unfold ids. rewrite map_map.
  apply map_ext, afterCall_id.
Qed.

Lemma afterCall_newer payload l : newerVersion l (afterCall payload l).
Proof.
  unfold afterCall. destruct (succeeds payload l).
  - apply newerVersion_recordExecution.
  - apply newerVersion_refl.
Qed.

End ExecutorFacts.

(** ** The bus *)

Section BusFacts.
Variable Payload : Type.
Import ListenerStore HandlerExecutor EventBus.
Implicit Types (l : Listener Payload) (ls : list (Listener Payload))
  (st : State Payload) (payload : Payload) (event : JS.str).

Local Open Scope Z_scope.

Lemma newerVersion_trans l1 l2 l3 :
  newerVersion l1 l2 -> newerVersion l2 l3 -> newerVersion l1 l3.
Proof.
  intros [H1 C1] [H2 C2]. split; [|auto].
  revert H1 H2. apply sameListener_trans.
Qed.

Lemma sameListener_sym l1 l2 : sameListener l1 l2 -> sameListener l2 l1.
Proof. unfold sameListener. intuition congruence. Qed.

Lemma newerVersions_trans ls1 ls2 ls3 :
  Forall2 newerVersion ls1 ls2 -> Forall2 newerVersion ls2 ls3 ->
  Forall2 newerVersion ls1 ls3.
Proof.
  intros H. revert ls3. induction H; intros ls3 H'; inversion H'; subst;
    constructor; eauto using newerVersion_trans.
Qed.

Lemma sameBuckets_trans (m1 m2 m3 : Buckets Payload) :
  sameBuckets m1 m2 -> sameBuckets m2 m3 -> sameBuckets m1 m3.
Proof.
  intros H. revert m3. induction H as [|e1 e2 m1 m2 [E1 F1] _ IH];
    intros m3 H'; inversion H' as [|? e3 ? m3' [E2 F2] Hrest]; subst;
    constructor.
  - split; [congruence|]. eapply newerVersions_trans; eassumption.
  - now apply IH.
Qed.

Lemma sameState_refl st : sameState st st.
Proof. repeat split; apply sameBuckets_refl. Qed.

Lemma sameState_trans st1 st2 st3 :
  sameState st1 st2 -> sameState st2 st3 -> sameState st1 st3.
Proof.
  intros (E1 & W1 & N1) (E2 & W2 & N2). repeat split.
  - eapply sameBuckets_trans; eassumption.
  - eapply sameBuckets_trans; eassumption.
  - congruence.
Qed.

(** The counters the executor moved, written into the store. *)
Lemma seenByStore_same st ls' :
  wf patternMatcher st ->
  (forall l', In l' ls' ->
     exists l, In l (allListeners st) /\ sameListener l l'
               /\ 0 <= executionCount l') ->
  forall cur,
    sameState st cur -> sameState st (seenByStore ls' cur).
Proof.
  intros Hwf. induction ls' as [|l' ls' IH]; intros Hls cur Hcur; [assumption|].
  simpl. apply IH; [intros; apply Hls; now right|].
  apply (sameState_trans _ _ _ Hcur). apply writeBack_same.
  intros l Hl E.
  destruct (Hls l' (or_introl eq_refl)) as (l0 & Hl0 & Hsame0 & Hc).
  destruct (sameState_all _ _ _ _ Hcur Hl) as (l1 & Hl1 & [Hsame1 _]).
  assert (l1 = l0) as ->.
  { apply (unique_by_id _ _ _ _ (wf_unique Hwf) Hl1 Hl0).
    destruct Hsame0 as (E0 & _), Hsame1 as (E1 & _). congruence. }
  split; [|auto].
  apply (sameListener_trans _ _ l0); [now apply sameListener_sym|assumption].
Qed.

Lemma filter_andb (A : Type) (f g : A -> bool) (xs : list A) :
  filter (fun x => f x && g x) xs = filter g (filter f xs).
Proof.
  induction xs as [|x xs IH]; simpl; [reflexivity|].
  destruct (f x); simpl; [|assumption]. destruct (g x); now rewrite IH.
Qed.

Lemma prune_prune (keep1 keep2 : Listener Payload -> bool) (m : Buckets Payload) :
  prune keep2 (prune keep1 m) = prune (fun l => keep1 l && keep2 l) m.
Proof.
  induction m as [|[pat ls] m IH]; [reflexivity|].
  rewrite !prune_cons, prune_app, IH, filter_andb. f_equal.
  destruct (filter keep1 ls) as [|u us]; [reflexivity|].
  rewrite prune_cons. simpl. now rewrite app_nil_r.
Qed.

Lemma isPruned_trans (keep1 keep2 : Listener Payload -> bool) st1 st2 st3 :
  isPruned keep1 st1 st2 -> isPruned keep2 st2 st3 ->
  isPruned (fun l => keep1 l && keep2 l) st1 st3.
Proof.
  intros (E1 & W1 & N1) (E2 & W2 & N2). unfold isPruned.
  now rewrite E2, W2, N2, E1, W1, N1, !prune_prune.
Qed.

Lemma isPruned_ext (keep keep' : Listener Payload -> bool) st st' :
  (forall l, keep l = keep' l) -> isPruned keep st st' -> isPruned keep' st st'.
Proof.
  intros Hext (E & W & N). unfold isPruned. rewrite E, W, N.
  repeat split; apply prune_ext; auto.
Qed.

(** Removing a list of ids one by one. *)
Lemma removeEach_pruned (toRemove : list Types.symbol) :
  forall st,
    wf patternMatcher st ->
    isPruned (fun l => negb (existsb (Nat.eqb (id l)) toRemove)) st
      (removeEach toRemove st).
Proof.
  induction toRemove as [|x toRemove IH]; intros st Hwf.
  - simpl. unfold isPruned. rewrite !prune_id; auto.
    + intros ? ? Hin. exact (bucketsOk_nonempty _ _ _ _ _ _ (wf_wildcard Hwf) Hin).
    + intros ? ? Hin. exact (bucketsOk_nonempty _ _ _ _ _ _ (wf_exact Hwf) Hin).
  - simpl. destruct (removeById_pruned _ patternMatcher x st Hwf) as [Hst _]. rewrite Hst.
    pose proof (isPruned_pruned _ (fun l => negb (hasId x l)) st) as Hp.
    pose proof (IH _ (isPruned_wf _ _ _ _ _ Hp Hwf)) as Hq.
    eapply isPruned_ext; [|exact (isPruned_trans _ _ _ _ _ Hp Hq)].
    intros l. simpl. unfold hasId. now rewrite negb_orb.
Qed.

(** *** [emit] *)

Lemma emit_spec event payload st :
  emit event payload st
  = (Promise.Fulfilled tt,
     removeEach
       (ids (filter (fun l => succeeds payload l && ListenerStore.once l)
               (getMatching patternMatcher event st)))
       (seenByStore (map (afterCall payload) (getMatching patternMatcher event st)) st)).
Proof. unfold emit. now rewrite execute_spec. Qed.

Lemma emit_seen_same event payload st :
  wf patternMatcher st ->
  sameState st (seenByStore (map (afterCall payload) (getMatching patternMatcher event st)) st).
Proof.
  intros Hwf. apply seenByStore_same; [assumption| |apply sameState_refl].
  intros l' Hl'. apply in_map_iff in Hl' as (l & <- & Hl).
  apply (In_getMatching _ patternMatcher event st l Hwf) in Hl as [Hl _].
  exists l. destruct (afterCall_newer _ payload l) as [Hs Hc].
  repeat split; try assumption; try apply Hs.
  apply Hc. now apply (wf_counted Hwf).
Qed.

Lemma inherits_refl st : inherits st st.
Proof.
  split; [lia|]. intros l Hl. left. exists l.
  split; [assumption|apply sameListener_refl].
Qed.

Lemma inherits_trans st1 st2 st3 :
  inherits st1 st2 -> inherits st2 st3 -> inherits st1 st3.
Proof.
  intros [N1 H1] [N2 H2]. split; [lia|].
  intros l3 Hl3. destruct (H2 l3 Hl3) as [(l2 & Hl2 & S2)|Hnew]; [|right; lia].
  destruct (H1 l2 Hl2) as [(l1 & Hl1 & S1)|Hnew].
  - left. exists l1. split; [assumption|].
    revert S1 S2. apply sameListener_trans.
  - right. destruct S2 as (<- & _). exact Hnew.
Qed.

Lemma emit_wf event payload st :
  wf patternMatcher st ->
  wf patternMatcher (snd (emit event payload st)) /\ inherits st (snd (emit event payload st)).
Proof.
  intros Hwf. rewrite emit_spec. simpl.
  pose proof (emit_seen_same event payload st Hwf) as Hsame.
  pose proof (sameState_wf _ _ _ _ Hsame Hwf) as Hwf1.
  pose proof (removeEach_pruned
                (ids (filter (fun l => succeeds payload l && ListenerStore.once l)
                        (getMatching patternMatcher event st)))
                _ Hwf1) as Hp.
  split.
  - exact (isPruned_wf _ _ _ _ _ Hp Hwf1).
  - apply (inherits_trans _ _ _ (sameState_inherits _ _ _ Hsame)).
    exact (isPruned_inherits _ _ _ _ Hp).
Qed.

(** *** Every state the bus can be in is well formed *)

Lemma createEventBus_wf : wf patternMatcher (createEventBus Payload).
Proof.
  split; simpl; try easy; try constructor; try easy; constructor.
Qed.

Lemma step_wf st st' :
  wf patternMatcher st -> step st st' -> wf patternMatcher st' /\ inherits st st'.
Proof.
  intros Hwf Hstep.
  destruct Hstep as [pat h options now st|pat listenerId st|listenerId st
                    |event st|listenerId elapsed st|listenerId st|st
                    |event payload st].
  - split; [now apply add_wf|now apply add_inherits].
  - fold patternMatcher. rewrite (remove_pruned _ patternMatcher pat listenerId st Hwf). split.
    + exact (isPruned_wf _ _ _ _ _ (isPruned_pruned _ _ _) Hwf).
    + exact (isPruned_inherits _ _ _ _ (isPruned_pruned _ _ _)).
  - destruct (removeById_pruned _ patternMatcher listenerId st Hwf) as [-> _]. split.
    + exact (isPruned_wf _ _ _ _ _ (isPruned_pruned _ _ _) Hwf).
    + exact (isPruned_inherits _ _ _ _ (isPruned_pruned _ _ _)).
  - rewrite (removeAll_pruned _ patternMatcher event st Hwf). split.
    + exact (isPruned_wf _ _ _ _ _ (isPruned_pruned _ _ _) Hwf).
    + exact (isPruned_inherits _ _ _ _ (isPruned_pruned _ _ _)).
  - pose proof (updateStats_same _ listenerId elapsed st) as Hs. split.
    + exact (sameState_wf _ _ _ _ Hs Hwf).
    + exact (sameState_inherits _ _ _ Hs).
  - assert (sameState st (markForRemoval listenerId st)) as Hs
        by (repeat split; apply sameBuckets_refl).
    split.
    + exact (sameState_wf _ _ _ _ Hs Hwf).
    + exact (sameState_inherits _ _ _ Hs).
  - pose proof (removeMarked_pruned _ patternMatcher st Hwf) as Hp. split.
    + exact (isPruned_wf _ _ _ _ _ Hp Hwf).
    + exact (isPruned_inherits _ _ _ _ Hp).
  - now apply emit_wf.
Qed.

Lemma steps_wf st st' :
  wf patternMatcher st -> steps st st' -> wf patternMatcher st' /\ inherits st st'.
Proof.
  intros Hwf Hsteps. induction Hsteps as [|st1 st2 st3 _ IH Hstep].
  - split; [assumption|apply inherits_refl].
  - destruct (IH Hwf) as [Hwf2 Hin2].
    destruct (step_wf _ _ Hwf2 Hstep) as [Hwf3 Hin3].
    split; [assumption|]. revert Hin2 Hin3. apply inherits_trans.
Qed.

Lemma reachable_wf st : reachable st -> wf patternMatcher st.
Proof. intros H. apply (steps_wf _ _ createEventBus_wf H). Qed.

Lemma steps_trans st1 st2 st3 : steps st1 st2 -> steps st2 st3 -> steps st1 st3.
Proof.
  intros H12 H23. induction H23; [assumption|].
  eapply steps_step; [|eassumption]. auto.
Qed.

End BusFacts.


(* ================================================================= *)
(** * The claims of the specification *)

Section Claims.
Variable Payload : Type.
Import ListenerStore HandlerExecutor EventBus.
Implicit Types (l : Listener Payload) (ls : list (Listener Payload))
  (st : State Payload) (payload : Payload) (event pat : JS.str).

Local Open Scope Z_scope.

(** ** Helpers shared by the claims *)

Lemma absent_inherits listenerId st st' :
  inherits st st' -> absent listenerId st -> absent listenerId st'.
Proof.
  intros [Hn Hin] [Hlt Hab]. split; [lia|].
  intros H. apply In_ids in H as (l' & Hl' & E).
  destruct (Hin l' Hl') as [(l & Hl & (Hid & _))|Hnew]; [|lia].
  apply Hab, In_ids. exists l. split; [assumption|congruence].
Qed.

Lemma remove_noop pat listenerId st :
  wf patternMatcher st ->
  (forall l, In l (allListeners st) -> ~ (pattern l = pat /\ id l = listenerId)) ->
  remove patternMatcher pat listenerId st = (false, st).
Proof.
  intros Hwf Hno.
  rewrite (surjective_pairing (remove patternMatcher pat listenerId st)). f_equal.
  - destruct (fst (remove patternMatcher pat listenerId st)) eqn:E; [|reflexivity].
    exfalso. apply remove_result in E.
    destruct (JSMap.get pat (getMapForPattern patternMatcher pat st)) as [existing|] eqn:G;
      [|contradiction].
    simpl in E. apply In_ids in E as (l & Hl & Hid). apply get_In in G.
    assert (In l (allListeners st) /\ pattern l = pat) as [Hall Hpat].
    { unfold getMapForPattern in G.
      destruct (PatternMatcher.hasWildcard patternMatcher pat); split.
      - apply In_allListeners. right. apply In_listenersOf. now exists pat, existing.
      - now apply (proj2 (wf_wildcard Hwf) _ _ G).
      - apply In_allListeners. left. apply In_listenersOf. now exists pat, existing.
      - now apply (proj2 (wf_exact Hwf) _ _ G). }
    now apply (Hno l Hall).
  - rewrite (remove_pruned _ patternMatcher pat listenerId st Hwf).
    apply (pruned_id _ patternMatcher _ _ Hwf). intros l Hl. apply negb_true_iff.
    destruct (str_eqb_spec (pattern l) pat) as [Hp|Hp]; [|reflexivity].
    destruct (hasId listenerId l) eqn:Hi; [|reflexivity].
    exfalso. apply (Hno l Hl). split; [assumption|now apply hasId_true].
Qed.

Lemma removeById_noop listenerId st :
  wf patternMatcher st ->
  ~ In listenerId (ids (allListeners st)) ->
  removeById listenerId st = (None, st).
Proof.
  intros Hwf Hno.
  destruct (removeById_pruned _ patternMatcher listenerId st Hwf) as [Hsnd Hfst].
  rewrite (surjective_pairing (removeById listenerId st)). f_equal.
  - now apply Hfst.
  - rewrite Hsnd. apply (pruned_id _ patternMatcher _ _ Hwf).
    intros l Hl. apply negb_true_iff, hasId_false. intros E.
    apply Hno, In_ids. now exists l.
Qed.

Lemma In_addMatchingToResult (m : Buckets Payload) (event : option JS.str) :
  forall (result : Types.ListenerMap) pat infos,
    In (pat, infos) (addMatchingToResult patternMatcher m result event) ->
    In (pat, infos) result
    \/ exists ls, In (pat, ls) m /\ infos = mapListeners ls.
Proof.
  unfold addMatchingToResult.
  induction m as [|[k ls] m IH]; intros result pat infos; simpl.
  - intros H. left. exact H.
  - intros H. apply IH in H as [H|(ls' & Hin & ->)].
    + match type of H with
      | In _ (if ?c then _ else _) => destruct c
      end; [|left; exact H].
      apply In_set in H as [[-> ->]|H]; [|left; exact H].
      right. exists ls. split; [now left|reflexivity].
    + right. exists ls'. split; [now right|reflexivity].
Qed.

(** ** C2 *)

(** C2.  A handler that throws or whose promise is rejected stops
    nothing: [execute] calls every listener of the list in order, its
    promise is fulfilled, the ids it reports are those of the one-shot
    listeners whose handler succeeded (so a listener that failed is not
    among them when ids are unique), [emit] is fulfilled as well, and
    after [emit] a listener that failed is still in the store. *)
Theorem handler_failure_is_isolated payload ls :
  (exists r,
     outcome (execute payload ls) = Promise.Fulfilled r
     /\ listenersToRemove r
        = ids (filter (fun l => succeeds payload l && ListenerStore.once l) ls)
     /\ (NoDup (ids ls) ->
         forall l, In l ls -> succeeds payload l = false ->
                   ~ In (id l) (listenersToRemove r)))
  /\ ids (called (execute payload ls)) = ids ls
  /\ (forall event st, fst (emit event payload st) = Promise.Fulfilled tt)
  /\ (forall event st l,
        reachable st ->
        In l (getMatching patternMatcher event st) ->
        succeeds payload l = false ->
        In (id l) (ids (allListeners (snd (emit event payload st))))).
Proof.
  split; [|split; [apply called_ids|split]].
  - rewrite execute_spec. simpl. eexists. repeat split.
    intros Hnd l Hl Hfail Hin.
    apply In_ids in Hin as (l' & Hl' & E).
    apply filter_In in Hl' as [Hl' Hok].
    assert (l' = l) as -> by exact (unique_by_id _ _ _ _ Hnd Hl' Hl E).
    rewrite Hfail in Hok. discriminate.
  - intros event st. now rewrite emit_spec.
  - intros event st l Hreach Hl Hfail.
    pose proof (reachable_wf _ _ Hreach) as Hwf.
    rewrite emit_spec. cbn [snd].
    pose proof (emit_seen_same _ event payload st Hwf) as Hsame.
    pose proof (sameState_wf _ _ _ _ Hsame Hwf) as Hwf1.
    set (toRemove := ids (filter (fun l0 => succeeds payload l0 && ListenerStore.once l0)
                            (getMatching patternMatcher event st))).
    pose proof (removeEach_pruned _ toRemove _ Hwf1) as Hp.
    rewrite (isPruned_all _ _ _ _ Hp).
    assert (In (id l) (ids (allListeners
              (seenByStore (map (afterCall payload) (getMatching patternMatcher event st)) st))))
      as Hin.
    { rewrite (sameState_ids _ _ _ Hsame). apply in_map.
      now apply (In_getMatching _ patternMatcher event st l Hwf). }
    apply In_ids in Hin as (l1 & Hl1 & E1). apply In_ids. exists l1.
    split; [|assumption]. apply filter_In. split; [assumption|].
    apply negb_true_iff. destruct (existsb (Nat.eqb (id l1)) toRemove) eqn:Ex;
      [|reflexivity].
    exfalso. apply existsb_exists in Ex as (x & Hx & Ex).
    apply Nat.eqb_eq in Ex. subst x. rewrite E1 in Hx.
    apply In_ids in Hx as (l' & Hl' & E). apply filter_In in Hl' as [Hl' Hok].
    assert (l' = l) as ->
        by exact (unique_by_id _ _ _ _ (getMatching_NoDup _ patternMatcher event st Hwf) Hl' Hl E).
    rewrite Hfail in Hok. discriminate.
Qed.

(** ** One-shot listeners *)

(** What the code does keep of the promise of one-shot listeners: when
    an emission is not interrupted and [execute] sees the handler of a
    one-shot listener succeed, the listener is called exactly once in
    that emission, and from then on, whatever calls of the store
    follow, no event name selects it and no emission calls it again. *)
Theorem once_listener_fires_once event payload st l :
  reachable st ->
  In l (getMatching patternMatcher event st) ->
  ListenerStore.once l = true ->
  succeeds payload l = true ->
  count_occ Nat.eq_dec
    (ids (called (execute payload (getMatching patternMatcher event st))))
    (id l) = 1%nat
  /\ forall st',
       steps (snd (emit event payload st)) st' ->
       forall event',
         ~ In (id l) (ids (getMatching patternMatcher event' st'))
         /\ forall payload',
              ~ In (id l)
                  (ids (called (execute payload'
                                  (getMatching patternMatcher event' st')))).
Proof.
  intros Hreach Hl Honce Hok. pose proof (reachable_wf _ _ Hreach) as Hwf.
  split.
  - rewrite called_ids.
    apply NoDup_count_occ'; [now apply getMatching_NoDup|now apply in_map].
  - intros st' Hsteps event'.
    assert (~ In (id l) (ids (getMatching patternMatcher event' st'))) as Hgone;
      [|split; [exact Hgone|intros payload'; now rewrite called_ids]].
    intros Hin.
    destruct (emit_wf _ event payload st Hwf) as [Hwf1 Hinh1].
    destruct (steps_wf _ _ _ Hwf1 Hsteps) as [Hwf' Hinh'].
    assert (absent (id l) (snd (emit event payload st))) as Habs.
    { split.
      - apply (In_getMatching _ patternMatcher event st l Hwf) in Hl as [Hl _].
        apply (wf_fresh Hwf) in Hl. destruct Hinh1 as [Hn _]. lia.
      - rewrite emit_spec. cbn [snd].
        pose proof (emit_seen_same _ event payload st Hwf) as Hsame.
        pose proof (sameState_wf _ _ _ _ Hsame Hwf) as Hwfs.
        rewrite (isPruned_all _ _ _ _ (removeEach_pruned _ _ _ Hwfs)).
        intros H. apply In_ids in H as (l1 & Hl1 & E1).
        apply filter_In in Hl1 as [_ Hkeep].
        apply negb_true_iff in Hkeep.
        assert (existsb (Nat.eqb (id l1))
                  (ids (filter (fun l0 => succeeds payload l0 && ListenerStore.once l0)
                          (getMatching patternMatcher event st))) = true) as Ht; [|congruence].
        apply existsb_exists. exists (id l). split; [|now apply Nat.eqb_eq].
        apply in_map, filter_In. split; [assumption|]. now rewrite Hok, Honce. }
    apply (absent_inherits _ _ _ Hinh') in Habs as [_ Habs]. apply Habs.
    apply In_ids in Hin as (l' & Hl' & E).
    apply (In_getMatching _ patternMatcher event' st' l' Hwf') in Hl' as [Hl' _].
    apply In_ids. now exists l'.
Qed.

(** ** C5 *)

(** C5.  [removeAll(e)] removes the listeners whose pattern is the text
    [e] and no other: a listener under another pattern that matches [e]
    stays and is still selected by [e]. *)
Theorem removeAll_by_name_is_textual event st :
  reachable st ->
  (forall l,
      In l (allListeners (snd (removeAll (Some event) st)))
      <-> In l (allListeners st) /\ pattern l <> event)
  /\ (forall l,
        In l (allListeners st) ->
        pattern l <> event ->
        PatternMatcher.matches patternMatcher (pattern l) event = true ->
        In l (getMatching patternMatcher event (snd (removeAll (Some event) st)))).
Proof.
  intros Hreach. pose proof (reachable_wf _ _ Hreach) as Hwf.
  pose proof (removeAll_pruned _ patternMatcher (Some event) st Hwf) as Heq.
  assert (forall l,
             In l (allListeners (snd (removeAll (Some event) st)))
             <-> In l (allListeners st) /\ pattern l <> event) as Hall.
  { intros l. rewrite Heq, (isPruned_all _ _ _ _ (isPruned_pruned _ _ _)).
    now rewrite filter_In, negb_true_iff, str_eqb_neq. }
  split; [exact Hall|].
  intros l Hl Hne Hm.
  apply In_getMatching.
  - rewrite Heq. exact (isPruned_wf _ _ _ _ _ (isPruned_pruned _ _ _) Hwf).
  - split; [now apply Hall|]. unfold selects.
    destruct (PatternMatcher.hasWildcard patternMatcher (pattern l)) eqn:Hw; [assumption|].
    apply str_eqb_eq. now apply (matches_literal _ _ Hw).
Qed.

(** ** C7 *)

(** C7.  In every state the bus can reach: no bucket of either map is
    empty, every listener lies under the key that is its pattern, a key
    lies in the wildcard map exactly when [hasWildcard] holds for it,
    and so no pattern is a key of both maps. *)
Theorem reachable_buckets_invariant st :
  reachable st ->
  (forall pat ls,
      In (pat, ls) (exactMatches st) \/ In (pat, ls) (wildcardPatterns st) ->
      ls <> [] /\ forall l, In l ls -> pattern l = pat)
  /\ (forall pat,
        In pat (JSMap.keys (exactMatches st))
        \/ In pat (JSMap.keys (wildcardPatterns st)) ->
        (In pat (JSMap.keys (wildcardPatterns st))
         <-> PatternMatcher.hasWildcard patternMatcher pat = true))
  /\ (forall pat,
        ~ (In pat (JSMap.keys (exactMatches st))
           /\ In pat (JSMap.keys (wildcardPatterns st))))
  /\ NoDup (JSMap.keys (exactMatches st))
  /\ NoDup (JSMap.keys (wildcardPatterns st)).
Proof.
  intros Hreach. pose proof (reachable_wf _ _ Hreach) as Hwf.
  destruct (wf_exact Hwf) as [Hnde Hoke], (wf_wildcard Hwf) as [Hndw Hokw].
  assert (forall pat, In pat (JSMap.keys (exactMatches st)) ->
                      PatternMatcher.hasWildcard patternMatcher pat = false) as He.
  { intros pat H. apply in_map_iff in H as ([k ls] & <- & Hin).
    now apply (Hoke _ _ Hin). }
  assert (forall pat, In pat (JSMap.keys (wildcardPatterns st)) ->
                      PatternMatcher.hasWildcard patternMatcher pat = true) as Hw.
  { intros pat H. apply in_map_iff in H as ([k ls] & <- & Hin).
    now apply (Hokw _ _ Hin). }
  split; [|split; [|split; [|split]]]; try assumption.
  - intros pat ls [H|H].
    + destruct (Hoke _ _ H) as (Hne & _ & Hp). now split.
    + destruct (Hokw _ _ H) as (Hne & _ & Hp). now split.
  - intros pat H. split; [now apply Hw|].
    intros Ht. destruct H as [H|H]; [|assumption].
    apply He in H. congruence.
  - intros pat [H1 H2]. apply He in H1. apply Hw in H2. congruence.
Qed.

(** ** C8 *)

(** C8.  In a reachable state, [remove] with a pattern and id that no
    listener has answers [false], [removeById] with an id that no
    listener has answers [undefined], and each leaves the state as it
    was.  Both are total functions: there is nothing to throw. *)
Theorem failed_removal_changes_nothing pat (listenerId : Types.symbol) st :
  reachable st ->
  ((forall l, In l (allListeners st) -> ~ (pattern l = pat /\ id l = listenerId)) ->
   remove patternMatcher pat listenerId st = (false, st))
  /\ (~ In listenerId (ids (allListeners st)) ->
      removeById listenerId st = (None, st)).
Proof.
  intros Hreach. pose proof (reachable_wf _ _ Hreach) as Hwf. split.
  - now apply remove_noop.
  - now apply removeById_noop.
Qed.

(** ** C9 *)

(** C9.  The function [subscribe] returns may be called at any later
    time: after the first call the listener is gone, and every further
    call, whatever happened to the bus in between, returns the state it
    was given. *)
Theorem unsubscribe_is_idempotent pat (h : Types.ListenerHandler Payload)
    (options : Types.SubscribeOptions) (now : Z) st0 st :
  reachable st0 ->
  steps (snd (subscribe pat h options now st0)) st ->
  let u := fst (subscribe pat h options now st0) in
  ~ In (unsub_id u) (ids (allListeners (unsubscribe u st)))
  /\ unsubscribe u (unsubscribe u st) = unsubscribe u st
  /\ forall st', steps (unsubscribe u st) st' -> unsubscribe u st' = st'.
Proof.
  intros Hreach Hsteps u.
  pose proof (reachable_wf _ _ Hreach) as Hwf0.
  assert (snd (subscribe pat h options now st0) = snd (add patternMatcher pat h options now st0))
    as Esnd by reflexivity.
  assert (u = {| unsub_pattern := pat; unsub_id := nextSymbol st0 |}) as Eu
      by reflexivity.
  rewrite Esnd in Hsteps. rewrite Eu. clear Eu u. unfold unsubscribe. simpl.
  pose proof (add_wf _ patternMatcher pat h options now st0 Hwf0) as Hwf1.
  destruct (steps_wf _ _ _ Hwf1 Hsteps) as [Hwf Hinh].
  (* every listener that carries the id was registered under [pat] *)
  assert (forall l, In l (allListeners st) -> id l = nextSymbol st0 -> pattern l = pat)
    as Hown.
  { intros l Hl Hid. destruct Hinh as [_ Hinh].
    destruct (Hinh l Hl) as [(l1 & Hl1 & Hs)|Hnew].
    - apply (Permutation_in _ (add_allListeners _ patternMatcher pat h options now st0 Hwf0))
        in Hl1 as [<-|Hold].
      + now destruct Hs as (_ & _ & _ & _ & <- & _).
      + apply (wf_fresh Hwf0) in Hold. destruct Hs as (E & _). lia.
    - rewrite add_nextSymbol in Hnew. lia. }
  assert (absent (nextSymbol st0) (snd (remove patternMatcher pat (nextSymbol st0) st))) as Habs.
  { rewrite (remove_pruned _ patternMatcher pat (nextSymbol st0) st Hwf). split.
    - destruct Hinh as [Hn _]. rewrite add_nextSymbol in Hn.
      destruct st; simpl in *. lia.
    - rewrite (isPruned_all _ _ _ _ (isPruned_pruned _ _ _)).
      intros H. apply In_ids in H as (l & Hl & Hid).
      apply filter_In in Hl as [Hl Hkeep].
      rewrite (Hown l Hl Hid), str_eqb_refl in Hkeep.
      apply hasId_true in Hid. rewrite Hid in Hkeep. discriminate. }
  assert (forall st',
             steps (snd (remove patternMatcher pat (nextSymbol st0) st)) st' ->
             snd (remove patternMatcher pat (nextSymbol st0) st') = st') as Hlater.
  { intros st' Hsteps'.
    assert (wf patternMatcher (snd (remove patternMatcher pat (nextSymbol st0) st))) as Hwfr.
    { rewrite (remove_pruned _ patternMatcher pat (nextSymbol st0) st Hwf).
      exact (isPruned_wf _ _ _ _ _ (isPruned_pruned _ _ _) Hwf). }
    destruct (steps_wf _ _ _ Hwfr Hsteps') as [Hwf' Hinh'].
    destruct (absent_inherits _ _ _ Hinh' Habs) as [_ Habs'].
    rewrite remove_noop; [reflexivity|assumption|].
    intros l Hl [_ Hid]. apply Habs', In_ids. now exists l. }
  split; [apply Habs|]. split; [|exact Hlater].
  apply Hlater. constructor.
Qed.

(** ** C10 *)

(** C10.  In every summary [getAll] returns for a reachable state the
    average is guarded: a listener that was never executed has the
    average 0, any other has its cumulative duration divided by its
    execution count, a finite value in both cases. *)
Theorem avgDuration_is_guarded (event : option JS.str) st pat
    (infos : list Types.ListenerInfo) (info : Types.ListenerInfo) :
  reachable st ->
  In (pat, infos) (getAll patternMatcher event st) ->
  In info infos ->
  exists l,
    In l (allListeners st)
    /\ Types.info_id info = id l
    /\ Types.info_executionCount info = executionCount l
    /\ 0 <= executionCount l
    /\ (executionCount l = 0 -> Types.avgDuration info = JS.Finite 0)
    /\ (executionCount l <> 0 ->
        Types.avgDuration info = JS.div (totalDuration l) (executionCount l)
        /\ Types.avgDuration info
           = JS.Finite (inject_Z (totalDuration l) / inject_Z (executionCount l))).
Proof.
  intros Hreach Hin Hinfo. pose proof (reachable_wf _ _ Hreach) as Hwf.
  assert (exists ls, In info (mapListeners ls)
                     /\ forall l, In l ls -> In l (allListeners st))
    as (ls & Hls & Hsub).
  { unfold getAll in Hin.
    apply In_addMatchingToResult in Hin as [Hin|(ls & Hb & ->)].
    - apply In_addMatchingToResult in Hin as [[]|(ls & Hb & ->)].
      exists ls. split; [assumption|]. intros l Hl.
      apply In_allListeners. left. apply In_listenersOf. now exists pat, ls.
    - exists ls. split; [assumption|]. intros l Hl.
      apply In_allListeners. right. apply In_listenersOf. now exists pat, ls. }
  apply in_map_iff in Hls as (l & <- & Hl). exists l.
  pose proof (wf_counted Hwf l (Hsub l Hl)) as Hc. simpl.
  repeat split; auto.
  - intros ->. reflexivity.
  - destruct (Z.ltb_spec 0 (executionCount l)); [reflexivity|lia].
  - destruct (Z.ltb_spec 0 (executionCount l)); [|lia].
    unfold JS.div. destruct (Z.eqb_spec (executionCount l) 0); [lia|reflexivity].
Qed.

End Claims.


(** ** The sample states are reachable *)

Section SampleFacts.
Import ListenerStore EventBus Examples.

Lemma fresh_reachable : reachable fresh.
Proof. apply steps_refl. Qed.

Lemma wildcardOnly_reachable : reachable wildcardOnly.
Proof.
  exact (steps_step fresh_reachable
           (step_add userAny succeeding Types.noOptions 1000 fresh)).
Qed.

Lemma wildcardThenExact_reachable : reachable wildcardThenExact.
Proof.
  exact (steps_step wildcardOnly_reachable
           (step_add userLogin succeeding Types.noOptions 1000 wildcardOnly)).
Qed.

Lemma failingOnceThenOk_reachable : reachable failingOnceThenOk.
Proof.
  exact (steps_step
           (steps_step fresh_reachable
              (step_add userLogin throwing onceOnly 1000 fresh))
           (step_add userLogin succeeding Types.noOptions 1001 failingOnce)).
Qed.

Lemma succeedingOnce_reachable : reachable succeedingOnce.
Proof.
  exact (steps_step fresh_reachable
           (step_add userLogin succeeding onceOnly 1000 fresh)).
Qed.

Lemma afterLogin_reachable : reachable afterLogin.
Proof.
  exact (steps_step wildcardThenExact_reachable
           (step_emit userLogin tt wildcardThenExact)).
Qed.

End SampleFacts.

(** ** Witnesses of the claims that hold *)

Section Witnesses.
Import ListenerStore HandlerExecutor EventBus Examples.

Local Open Scope Z_scope.

Lemma handler_failure_is_isolated_witness :
  NoDup (ids (getMatching pm userLogin failingOnceThenOk))
  /\ reachable failingOnceThenOk
  /\ In failingListener (getMatching pm userLogin failingOnceThenOk)
  /\ succeeds tt failingListener = false
  /\ ids (called (execute tt (getMatching pm userLogin failingOnceThenOk)))
     = [0%nat; 1%nat]
  /\ fst (emit userLogin tt failingOnceThenOk) = Promise.Fulfilled tt
  /\ In 0%nat (ids (allListeners (snd (emit userLogin tt failingOnceThenOk)))).
Proof.
  destruct (handler_failure_is_isolated _ tt
              (getMatching pm userLogin failingOnceThenOk))
    as (_ & Hcalled & Hemit & Hstays).
  assert (In failingListener (getMatching pm userLogin failingOnceThenOk)) as Hin
      by (left; reflexivity).
  split; [apply getMatching_NoDup, reachable_wf, failingOnceThenOk_reachable|].
  split; [apply failingOnceThenOk_reachable|].
  split; [exact Hin|].
  split; [reflexivity|].
  split; [exact Hcalled|].
  split; [apply Hemit|].
  exact (Hstays userLogin failingOnceThenOk failingListener
           failingOnceThenOk_reachable Hin eq_refl).
Defined.

Lemma once_listener_fires_once_witness :
  reachable succeedingOnce
  /\ In onceListener (getMatching pm userLogin succeedingOnce)
  /\ ListenerStore.once onceListener = true
  /\ succeeds tt onceListener = true
  /\ count_occ Nat.eq_dec
       (ids (called (execute tt (getMatching pm userLogin succeedingOnce)))) 0%nat
     = 1%nat
  /\ ~ In 0%nat
       (ids (getMatching pm userLogin (snd (emit userLogin tt succeedingOnce))))
  /\ ~ In 0%nat
       (ids (called
               (execute tt
                  (getMatching pm userLogin
                     (snd (emit userLogin tt succeedingOnce)))))).
Proof.
  assert (In onceListener (getMatching pm userLogin succeedingOnce)) as Hin
      by (left; reflexivity).
  destruct (once_listener_fires_once _ userLogin tt succeedingOnce onceListener
              succeedingOnce_reachable Hin eq_refl eq_refl) as [Hcount Hgone].
  split; [apply succeedingOnce_reachable|].
  split; [exact Hin|].
  split; [reflexivity|].
  split; [reflexivity|].
  split; [exact Hcount|].
  destruct (Hgone _ (steps_refl _) userLogin) as [Hselect Hcall].
  split; [exact Hselect|exact (Hcall tt)].
Defined.

Lemma removeAll_by_name_is_textual_witness :
  reachable wildcardThenExact
  /\ In wildcardListener (allListeners wildcardThenExact)
  /\ pattern wildcardListener <> userLogin
  /\ PatternMatcher.matches pm (pattern wildcardListener) userLogin = true
  /\ In wildcardListener
       (getMatching pm userLogin (snd (removeAll (Some userLogin) wildcardThenExact)))
  /\ ~ In exactListener
       (allListeners (snd (removeAll (Some userLogin) wildcardThenExact))).
Proof.
  destruct (removeAll_by_name_is_textual _ userLogin wildcardThenExact
              wildcardThenExact_reachable) as [Hall Hstays].
  assert (In wildcardListener (allListeners wildcardThenExact)) as Hin
      by (right; left; reflexivity).
  assert (pattern wildcardListener <> userLogin) as Hne by discriminate.
  split; [apply wildcardThenExact_reachable|].
  split; [exact Hin|].
  split; [exact Hne|].
  split; [reflexivity|].
  split; [exact (Hstays wildcardListener Hin Hne eq_refl)|].
  intros H. apply Hall in H as [_ H]. now apply H.
Defined.

Lemma reachable_buckets_invariant_witness :
  reachable wildcardThenExact
  /\ (In userAny (JSMap.keys (wildcardPatterns wildcardThenExact))
      <-> PatternMatcher.hasWildcard pm userAny = true)
  /\ ~ (In userLogin (JSMap.keys (exactMatches wildcardThenExact))
        /\ In userLogin (JSMap.keys (wildcardPatterns wildcardThenExact))).
Proof.
  destruct (reachable_buckets_invariant _ wildcardThenExact
              wildcardThenExact_reachable) as (_ & Hside & Hone & _).
  split; [apply wildcardThenExact_reachable|].
  split; [apply Hside; right; left; reflexivity|].
  apply Hone.
Defined.

Lemma failed_removal_changes_nothing_witness :
  reachable wildcardThenExact
  /\ (forall l, In l (allListeners wildcardThenExact) ->
                ~ (pattern l = userLogin /\ id l = 7%nat))
  /\ ~ In 7%nat (ids (allListeners wildcardThenExact))
  /\ remove pm userLogin 7%nat wildcardThenExact = (false, wildcardThenExact)
  /\ removeById 7%nat wildcardThenExact = (None, wildcardThenExact).
Proof.
  destruct (failed_removal_changes_nothing _ userLogin 7%nat wildcardThenExact
              wildcardThenExact_reachable) as [Hremove HremoveById].
  assert (~ In 7%nat (ids (allListeners wildcardThenExact))) as Hno.
  { simpl. intros [H|[H|[]]]; discriminate H. }
  assert (forall l, In l (allListeners wildcardThenExact) ->
                    ~ (pattern l = userLogin /\ id l = 7%nat)) as Hnone.
  { intros l Hl [_ Hid]. apply Hno. rewrite <- Hid. now apply in_map. }
  split; [apply wildcardThenExact_reachable|].
  split; [exact Hnone|].
  split; [exact Hno|].
  split; [exact (Hremove Hnone)|].
  exact (HremoveById Hno).
Defined.

Lemma unsubscribe_is_idempotent_witness :
  reachable fresh
  /\ steps (snd (subscribe userLogin succeeding Types.noOptions 1000 fresh))
       (snd (subscribe userLogin succeeding Types.noOptions 1000 fresh))
  /\ unsubscribe (fst (subscribe userLogin succeeding Types.noOptions 1000 fresh))
       (unsubscribe (fst (subscribe userLogin succeeding Types.noOptions 1000 fresh))
          (snd (subscribe userLogin succeeding Types.noOptions 1000 fresh)))
     = unsubscribe (fst (subscribe userLogin succeeding Types.noOptions 1000 fresh))
         (snd (subscribe userLogin succeeding Types.noOptions 1000 fresh)).
Proof.
  destruct (unsubscribe_is_idempotent _ userLogin succeeding Types.noOptions 1000
              fresh (snd (subscribe userLogin succeeding Types.noOptions 1000 fresh))
              fresh_reachable (steps_refl _)) as (_ & Hidem & _).
  split; [apply fresh_reachable|].
  split; [apply steps_refl|].
  exact Hidem.
Defined.

Lemma avgDuration_is_guarded_witness :
  reachable afterLogin
  /\ In (userLogin, [exactSummary]) (getAll pm None afterLogin)
  /\ In exactSummary [exactSummary]
  /\ exists l,
       In l (allListeners afterLogin)
       /\ Types.info_id exactSummary = id l
       /\ executionCount l <> 0
       /\ Types.avgDuration exactSummary
          = JS.Finite (inject_Z (totalDuration l) / inject_Z (executionCount l)).
Proof.
  assert (In (userLogin, [exactSummary]) (getAll pm None afterLogin)) as Hin
      by (left; reflexivity).
  destruct (avgDuration_is_guarded _ None afterLogin userLogin [exactSummary]
              exactSummary afterLogin_reachable Hin (or_introl eq_refl))
    as (l & Hl & Hid & Hcount & _ & _ & Havg).
  split; [apply afterLogin_reachable|].
  split; [exact Hin|].
  split; [now left|].
  assert (executionCount l <> 0) as Hne.
  { simpl in Hcount. rewrite <- Hcount. discriminate. }
  exists l. split; [exact Hl|]. split; [exact Hid|]. split; [exact Hne|].
  now apply Havg.
Defined.

End Witnesses.


(** ** Where the code departs from the specification *)

Section Ordering.
Variable Payload : Type.
Variable pm : PatternMatcher.Interface.
Import ListenerStore.
Implicit Types (l : Listener Payload) (ls : list (Listener Payload))
  (st : State Payload) (event : JS.str).

Local Open Scope Z_scope.

(** What [getMatching] does guarantee: the listeners the event name
    selects, each once, higher priority first and earlier timestamp
    first among equal priorities. *)
Lemma getMatching_sorted event st :
  StronglySorted before (getMatching pm event st).
Proof. apply sortByPriority_sorted. Qed.

Lemma StronglySorted_refine (R R' : Listener Payload -> Listener Payload -> Prop) ls :
  (forall a b, In a ls -> In b ls -> id a <> id b -> R a b -> R' a b) ->
  NoDup (ids ls) ->
  StronglySorted R ls -> StronglySorted R' ls.
Proof.
  intros Href Hnd Hs. induction Hs as [|a ls Hs IH Hall]; constructor.
  - apply IH.
    + intros x y Hx Hy. apply Href; now right.
    + now inversion Hnd.
  - rewrite Forall_forall in *. intros b Hb.
    apply Href; [now left|now right| |now apply Hall].
    intros E. inversion Hnd as [|? ? Ha _]; subst. apply Ha.
    rewrite E. now apply in_map.
Qed.

(** When the clock has told all registrations apart, the order of
    [getMatching] is the order of registration among equal
    priorities. *)
Lemma getMatching_fifo_when_chronological event st :
  wf pm st -> chronological st ->
  StronglySorted fifo (getMatching pm event st).
Proof.
  intros Hwf Hchron.
  apply (StronglySorted_refine before fifo).
  - intros a b Ha Hb Hne [Hlt|[Heq Hle]]; [now left|]. right.
    split; [assumption|].
    apply (In_getMatching _ pm event st a Hwf) in Ha as [Ha _].
    apply (In_getMatching _ pm event st b Hwf) in Hb as [Hb _].
    destruct (Nat.lt_trichotomy (id a) (id b)) as [H|[H|H]];
      [assumption|contradiction|].
    pose proof (Hchron b a Hb Ha H). lia.
  - now apply getMatching_NoDup.
  - apply getMatching_sorted.
Qed.

(** What [removeAll] does report: with no argument every listener, with
    an event name that holds no wildcard token the listeners of that
    pattern; in both cases exactly the listeners the call removed. *)
Lemma collectAllListeners_ids (m : Buckets Payload) :
  map snd (collectAllListeners m) = ids (listenersOf m).
Proof.
  induction m as [|[pat ls] m IH]; [reflexivity|].
  change (collectAllListeners ((pat, ls) :: m))
    with (map (fun l => (pat, id l)) ls ++ collectAllListeners m).
  change (listenersOf ((pat, ls) :: m)) with (ls ++ listenersOf m).
  rewrite map_app, ids_app, IH, map_map. reflexivity.
Qed.

Lemma removeAll_reports (event : option JS.str) st :
  wf pm st ->
  match event with
  | Some ev => PatternMatcher.hasWildcard pm ev = false
  | None => True
  end ->
  map snd (fst (removeAll event st))
  = ids (filter
           (fun l =>
              match event with
              | Some ev => JS.eqb (pattern l) ev
              | None => true
              end)
           (allListeners st)).
Proof.
  intros Hwf Hev. destruct event as [ev|]; simpl.
  - rewrite map_map. simpl. fold (ids (Types.orElse (JSMap.get ev (exactMatches st)) [])).
    rewrite (get_as_filter _ pm false _ ev (wf_exact Hwf)).
    unfold allListeners. rewrite filter_app.
    rewrite (filter_none _ _ (listenersOf (wildcardPatterns st))).
    + now rewrite app_nil_r.
    + intros l Hl. apply str_eqb_neq. intros E.
      pose proof (bucketsOk_side _ _ _ _ _ (wf_wildcard Hwf) Hl) as Hs.
      congruence.
  - rewrite map_app, !collectAllListeners_ids, <- ids_app.
    now rewrite filter_id.
Qed.

End Ordering.

Section Chronology.
Variable Payload : Type.
Import ListenerStore HandlerExecutor EventBus.
Implicit Types (l : Listener Payload) (st : State Payload) (event pat : JS.str).

Local Open Scope Z_scope.

Lemma emit_nextSymbol event (payload : Payload) st :
  wf patternMatcher st ->
  nextSymbol (snd (emit event payload st)) = nextSymbol st.
Proof.
  intros Hwf. rewrite emit_spec. cbn [snd].
  pose proof (emit_seen_same _ event payload st Hwf) as Hsame.
  pose proof (sameState_wf _ _ _ _ Hsame Hwf) as Hwf1.
  destruct (removeEach_pruned _
              (ids (filter (fun l => succeeds payload l && ListenerStore.once l)
                      (getMatching patternMatcher event st)))
              _ Hwf1) as (_ & _ & ->).
  now destruct Hsame as (_ & _ & ->).
Qed.

(** Only [add] draws a symbol. *)
Lemma step_nextSymbol st st' :
  wf patternMatcher st -> step st st' ->
  nextSymbol st' = nextSymbol st
  \/ exists pat h options now,
       st' = snd (add patternMatcher pat h options now st).
Proof.
  intros Hwf Hstep.
  destruct Hstep as [pat h options now st|pat listenerId st|listenerId st
                    |event st|listenerId elapsed st|listenerId st|st
                    |event payload st].
  - right. now exists pat, h, options, now.
  - left. rewrite (remove_pruned _ patternMatcher pat listenerId st Hwf).
    now destruct st.
  - left. destruct (removeById_pruned _ patternMatcher listenerId st Hwf) as [-> _].
    now destruct st.
  - left. rewrite (removeAll_pruned _ patternMatcher event st Hwf). now destruct st.
  - left. now destruct (updateStats_same _ listenerId elapsed st) as (_ & _ & ->).
  - left. reflexivity.
  - left. now destruct (removeMarked_pruned _ patternMatcher st Hwf) as (_ & _ & ->).
  - left. now apply emit_nextSymbol.
Qed.

Lemma add_chronological pat (h : Types.ListenerHandler Payload)
    (options : Types.SubscribeOptions) (now : Z) st :
  wf patternMatcher st -> chronological st -> clockAhead now st ->
  chronological (snd (add patternMatcher pat h options now st)).
Proof.
  intros Hwf Hchron Hclock a b Ha Hb Hlt.
  pose proof (add_allListeners _ patternMatcher pat h options now st Hwf) as Hperm.
  apply (Permutation_in _ Hperm) in Ha. apply (Permutation_in _ Hperm) in Hb.
  destruct Ha as [<-|Ha], Hb as [<-|Hb]; simpl in *.
  - lia.
  - apply (wf_fresh Hwf) in Hb. lia.
  - now apply Hclock.
  - now apply Hchron.
Qed.

(** A clock that has moved on at every registration keeps the
    timestamps in the order of registration; with
    [getMatching_fifo_when_chronological] this is the case in which
    listeners of equal priority run first in, first out. *)
Lemma step_chronological st st' :
  wf patternMatcher st -> chronological st -> step st st' ->
  (forall pat h options now,
      st' = snd (add patternMatcher pat h options now st) -> clockAhead now st) ->
  chronological st'.
Proof.
  intros Hwf Hchron Hstep Hclock.
  destruct (step_wf _ _ _ Hwf Hstep) as [Hwf' [_ Hinh]].
  destruct (step_nextSymbol _ _ Hwf Hstep) as [Hn|(pat & h & options & now & ->)].
  - assert (forall l', In l' (allListeners st') ->
                       exists l, In l (allListeners st)
                                 /\ id l = id l' /\ addedAt l = addedAt l') as Hanc.
    { intros l' Hl'. destruct (Hinh l' Hl') as [(l & Hl & Hs)|Hnew].
      - exists l. destruct Hs as (? & _ & _ & _ & _ & ?). auto.
      - apply (wf_fresh Hwf') in Hl'. lia. }
    intros a b Ha Hb Hlt.
    destruct (Hanc a Ha) as (a0 & Ha0 & Eia & Eta).
    destruct (Hanc b Hb) as (b0 & Hb0 & Eib & Etb).
    rewrite <- Eta, <- Etb. apply Hchron; try assumption. lia.
  - apply add_chronological; try assumption. now apply (Hclock pat h options now).
Qed.

End Chronology.

Section CodeBugs.
Import ListenerStore EventBus Examples.

Local Open Scope Z_scope.

(** The examples of the specification for the matcher hold. *)
Lemma matches_examples :
  PatternMatcher.matchesImpl (JS.lit "user:*") (JS.lit "user:login") = true
  /\ PatternMatcher.matchesImpl (JS.lit "user:*") (JS.lit "admin:login") = false
  /\ PatternMatcher.matchesImpl (JS.lit "*") (JS.lit "anything") = true
  /\ PatternMatcher.matchesImpl (JS.lit "a.b") (JS.lit "a.b") = true
  /\ PatternMatcher.matchesImpl (JS.lit "a.b") (JS.lit "aXb") = false.
Proof. repeat split. Qed.

(** Three listeners of equal priority on one pattern come back in the
    order of their registration, also within one millisecond. *)
Lemma getMatching_threeEqual :
  ids (getMatching pm userLogin threeEqual) = [0; 1; 2]%nat.
Proof. reflexivity. Qed.

(** The scenario of the specification: the first emission runs H1, H2,
    H3, it retires H2, and the second runs H1, H3. *)
Lemma scenario_order :
  ids (getMatching pm xy scenario) = [0; 1; 2]%nat
  /\ ids (getMatching pm xy (snd (emit xy tt scenario))) = [0; 2]%nat.
Proof. split; reflexivity. Qed.

(** C1.  Two listeners of priority 0 registered within one millisecond,
    the first under [user:*], the second under [user:login]: for the
    event [user:login] the code returns the second before the first,
    where the claim promises the order of registration. *)
Theorem getMatching_ties_follow_bucket_order :
  ids (allListeners wildcardOnly) = [0%nat]
  /\ Permutation (ids (allListeners wildcardThenExact)) [0%nat; 1%nat]
  /\ map (@priority unit) (getMatching pm userLogin wildcardThenExact) = [0; 0]
  /\ map (@addedAt unit) (getMatching pm userLogin wildcardThenExact) = [1000; 1000]
  /\ ids (getMatching pm userLogin wildcardThenExact) = [1%nat; 0%nat].
Proof.
  split; [reflexivity|]. split; [apply perm_swap|]. repeat split.
Qed.

(** C4.  A store that holds one listener under [user:*]:
    [removeAll('user:*')] removes it and reports nothing. *)
Theorem removeAll_wildcard_name_reports_nothing :
  ids (allListeners wildcardOnly) = [0%nat]
  /\ fst (removeAll (Some userAny) wildcardOnly) = []
  /\ allListeners (snd (removeAll (Some userAny) wildcardOnly)) = [].
Proof. repeat split. Qed.

(** C6.  The event name [user:a], line feed, [b] begins with [user:],
    so the pattern [user:*] stands for it when the wildcard is any run
    of characters; the code answers [false], its wildcard does not
    cross a line terminator. *)
Theorem matches_wildcard_stops_at_line_terminator :
  PatternMatcher.Glob PatternMatcher.anyChar userAny userTwoLines
  /\ PatternMatcher.matchesImpl userAny userTwoLines = false
  /\ PatternMatcher.matchesImpl [RegExp.STAR] userTwoLines = true.
Proof.
  split; [|split; reflexivity].
  unfold userAny, userTwoLines.
  repeat (apply PatternMatcher.Glob_char; [discriminate|]).
  apply Glob_star_all. reflexivity.
Qed.

End CodeBugs.


(* ================================================================= *)
(** * Further properties of the code *)

(** ** The pattern matcher *)

Section MatcherMore.
Import PatternMatcher.
Local Open Scope N_scope.

Lemma Glob_app_literal (any : JS.char -> bool) (prefix pattern event : JS.str) :
  ~ In RegExp.STAR prefix ->
  (Glob any (prefix ++ pattern) event
   <-> exists rest, event = prefix ++ rest /\ Glob any pattern rest).
Proof.
  revert event. induction prefix as [|c prefix IH]; intros event Hno; simpl.
  - split; [intros H; now exists event|now intros (rest & -> & H)].
  - assert (c <> RegExp.STAR) as Hc by (intros E; apply Hno; now left).
    assert (~ In RegExp.STAR prefix) as Hno' by (intros E; apply Hno; now right).
    split.
    + intros H. apply Glob_char_inv in H as (event' & -> & H); [|assumption].
      apply IH in H as (rest & -> & H); [|assumption]. now exists rest.
    + intros (rest & -> & H). constructor; [assumption|].
      apply IH; [assumption|]. now exists rest.
Qed.

Lemma Glob_star_only (any : JS.char -> bool) (event : JS.str) :
  Glob any [RegExp.STAR] event <-> forallb any event = true.
Proof.
  split.
  - induction event as [|x event IH]; intros H; [reflexivity|].
    inversion H; subst; try congruence.
    + match goal with H' : Glob _ [] _ |- _ => inversion H' end.
    + simpl. apply andb_true_iff. auto.
  - intros H. apply Glob_star_all. now apply forallb_forall.
Qed.

(** X1.  [matches] answers [true] in exactly three cases: the pattern is
    the single wildcard token, the pattern is the event name, or the
    event name arises from the pattern when every wildcard token is
    replaced by a run of characters that are no line terminators and
    every other character, the special characters of regular
    expressions among them, stands for itself. *)
Theorem matches_in_three_cases (pattern event : JS.str) :
  matchesImpl pattern event = true
  <-> pattern = [RegExp.STAR] \/ pattern = event
      \/ Glob notLineTerminator pattern event.
Proof. apply matches_spec. Qed.

(** X2.  A pattern without the wildcard token matches its own text and
    nothing else, whatever characters it holds. *)
Theorem literal_pattern_matches_only_itself (pattern event : JS.str) :
  hasWildcardImpl pattern = false ->
  matchesImpl pattern event = JS.eqb pattern event.
Proof.
  intros Hw. destruct (str_eqb_spec pattern event) as [->|Hne].
  - apply matches_refl.
  - destruct (matchesImpl pattern event) eqn:E; [|reflexivity].
    exfalso. apply Hne. now apply (matches_literal _ _ Hw).
Qed.

(** X3.  A pattern that is a non-empty literal prefix followed by one
    wildcard token matches exactly the event names that begin with the
    prefix and go on without a line terminator. *)
Theorem prefix_wildcard_matches_continuations (prefix event : JS.str) :
  hasWildcardImpl prefix = false ->
  prefix <> [] ->
  (matchesImpl (prefix ++ [RegExp.STAR]) event = true
   <-> exists rest,
         event = prefix ++ rest /\ forallb notLineTerminator rest = true).
Proof.
  intros Hw Hne.
  assert (~ In RegExp.STAR prefix) as Hno.
  { rewrite <- hasWildcard_In. congruence. }
  rewrite matches_spec, (Glob_app_literal _ _ _ _ Hno).
  setoid_rewrite Glob_star_only. split.
  - intros [E|[<-|H]]; [|exists [RegExp.STAR]; now split|exact H].
    destruct prefix as [|c prefix]; [congruence|].
    simpl in E. injection E as _ E. now destruct prefix.
  - intros H. right. right. exact H.
Qed.

(** X4.  The cache of compiled patterns is invisible and never
    recompiles: with a cache that holds only regexes compiled from
    their keys, a call of [matches] returns normally with the answer of
    the uncached function and leaves such a cache; a pattern that is in
    the cache leaves the cache as it is; and a call that had to use the
    regex leaves the pattern in the cache. *)
Theorem pattern_cache_is_transparent (pattern event : JS.str) (cache : Cache) :
  cacheOk cache ->
  fst (matchesCached pattern event cache) = Some (matchesImpl pattern event)
  /\ cacheOk (snd (matchesCached pattern event cache))
  /\ ((exists regex, cacheGet pattern cache = Some regex) ->
      snd (matchesCached pattern event cache) = cache)
  /\ (pattern <> [RegExp.STAR] -> pattern <> event ->
      exists regex,
        cacheGet pattern (snd (matchesCached pattern event cache)) = Some regex).
Proof.
  intros Hok. destruct (matchesCached_sound pattern event cache Hok) as [H1 H2].
  split; [exact H1|]. split; [exact H2|]. unfold matchesCached. split.
  - intros (regex & Hget).
    destruct (JS.eqb pattern [RegExp.STAR]); [reflexivity|].
    destruct (JS.eqb pattern event); [reflexivity|]. now rewrite Hget.
  - intros Hstar Hne. apply str_eqb_neq in Hstar, Hne. rewrite Hstar, Hne.
    destruct (cacheGet pattern cache) as [regex|] eqn:Hget.
    + exists regex. exact Hget.
    + rewrite parse_regexSource. simpl. rewrite str_eqb_refl. eauto.
Qed.

End MatcherMore.


(** ** The listener store *)

Section StoreMore.
Variable Payload : Type.
Variable pm : PatternMatcher.Interface.
Import ListenerStore StoreViews.
Implicit Types (m : Buckets Payload) (l : Listener Payload) (st : State Payload)
  (ls : list (Listener Payload)) (pat : JS.str)
  (f : Listener Payload -> Listener Payload).

Local Open Scope Z_scope.

Lemma state_ext st st' :
  exactMatches st = exactMatches st' ->
  wildcardPatterns st = wildcardPatterns st' ->
  markedForRemoval st = markedForRemoval st' ->
  nextSymbol st = nextSymbol st' ->
  st = st'.
Proof. destruct st, st'. simpl. now intros -> -> -> ->. Qed.

(** *** Objects changed in place *)

Lemma listenersOf_rewrite f m :
  listenersOf (rewriteBuckets f m) = map f (listenersOf m).
Proof.
  induction m as [|[pat ls] m IH]; [reflexivity|].
  change (listenersOf (rewriteBuckets f ((pat, ls) :: m)))
    with (map f ls ++ listenersOf (rewriteBuckets f m)).
  change (listenersOf ((pat, ls) :: m)) with (ls ++ listenersOf m).
  now rewrite IH, map_app.
Qed.

Lemma map_fixed (A : Type) (g : A -> A) (xs : list A) :
  (forall x, In x xs -> g x = x) -> map g xs = xs.
Proof.
  induction xs as [|x xs IH]; intros H; [reflexivity|].
  simpl. rewrite (H x) by now left. f_equal. apply IH. intros; apply H; now right.
Qed.

Lemma rewriteBuckets_fixed f m :
  (forall l, In l (listenersOf m) -> f l = l) -> rewriteBuckets f m = m.
Proof.
  induction m as [|[pat ls] m IH]; intros H; [reflexivity|].
  simpl. rewrite map_fixed, IH; [reflexivity| |].
  - intros l Hl. apply H. simpl. apply in_or_app. now right.
  - intros l Hl. apply H. simpl. apply in_or_app. now left.
Qed.

Lemma rewriteBuckets_keys f m : JSMap.keys (rewriteBuckets f m) = JSMap.keys m.
Proof. unfold JSMap.keys, rewriteBuckets. rewrite map_map. reflexivity. Qed.

Lemma withStats_other listenerId duration ls :
  ~ In listenerId (ids ls) -> map (withStats listenerId duration) ls = ls.
Proof.
  intros H. apply map_fixed. intros l Hl. unfold withStats.
  destruct (hasId listenerId l) eqn:E; [|reflexivity].
  exfalso. apply H, In_ids. exists l. split; [assumption|now apply hasId_true].
Qed.

Lemma updateFirst_char listenerId duration ls :
  NoDup (ids ls) ->
  updateFirst listenerId duration ls
  = if existsb (hasId listenerId) ls
    then Some (map (withStats listenerId duration) ls)
    else None.
Proof.
  induction ls as [|l ls IH]; intros Hnd; [reflexivity|].
  simpl in Hnd. inversion Hnd as [|? ? Hl Hnd']; subst.
  simpl. unfold withStats at 1. destruct (hasId listenerId l) eqn:E; simpl.
  - apply hasId_true in E. subst listenerId.
    now rewrite withStats_other.
  - rewrite (IH Hnd'). now destruct (existsb (hasId listenerId) ls).
Qed.

Lemma findAndUpdate_char listenerId duration m :
  NoDup (ids (listenersOf m)) ->
  findAndUpdate listenerId duration m
  = (existsb (hasId listenerId) (listenersOf m),
     rewriteBuckets (withStats listenerId duration) m).
Proof.
  induction m as [|[pat ls] m IH]; intros Hnd; [reflexivity|].
  change (listenersOf ((pat, ls) :: m)) with (ls ++ listenersOf m) in *.
  rewrite ids_app in Hnd. rewrite existsb_app. simpl.
  rewrite (updateFirst_char _ _ _ (NoDup_app_remove_r _ _ Hnd)).
  destruct (existsb (hasId listenerId) ls) eqn:E.
  - simpl. f_equal. f_equal. symmetry. apply rewriteBuckets_fixed.
    intros l Hl. unfold withStats.
    destruct (hasId listenerId l) eqn:El; [|reflexivity].
    exfalso. apply existsb_hasId in E.
    apply (NoDup_app_disjoint _ _ _ listenerId Hnd E).
    apply In_ids. exists l. split; [assumption|now apply hasId_true].
  - rewrite (IH (NoDup_app_remove_l _ _ Hnd)). simpl. f_equal. f_equal. f_equal.
    symmetry. apply withStats_other. rewrite <- existsb_hasId. congruence.
Qed.

(** What [updateStats] does to a well-formed state. *)
Lemma updateStats_char listenerId duration st :
  wf pm st ->
  updateStats listenerId duration st
  = withWildcard
      (rewriteBuckets (withStats listenerId duration) (wildcardPatterns st))
      (withExact
         (rewriteBuckets (withStats listenerId duration) (exactMatches st)) st).
Proof.
  intros Hwf. pose proof (wf_unique Hwf) as Hnd.
  unfold allListeners in Hnd. rewrite ids_app in Hnd.
  unfold updateStats.
  rewrite (findAndUpdate_char _ _ _ (NoDup_app_remove_r _ _ Hnd)).
  rewrite (findAndUpdate_char _ _ _ (NoDup_app_remove_l _ _ Hnd)).
  destruct (existsb (hasId listenerId) (listenersOf (exactMatches st))) eqn:E.
  - rewrite (rewriteBuckets_fixed _ (wildcardPatterns st)); [now destruct st|].
    intros l Hl. unfold withStats.
    destruct (hasId listenerId l) eqn:El; [|reflexivity].
    exfalso. apply existsb_hasId in E.
    apply (NoDup_app_disjoint _ _ _ listenerId Hnd E).
    apply In_ids. exists l. split; [assumption|now apply hasId_true].
  - simpl. rewrite (rewriteBuckets_fixed _ (exactMatches st)); [now destruct st|].
    intros l Hl. unfold withStats.
    destruct (hasId listenerId l) eqn:El; [|reflexivity].
    exfalso. assert (existsb (hasId listenerId) (listenersOf (exactMatches st)) = true)
      as Ht; [|congruence].
    apply existsb_exists. now exists l.
Qed.

(** *** Sorted buckets *)

Lemma StronglySorted_filter (A : Type) (R : A -> A -> Prop) (keep : A -> bool)
    (xs : list A) :
  StronglySorted R xs -> StronglySorted R (filter keep xs).
Proof.
  induction 1 as [|x xs Hs IH Hall]; simpl; [constructor|].
  destruct (keep x); [|assumption]. constructor; [assumption|].
  rewrite Forall_forall in *. intros y Hy. apply Hall.
  now apply filter_In in Hy.
Qed.

Lemma before_newer (a a' b b' : Listener Payload) :
  newerVersion a a' -> newerVersion b b' -> before a b -> before a' b'.
Proof.
  intros [(_ & _ & Pa & _ & _ & Ta) _] [(_ & _ & Pb & _ & _ & Tb) _].
  unfold before. rewrite <- Pa, <- Pb, <- Ta, <- Tb. tauto.
Qed.

Lemma StronglySorted_newer ls ls' :
  Forall2 newerVersion ls ls' ->
  StronglySorted before ls -> StronglySorted before ls'.
Proof.
  induction 1 as [|a a' ls ls' Ha Hls IH]; intros Hs; [constructor|].
  inversion Hs as [|? ? Hs' Hall]; subst. constructor; [now apply IH|].
  clear IH Hs Hs'. induction Hls as [|b b' ls ls' Hb _ IH]; constructor.
  - inversion Hall; subst. eapply before_newer; eassumption.
  - apply IH. now inversion Hall.
Qed.

Lemma isPruned_sorted (keep : Listener Payload -> bool) st st' :
  isPruned keep st st' -> bucketsSorted st -> bucketsSorted st'.
Proof.
  intros (He & Hw & _) Hs pat ls' Hin. rewrite He, Hw in Hin.
  destruct Hin as [Hin|Hin]; apply In_prune in Hin as (ls & Hin & -> & _);
    apply StronglySorted_filter; apply (Hs pat ls); auto.
Qed.

Lemma sameState_sorted st st' :
  sameState st st' -> bucketsSorted st -> bucketsSorted st'.
Proof.
  intros (He & Hw & _) Hs pat ls' [Hin|Hin].
  - destruct (sameBuckets_In_bucket _ _ _ _ _ He Hin) as (ls & Hin' & Hf).
    apply (StronglySorted_newer _ _ Hf). apply (Hs pat ls). now left.
  - destruct (sameBuckets_In_bucket _ _ _ _ _ Hw Hin) as (ls & Hin' & Hf).
    apply (StronglySorted_newer _ _ Hf). apply (Hs pat ls). now right.
Qed.

Lemma add_sorted pat (h : Types.ListenerHandler Payload)
    (options : Types.SubscribeOptions) (now : Z) st :
  bucketsSorted st -> bucketsSorted (snd (add pm pat h options now st)).
Proof.
  intros Hs k ls. unfold add, putMapForPattern, getMapForPattern. simpl.
  destruct (PatternMatcher.hasWildcard pm pat); simpl; intros [Hin|Hin].
  - apply (Hs k ls). now left.
  - apply In_set in Hin as [[-> ->]|Hin]; [apply sortByPriority_sorted|].
    apply (Hs k ls). now right.
  - apply In_set in Hin as [[-> ->]|Hin]; [apply sortByPriority_sorted|].
    apply (Hs k ls). now left.
  - apply (Hs k ls). now right.
Qed.

(** A sorted bucket gets the new listener put in at one place, the rest
    stays as it is. *)
Lemma sortByPriority_snoc ls new :
  StronglySorted before ls ->
  exists front back,
    ls = front ++ back /\ sortByPriority (ls ++ [new]) = front ++ new :: back.
Proof.
  unfold sortByPriority.
  induction 1 as [|a ls Hs IH Hall].
  - exists [], []. split; reflexivity.
  - destruct IH as (front & back & -> & Hsort). simpl. rewrite Hsort.
    rewrite Forall_forall in Hall.
    assert (forall y, In y (front ++ back) -> (comparePriority a y <=? 0) = true)
      as Hle.
    { intros y Hy. apply Z.leb_le. apply comparePriority_before. now apply Hall. }
    destruct front as [|y front].
    + simpl. destruct (comparePriority a new <=? 0) eqn:E.
      * exists [a], back. split; reflexivity.
      * exists [], (a :: back). split; [reflexivity|]. f_equal.
        destruct back as [|y back]; [reflexivity|]. simpl.
        now rewrite (Hle y (or_introl eq_refl)).
    + simpl. rewrite (Hle y (or_introl eq_refl)).
      exists (a :: y :: front), back. split; reflexivity.
Qed.

Lemma withoutId_fresh listenerId ls :
  ~ In listenerId (ids ls) -> withoutId listenerId ls = ls.
Proof.
  intros H. apply filter_id. intros l Hl. apply negb_true_iff, hasId_false.
  intros E. apply H, In_ids. now exists l.
Qed.

Lemma get_set_same (V : Type) (k : JS.str) (v : V) (mp : JSMap.t V) :
  JSMap.get k (JSMap.set k v mp) = Some v.
Proof.
  induction mp as [|[k' v'] mp IH]; simpl.
  - now rewrite str_eqb_refl.
  - destruct (str_eqb_spec k k') as [->|Hne]; simpl.
    + now rewrite str_eqb_refl.
    + apply str_eqb_neq in Hne. now rewrite Hne.
Qed.

(** [add] followed by [remove] of what it added, on one map. *)
Lemma set_then_remove wild m pat new :
  bucketsOk pm wild m ->
  (forall ls, In (pat, ls) m -> StronglySorted before ls) ->
  ~ In (id new) (ids (listenersOf m)) ->
  let added :=
    JSMap.set pat (sortByPriority (Types.orElse (JSMap.get pat m) [] ++ [new])) m in
  deleteOrSet pat
    (withoutId (id new) (Types.orElse (JSMap.get pat added) [])) added
  = m.
Proof.
  intros Hok Hsorted Hfresh added. unfold added. rewrite get_set_same. simpl.
  destruct (JSMap.get pat m) as [existing|] eqn:G; simpl.
  - apply get_In in G.
    destruct (bucket_split _ _ _ _ (proj1 Hok) G) as (pre & post & E & Hpre & Hpost).
    destruct (sortByPriority_snoc existing new (Hsorted _ G))
      as (front & back & Hex & ->).
    assert (~ In (id new) (ids existing)) as Hnot.
    { intros H. apply Hfresh. apply In_ids in H as (l & Hl & Hid).
      apply In_ids. exists l. split; [|assumption].
      apply In_listenersOf. now exists pat, existing. }
    assert (withoutId (id new) (front ++ new :: back) = existing) as ->.
    { unfold withoutId. rewrite filter_app. simpl.
      unfold hasId at 2. rewrite Nat.eqb_refl. simpl.
      rewrite <- filter_app, <- Hex. now apply withoutId_fresh. }
    assert (existing <> []) as Hne
        by exact (bucketsOk_nonempty _ _ _ _ _ _ Hok G).
    clear G Hok Hsorted Hfresh. subst m.
    rewrite set_split by assumption.
    rewrite deleteOrSet_split by assumption.
    now destruct existing.
  - rewrite set_absent by assumption.
    unfold withoutId. simpl. unfold hasId. rewrite Nat.eqb_refl. simpl.
    unfold deleteOrSet. simpl.
    rewrite <- (app_nil_r (m ++ [(pat, [new])])), <- app_assoc. simpl.
    rewrite delete_split; [apply app_nil_r|now apply get_None|easy].
Qed.

End StoreMore.


Section StoreMore2.
Variable Payload : Type.
Variable pm : PatternMatcher.Interface.
Import ListenerStore StoreViews.
Implicit Types (m : Buckets Payload) (l : Listener Payload) (st : State Payload)
  (ls : list (Listener Payload)) (pat : JS.str)
  (f : Listener Payload -> Listener Payload).

Local Open Scope Z_scope.

(** *** What [removeListenerById] answers *)

Lemma removeListenerByIdFrom_found listenerId (entries m : Buckets Payload) pat :
  fst (removeListenerByIdFrom entries m listenerId) = Some pat ->
  exists ls, In (pat, ls) entries /\ In listenerId (ids ls).
Proof.
  induction entries as [|[k ls] entries IH]; simpl; [discriminate|].
  destruct (existsb (hasId listenerId) ls) eqn:E; simpl.
  - intros [= <-]. exists ls. split; [now left|now apply existsb_hasId].
  - intros H. destruct (IH H) as (ls' & Hin & Hid). exists ls'. auto.
Qed.

Lemma removeById_found listenerId st l :
  wf pm st -> In l (allListeners st) -> id l = listenerId ->
  fst (removeById listenerId st) = Some (pattern l).
Proof.
  intros Hwf Hl Hid.
  destruct (removeById_pruned _ pm listenerId st Hwf) as [_ Hnone].
  destruct (fst (removeById listenerId st)) as [pat|] eqn:E.
  - f_equal. unfold removeById in E.
    assert (exists ls wild mp,
               bucketsOk pm wild mp /\ In (pat, ls) mp /\ In listenerId (ids ls)
               /\ (forall x, In x (listenersOf mp) -> In x (allListeners st)))
      as (ls & wild & mp & Hok & Hin & Hls & Hsub).
    { destruct (removeListenerById (exactMatches st) listenerId) as [[p|] m1] eqn:E1.
      - simpl in E. injection E as <-.
        assert (fst (removeListenerByIdFrom (exactMatches st) (exactMatches st)
                       listenerId) = Some p) as F
            by (unfold removeListenerById in E1; now rewrite E1).
        apply removeListenerByIdFrom_found in F as (ls & Hin & Hls).
        exists ls, false, (exactMatches st).
        split; [apply (wf_exact Hwf)|]. split; [assumption|]. split; [assumption|].
        intros x Hx. apply In_allListeners. now left.
      - change (wildcardPatterns (withExact m1 st)) with (wildcardPatterns st) in E.
        destruct (removeListenerById (wildcardPatterns st) listenerId) as [r w] eqn:E2.
        simpl in E. subst r.
        assert (fst (removeListenerByIdFrom (wildcardPatterns st) (wildcardPatterns st)
                       listenerId) = Some pat) as F
            by (unfold removeListenerById in E2; now rewrite E2).
        apply removeListenerByIdFrom_found in F as (ls & Hin & Hls).
        exists ls, true, (wildcardPatterns st).
        split; [apply (wf_wildcard Hwf)|]. split; [assumption|]. split; [assumption|].
        intros x Hx. apply In_allListeners. now right. }
    apply In_ids in Hls as (x & Hx & Hxid).
    assert (x = l) as <-.
    { apply (unique_by_id _ (allListeners st)); try assumption.
      - apply (wf_unique Hwf).
      - apply Hsub, In_listenersOf. now exists pat, ls.
      - congruence. }
    symmetry. now apply (proj2 Hok _ _ Hin).
  - exfalso. apply Hnone; [reflexivity|]. apply In_ids. now exists l.
Qed.

(** *** [getAll] *)

Lemma addMatchingToResult_char (event : option JS.str) (m : Buckets Payload) :
  forall result : Types.ListenerMap,
    NoDup (JSMap.keys m) ->
    (forall k, In k (JSMap.keys m) -> ~ In k (JSMap.keys result)) ->
    addMatchingToResult pm m result event
    = result ++ map (@summary Payload) (filter (listed pm event) m).
Proof.
  unfold addMatchingToResult.
  induction m as [|[k ls] m IH]; intros result Hnd Hdis; simpl.
  - now rewrite app_nil_r.
  - simpl in Hnd. inversion Hnd as [|? ? Hk Hnd']; subst.
    change (match event with
            | Some ev => PatternMatcher.matches pm k ev
            | None => true
            end) with (listed pm event (k, ls)).
    destruct (listed pm event (k, ls)) eqn:E.
    + rewrite IH; [|assumption|].
      * rewrite set_absent.
        -- now rewrite <- app_assoc.
        -- apply get_None. apply Hdis. now left.
      * intros k' Hk' Hin. rewrite keys_set in Hin.
        destruct (JSMap.get k result) eqn:G.
        -- apply (Hdis k'); [now right|assumption].
        -- unfold JSMap.keys in Hin. apply in_app_iff in Hin as [Hin|[<-|[]]].
           ++ apply (Hdis k'); [now right|assumption].
           ++ contradiction.
    + apply IH; [assumption|]. intros k' Hk'. apply Hdis. now right.
Qed.

Lemma getAll_char (event : option JS.str) st :
  wf pm st ->
  getAll pm event st
  = map (@summary Payload)
      (filter (listed pm event) (exactMatches st ++ wildcardPatterns st)).
Proof.
  intros Hwf. unfold getAll.
  rewrite (addMatchingToResult_char event (exactMatches st));
    [|apply (wf_exact Hwf)|intros k _ []].
  rewrite addMatchingToResult_char; [|apply (wf_wildcard Hwf)|].
  - simpl. now rewrite filter_app, map_app.
  - intros k Hw He. simpl in He.
    apply in_map_iff in He as ([k' infos] & <- & He). simpl in Hw.
    apply in_map_iff in He as ([k1 ls1] & [= <- _] & He).
    apply filter_In in He as [He _].
    apply in_map_iff in Hw as ([k2 ls2] & E & Hw). simpl in E. subst k2.
    pose proof (proj1 (proj2 (proj2 (wf_exact Hwf) _ _ He))) as H1.
    pose proof (proj1 (proj2 (proj2 (wf_wildcard Hwf) _ _ Hw))) as H2.
    congruence.
Qed.

(** *** [collectAllListeners] *)

Lemma collectAllListeners_pairs wild m :
  bucketsOk pm wild m ->
  collectAllListeners m = map (fun l => (pattern l, id l)) (listenersOf m).
Proof.
  induction m as [|[pat ls] m IH]; intros Hok; [reflexivity|].
  apply bucketsOk_cons_inv in Hok as (Hp & _ & Hok).
  change (collectAllListeners ((pat, ls) :: m))
    with (map (fun l => (pat, id l)) ls ++ collectAllListeners m).
  change (listenersOf ((pat, ls) :: m)) with (ls ++ listenersOf m).
  rewrite map_app, (IH Hok). f_equal.
  apply map_ext_in. intros l Hl. now rewrite (Hp l Hl).
Qed.

(** *** Marks *)

Lemma markEach_buckets (listenerIds : list Types.symbol) :
  forall st,
    exactMatches (markEach listenerIds st) = exactMatches st
    /\ wildcardPatterns (markEach listenerIds st) = wildcardPatterns st
    /\ nextSymbol (markEach listenerIds st) = nextSymbol st.
Proof.
  induction listenerIds as [|x xs IH]; intros st; [now repeat split|].
  simpl. destruct (IH (markForRemoval x st)) as (-> & -> & ->). now repeat split.
Qed.

Lemma has_add x y (s : JSSet.t) :
  JSSet.has x (JSSet.add y s) = Nat.eqb x y || JSSet.has x s.
Proof.
  unfold JSSet.add. destruct (JSSet.has y s) eqn:E.
  - destruct (Nat.eqb_spec x y) as [->|]; [now rewrite E|reflexivity].
  - unfold JSSet.has. rewrite existsb_app. simpl.
    now rewrite orb_false_r, orb_comm.
Qed.

Lemma markEach_has (listenerIds : list Types.symbol) x :
  forall st,
    JSSet.has x (markedForRemoval (markEach listenerIds st))
    = existsb (Nat.eqb x) listenerIds || JSSet.has x (markedForRemoval st).
Proof.
  induction listenerIds as [|y ys IH]; intros st; [reflexivity|].
  simpl. rewrite IH. simpl. rewrite has_add.
  now destruct (Nat.eqb x y), (existsb (Nat.eqb x) ys).
Qed.

Lemma markEach_size (listenerIds : list Types.symbol) :
  forall st,
    JSSet.size (markedForRemoval (markEach listenerIds st)) = 0%nat ->
    listenerIds = [] /\ markedForRemoval st = [].
Proof.
  induction listenerIds as [|y ys IH]; intros st H.
  - split; [reflexivity|]. simpl in H. now destruct (markedForRemoval st).
  - simpl in H. apply IH in H as [_ H]. simpl in H. unfold JSSet.add in H.
    destruct (JSSet.has y (markedForRemoval st)) eqn:E.
    + rewrite H in E. discriminate.
    + now destruct (markedForRemoval st).
Qed.

End StoreMore2.


(** ** The store and the bus in reachable states *)

Section BusMore.
Variable Payload : Type.
Import ListenerStore HandlerExecutor EventBus StoreViews Clock.
Implicit Types (l : Listener Payload) (ls : list (Listener Payload))
  (st : State Payload) (payload : Payload) (event pat : JS.str).

Local Open Scope Z_scope.

(** *** Helpers *)

Lemma wf_same_buckets st st' :
  exactMatches st' = exactMatches st ->
  wildcardPatterns st' = wildcardPatterns st ->
  nextSymbol st' = nextSymbol st ->
  wf patternMatcher st -> wf patternMatcher st'.
Proof.
  intros He Hw Hn [H1 H2 H3 H4 H5].
  split; unfold allListeners in *; rewrite ?He, ?Hw, ?Hn; assumption.
Qed.

Lemma step_sorted st st' :
  wf patternMatcher st -> bucketsSorted st -> step st st' -> bucketsSorted st'.
Proof.
  intros Hwf Hs Hstep.
  destruct Hstep as [pat h options now st|pat listenerId st|listenerId st
                    |event st|listenerId elapsed st|listenerId st|st
                    |event payload st].
  - now apply add_sorted.
  - rewrite (remove_pruned _ patternMatcher pat listenerId st Hwf).
    exact (isPruned_sorted _ _ _ _ (isPruned_pruned _ _ _) Hs).
  - destruct (removeById_pruned _ patternMatcher listenerId st Hwf) as [-> _].
    exact (isPruned_sorted _ _ _ _ (isPruned_pruned _ _ _) Hs).
  - rewrite (removeAll_pruned _ patternMatcher event st Hwf).
    exact (isPruned_sorted _ _ _ _ (isPruned_pruned _ _ _) Hs).
  - exact (sameState_sorted _ _ _ (updateStats_same _ listenerId elapsed st) Hs).
  - exact Hs.
  - exact (isPruned_sorted _ _ _ _ (removeMarked_pruned _ patternMatcher st Hwf) Hs).
  - rewrite emit_spec. cbn [snd].
    pose proof (emit_seen_same _ event payload st Hwf) as Hsame.
    pose proof (sameState_wf _ _ _ _ Hsame Hwf) as Hwf1.
    apply (isPruned_sorted _ _ _ _ (removeEach_pruned _ _ _ Hwf1)).
    exact (sameState_sorted _ _ _ Hsame Hs).
Qed.

Lemma steps_sorted st st' :
  wf patternMatcher st -> bucketsSorted st -> steps st st' -> bucketsSorted st'.
Proof.
  intros Hwf Hs Hsteps. induction Hsteps as [|st1 st2 st3 Hsteps IH Hstep].
  - assumption.
  - apply (step_sorted st2 st3); [|auto|assumption].
    apply (steps_wf _ _ _ Hwf Hsteps).
Qed.

Lemma reachable_sorted st : reachable st -> bucketsSorted st.
Proof.
  apply steps_sorted; [apply createEventBus_wf|].
  intros pat ls H. simpl in H. tauto.
Qed.

Lemma removeEach_marks (toRemove : list Types.symbol) :
  forall st,
    wf patternMatcher st ->
    markedForRemoval (removeEach toRemove st) = markedForRemoval st.
Proof.
  induction toRemove as [|x xs IH]; intros st Hwf; [reflexivity|].
  simpl. destruct (removeById_pruned _ patternMatcher x st Hwf) as [Hst _].
  rewrite Hst, IH; [now destruct st|].
  exact (isPruned_wf _ _ _ _ _ (isPruned_pruned _ _ _) Hwf).
Qed.

(** The id of a subscription stays with its pattern. *)
Lemma subscription_pattern pat (h : Types.ListenerHandler Payload)
    (options : Types.SubscribeOptions) (now : Z) st0 st :
  reachable st0 ->
  steps (snd (add patternMatcher pat h options now st0)) st ->
  wf patternMatcher st
  /\ forall l, In l (allListeners st) -> id l = nextSymbol st0 -> pattern l = pat.
Proof.
  intros Hreach Hsteps. pose proof (reachable_wf _ _ Hreach) as Hwf0.
  pose proof (add_wf _ patternMatcher pat h options now st0 Hwf0) as Hwf1.
  destruct (steps_wf _ _ _ Hwf1 Hsteps) as [Hwf [_ Hinh]].
  split; [assumption|]. intros l Hl Hid.
  destruct (Hinh l Hl) as [(l1 & Hl1 & Hs)|Hnew].
  - apply (Permutation_in _ (add_allListeners _ patternMatcher pat h options now st0 Hwf0))
      in Hl1 as [<-|Hold].
    + now destruct Hs as (_ & _ & _ & _ & <- & _).
    + apply (wf_fresh Hwf0) in Hold. destruct Hs as (E & _). lia.
  - rewrite add_nextSymbol in Hnew. lia.
Qed.

Lemma pruned_ext (keep keep' : Listener Payload -> bool) st :
  (forall l, In l (allListeners st) -> keep l = keep' l) ->
  pruned keep st = pruned keep' st.
Proof.
  intros H. unfold pruned.
  rewrite (prune_ext _ keep keep' (exactMatches st)),
    (prune_ext _ keep keep' (wildcardPatterns st)); [reflexivity| |];
    intros l Hl; apply H, In_allListeners; auto.
Qed.

(** What the store sees of the listeners an emission called. *)
Lemma allListeners_writeBack (l' : Listener Payload) st :
  allListeners (writeBack l' st)
  = map (fun l => if hasId (id l') l then l' else l) (allListeners st).
Proof.
  unfold allListeners, writeBack. simpl. rewrite map_app.
  f_equal; apply (listenersOf_rewrite _ _ _).
Qed.

Lemma allListeners_seenByStore ls' :
  forall st,
    allListeners (seenByStore ls' st)
    = map (fun x => fold_left (fun y l' => if hasId (id l') y then l' else y) ls' x)
        (allListeners st).
Proof.
  induction ls' as [|l' ls' IH]; intros st.
  - simpl. now rewrite map_id.
  - simpl. rewrite IH, allListeners_writeBack, map_map. reflexivity.
Qed.

Lemma seen_fixed payload ls (y : Listener Payload) :
  ~ In (id y) (ids ls) ->
  fold_left (fun y l' => if hasId (id l') y then l' else y)
    (map (afterCall payload) ls) y = y.
Proof.
  revert y. induction ls as [|l ls IH]; intros y Hy; [reflexivity|].
  simpl. rewrite afterCall_id.
  destruct (hasId (id l) y) eqn:E.
  - exfalso. apply Hy. left. apply hasId_true in E. congruence.
  - apply IH. intros H. apply Hy. now right.
Qed.

Lemma seen_char payload ls (x : Listener Payload) :
  NoDup (ids ls) ->
  (forall l, In l ls -> id l = id x -> l = x) ->
  fold_left (fun y l' => if hasId (id l') y then l' else y)
    (map (afterCall payload) ls) x
  = if existsb (hasId (id x)) ls then afterCall payload x else x.
Proof.
  induction ls as [|l ls IH]; intros Hnd Hown; [reflexivity|].
  simpl in Hnd. inversion Hnd as [|? ? Hl Hnd']; subst.
  simpl. rewrite afterCall_id.
  replace (hasId (id x) l) with (hasId (id l) x)
    by (unfold hasId; apply Nat.eqb_sym).
  destruct (hasId (id l) x) eqn:E; simpl.
  - apply hasId_true in E.
    rewrite (Hown l (or_introl eq_refl) (eq_sym E)).
    apply seen_fixed. rewrite afterCall_id, E. exact Hl.
  - apply IH; [assumption|]. intros l' Hl'. apply Hown. now right.
Qed.

Lemma selected_by_id event st (x : Listener Payload) :
  wf patternMatcher st -> In x (allListeners st) ->
  existsb (hasId (id x)) (getMatching patternMatcher event st)
  = selects patternMatcher event x.
Proof.
  intros Hwf Hx.
  destruct (selects patternMatcher event x) eqn:S.
  - apply existsb_exists. exists x. split; [|apply Nat.eqb_refl].
    now apply (In_getMatching _ patternMatcher event st x Hwf).
  - destruct (existsb (hasId (id x)) (getMatching patternMatcher event st)) eqn:E;
      [|reflexivity].
    apply existsb_exists in E as (l & Hl & Hid). apply hasId_true in Hid.
    apply (In_getMatching _ patternMatcher event st l Hwf) in Hl as [Hl Hsel].
    assert (l = x) as -> by exact (unique_by_id _ _ _ _ (wf_unique Hwf) Hl Hx Hid).
    congruence.
Qed.

Lemma emit_seen_listeners event payload st :
  wf patternMatcher st ->
  allListeners
    (seenByStore (map (afterCall payload) (getMatching patternMatcher event st)) st)
  = map (fun l => if selects patternMatcher event l then afterCall payload l else l)
      (allListeners st).
Proof.
  intros Hwf. rewrite allListeners_seenByStore. apply map_ext_in. intros x Hx.
  rewrite seen_char.
  - now rewrite (selected_by_id event st x Hwf Hx).
  - now apply getMatching_NoDup.
  - intros l Hl Hid.
    apply (In_getMatching _ patternMatcher event st l Hwf) in Hl as [Hl _].
    exact (unique_by_id _ _ _ _ (wf_unique Hwf) Hl Hx Hid).
Qed.

Lemma filter_map_swap (A B : Type) (f : B -> bool) (g : A -> B) (xs : list A) :
  filter f (map g xs) = map g (filter (fun x => f (g x)) xs).
Proof.
  induction xs as [|x xs IH]; [reflexivity|].
  simpl. destruct (f (g x)); simpl; now rewrite IH.
Qed.

Lemma seenByStore_marks (ls' : list (Listener Payload)) :
  forall st, markedForRemoval (seenByStore ls' st) = markedForRemoval st.
Proof.
  induction ls' as [|l' ls' IH]; intros st; [reflexivity|].
  simpl. now rewrite IH.
Qed.

(** The listeners of the store after an emission. *)
Lemma emit_allListeners event payload st :
  wf patternMatcher st ->
  allListeners (snd (emit event payload st))
  = map (fun l => if selects patternMatcher event l then afterCall payload l else l)
      (filter
         (fun l =>
            negb (selects patternMatcher event l && succeeds payload l
                  && ListenerStore.once l))
         (allListeners st)).
Proof.
  intros Hwf. rewrite emit_spec. cbn [snd].
  pose proof (emit_seen_same _ event payload st Hwf) as Hsame.
  pose proof (sameState_wf _ _ _ _ Hsame Hwf) as Hwf1.
  set (toRemove := ids (filter (fun l => succeeds payload l && ListenerStore.once l)
                          (getMatching patternMatcher event st))).
  pose proof (removeEach_pruned _ toRemove _ Hwf1) as Hpr.
  rewrite (isPruned_all _ _ _ _ Hpr).
  rewrite (emit_seen_listeners event payload st Hwf), filter_map_swap.
  f_equal. apply filter_ext_in. intros x Hx. f_equal.
  replace (id (if selects patternMatcher event x then afterCall payload x else x))
    with (id x)
    by (destruct (selects patternMatcher event x); [now rewrite afterCall_id|reflexivity]).
  destruct (selects patternMatcher event x && succeeds payload x
            && ListenerStore.once x) eqn:E.
  - apply andb_true_iff in E as [E Honce]. apply andb_true_iff in E as [Hsel Hok].
    apply existsb_exists. exists (id x). split; [|apply Nat.eqb_refl].
    apply in_map, filter_In. split.
    + now apply (In_getMatching _ patternMatcher event st x Hwf).
    + now rewrite Hok, Honce.
  - destruct (existsb (Nat.eqb (id x)) toRemove) eqn:Ex; [|reflexivity].
    apply existsb_exists in Ex as (i & Hi & Hid). apply Nat.eqb_eq in Hid. subst i.
    apply In_ids in Hi as (y & Hy & Hid). apply filter_In in Hy as [Hy Hok].
    apply (In_getMatching _ patternMatcher event st y Hwf) in Hy as [Hy Hsel].
    assert (y = x) as -> by exact (unique_by_id _ _ _ _ (wf_unique Hwf) Hy Hx Hid).
    rewrite Hsel in E. simpl in E. congruence.
Qed.

End BusMore.


(** ** Emissions that overlap *)

Section AsyncFacts.
Variable Payload : Type.
Import ListenerStore HandlerExecutor EventBus StoreViews Async.
Implicit Types (l : Listener Payload) (ls : list (Listener Payload))
  (st : State Payload) (payload : Payload) (event : JS.str)
  (b : Bus Payload).

Local Open Scope Z_scope.

(** *** Every turn is made of calls of the store *)

Lemma removeEach_steps (toRemove : list Types.symbol) :
  forall st, EventBus.steps st (removeEach toRemove st).
Proof.
  induction toRemove as [|x xs IH]; intros st; [apply steps_refl|].
  simpl. apply (steps_trans _ _ (snd (removeById x st))); [|apply IH].
  exact (steps_step (steps_refl st) (step_removeById x st)).
Qed.

Lemma runLoop_steps payload ls :
  forall (toRemove : list Types.symbol) st,
    EventBus.steps st (reached (runLoop payload ls toRemove st)).
Proof.
  induction ls as [|l ls IH]; intros toRemove st; simpl; [apply steps_refl|].
  destruct (handler l payload) as [[| | | | |] elapsed]; simpl;
    try apply IH; try apply steps_refl.
  apply (steps_trans _ _ (updateStats (id l) elapsed st)); [|apply IH].
  exact (steps_step (steps_refl st) (step_updateStats (id l) elapsed st)).
Qed.

Lemma turn_steps b b' : turn b b' -> EventBus.steps (store b) (store b').
Proof.
  intros [b0 st' Hstep|event payload b0|k b0|k b0]; simpl.
  - exact (steps_step (steps_refl _) Hstep).
  - apply runLoop_steps.
  - unfold resume.
    destruct (nth_error (inFlight b0) k)
      as [[payload l [[]|] elapsed rest toRemove|toRemove]|]; simpl.
    + apply (steps_trans _ _ (updateStats (id l) elapsed (store b0)));
        [|apply runLoop_steps].
      exact (steps_step (steps_refl _) (step_updateStats (id l) elapsed (store b0))).
    + apply runLoop_steps.
    + apply removeEach_steps.
    + apply steps_refl.
  - unfold settle. destruct (nth_error (callbacks b0) k) as [[i elapsed]|]; simpl.
    + exact (steps_step (steps_refl _) (step_updateStats i elapsed (store b0))).
    + apply steps_refl.
Qed.

Lemma turns_steps b b' : turns b b' -> EventBus.steps (store b) (store b').
Proof.
  intros H. induction H as [|b1 b2 b3 _ IH Hturn]; [apply steps_refl|].
  exact (steps_trans _ _ _ _ IH (turn_steps _ _ Hturn)).
Qed.

(** However emissions overlap, the store is in a state that calls of
    its methods reach: what holds of reachable states holds while
    emissions wait. *)
Lemma arises_reachable b : arises b -> EventBus.reachable (store b).
Proof. intros H. exact (turns_steps _ _ H). Qed.

(** *** An emission that nothing interrupts *)

Lemma rewriteBuckets_ext (f g : Listener Payload -> Listener Payload)
    (m : Buckets Payload) :
  (forall x, In x (listenersOf m) -> f x = g x) ->
  rewriteBuckets f m = rewriteBuckets g m.
Proof.
  intros H. unfold rewriteBuckets. apply map_ext_in. intros [pat ls] He. simpl.
  f_equal. apply map_ext_in. intros x Hx. apply H.
  apply In_listenersOf. now exists pat, ls.
Qed.

(** The call changed the listener object; the store holds that
    object. *)
Lemma writeBack_counts payload st l :
  wf patternMatcher st -> In l (allListeners st) ->
  succeeds payload l = true ->
  writeBack (afterCall payload l) st
  = updateStats (id l) (snd (handler l payload)) st.
Proof.
  intros Hwf Hl Hok.
  rewrite (updateStats_char _ patternMatcher _ _ st Hwf).
  assert (forall x, In x (allListeners st) ->
                    (if hasId (id (afterCall payload l)) x
                     then afterCall payload l else x)
                    = withStats (id l) (snd (handler l payload)) x) as Hpoint.
  { intros x Hx. rewrite afterCall_id. unfold withStats.
    destruct (hasId (id l) x) eqn:E; [|reflexivity].
    apply hasId_true in E.
    rewrite (unique_by_id _ _ _ _ (wf_unique Hwf) Hx Hl E).
    unfold afterCall. now rewrite Hok. }
  apply state_ext; try reflexivity; simpl;
    apply rewriteBuckets_ext; intros x Hx; apply Hpoint, In_allListeners; auto.
Qed.

Lemma writeBack_same_object st l :
  wf patternMatcher st -> In l (allListeners st) -> writeBack l st = st.
Proof.
  intros Hwf Hl.
  assert (forall x, In x (allListeners st) ->
                    (if hasId (id l) x then l else x) = x) as Hpoint.
  { intros x Hx. destruct (hasId (id l) x) eqn:E; [|reflexivity].
    apply hasId_true in E.
    now rewrite (unique_by_id _ _ _ _ (wf_unique Hwf) Hx Hl E). }
  apply state_ext; try reflexivity; simpl;
    apply rewriteBuckets_fixed; intros x Hx; apply Hpoint, In_allListeners; auto.
Qed.

Lemma updateStats_keeps_others (listenerId : Types.symbol) (elapsed : Z) st ls :
  wf patternMatcher st ->
  ~ In listenerId (ids ls) ->
  (forall x, In x ls -> In x (allListeners st)) ->
  forall x, In x ls -> In x (allListeners (updateStats listenerId elapsed st)).
Proof.
  intros Hwf Hno Hin x Hx.
  rewrite (updateStats_char _ patternMatcher _ _ st Hwf).
  unfold allListeners. simpl. rewrite !listenersOf_rewrite, <- map_app.
  apply in_map_iff. exists x. split; [|now apply Hin].
  unfold withStats. destruct (hasId listenerId x) eqn:E; [|reflexivity].
  exfalso. apply Hno, In_ids. exists x. split; [assumption|].
  now apply hasId_true.
Qed.

Lemma resumeTimes_idle (n k : nat) b :
  inFlight b = [] -> resumeTimes n k b = (b, []).
Proof.
  intros H. induction n as [|n IH]; [reflexivity|].
  simpl. unfold resume. rewrite H.
  replace (nth_error (@nil (Emission Payload)) k) with (@None (Emission Payload))
    by now destruct k.
  now rewrite IH.
Qed.

(** The loop from [ls] on, resumed at once whenever it waits, does
    what [execute] from [ls] and the loop of [emit] do. *)
Lemma resumeTimes_runLoop payload ls :
  forall (toRemove : list Types.symbol) st (pending : list (Types.symbol * Z))
         (n : nat),
    wf patternMatcher st ->
    NoDup (ids ls) ->
    (forall x, In x ls -> In x (allListeners st)) ->
    (length ls < n)%nat ->
    exists later,
      resumeTimes n 0
        {| store := reached (runLoop payload ls toRemove st);
           inFlight := [waitsAt (runLoop payload ls toRemove st)];
           callbacks := pending ++ leaves (runLoop payload ls toRemove st) |}
      = ({| store :=
              removeEach
                (toRemove
                 ++ ids (filter (fun l => succeeds payload l && ListenerStore.once l) ls))
                (seenByStore (map (afterCall payload) ls) st);
            inFlight := [];
            callbacks := pending ++ detached payload ls |},
         later)
      /\ calls (runLoop payload ls toRemove st) ++ later = ids ls.
Proof.
  induction ls as [|l ls IH]; intros toRemove st pending n Hwf Hnd Hin Hn.
  - destruct n as [|n]; [inversion Hn|]. exists []. split; [|reflexivity].
    simpl. unfold resume. simpl.
    rewrite resumeTimes_idle by reflexivity. now rewrite !app_nil_r.
  - simpl in Hnd. inversion Hnd as [|? ? Hl Hnd']; subst.
    assert (In l (allListeners st)) as Hlst by (apply Hin; now left).
    assert (forall x, In x ls -> In x (allListeners st)) as Hin'
        by (intros x Hx; apply Hin; now right).
    simpl in Hn.
    pose proof (updateStats_same _ (id l) (snd (handler l payload)) st) as Hsame.
    pose proof (sameState_wf _ _ _ _ Hsame Hwf) as Hwf'.
    pose proof (updateStats_keeps_others (id l) (snd (handler l payload)) st ls
                  Hwf Hl Hin') as Hkeep.
    cbn [map seenByStore fold_left filter detached flat_map runLoop].
    fold (seenByStore (map (afterCall payload) ls)).
    fold (detached payload ls).
    pose proof (writeBack_counts payload st l Hwf Hlst) as Hcount.
    pose proof (writeBack_same_object st l Hwf Hlst) as Hsameobj.
    unfold afterCall, succeeds in Hcount |- *.
    destruct (handler l payload) as [[| | | | |] elapsed] eqn:Hh; simpl in *.
    + (* returns *)
      rewrite (Hcount eq_refl).
      destruct (IH (flag (ListenerStore.once l) l toRemove)
                  (updateStats (id l) elapsed st) pending n Hwf' Hnd' Hkeep
                  ltac:(lia)) as (later & E & Hcalls).
      exists later. split; [|now rewrite Hcalls].
      rewrite E. unfold flag.
      destruct (ListenerStore.once l); simpl; now rewrite <- ?app_assoc.
    + (* throws *)
      rewrite Hsameobj.
      destruct (IH toRemove st pending n Hwf Hnd' Hin' ltac:(lia))
        as (later & E & Hcalls).
      exists later. split; [|now rewrite Hcalls]. exact E.
    + (* a promise, fulfilled *)
      destruct n as [|n]; [lia|].
      rewrite (Hcount eq_refl).
      destruct (IH (flag (ListenerStore.once l) l toRemove)
                  (updateStats (id l) elapsed st) pending n Hwf' Hnd' Hkeep
                  ltac:(lia)) as (later & E & Hcalls).
      exists (calls (runLoop payload ls (flag (ListenerStore.once l) l toRemove)
                       (updateStats (id l) elapsed st)) ++ later).
      split; [|now rewrite Hcalls].
      cbn [resumeTimes]. unfold resume. cbn [inFlight nth_error store callbacks].
      unfold putAt. cbn [firstn skipn app]. rewrite app_nil_r, E. unfold flag.
      destruct (ListenerStore.once l); simpl; now rewrite <- ?app_assoc.
    + (* a promise, rejected *)
      destruct n as [|n]; [lia|].
      rewrite Hsameobj.
      destruct (IH toRemove st pending n Hwf Hnd' Hin' ltac:(lia))
        as (later & E & Hcalls).
      exists (calls (runLoop payload ls toRemove st) ++ later).
      split; [|now rewrite Hcalls].
      cbn [resumeTimes]. unfold resume. cbn [inFlight nth_error store callbacks].
      unfold putAt. cbn [firstn skipn app]. now rewrite app_nil_r, E.
    + (* a thenable nobody awaits, fulfilled *)
      rewrite Hsameobj.
      destruct (IH toRemove st (pending ++ [(id l, elapsed)]) n Hwf Hnd' Hin'
                  ltac:(lia)) as (later & E & Hcalls).
      exists later. split; [|now rewrite Hcalls].
      rewrite <- !app_assoc in E. exact E.
    + (* a thenable nobody awaits, rejected *)
      rewrite Hsameobj.
      destruct (IH toRemove st pending n Hwf Hnd' Hin' ltac:(lia))
        as (later & E & Hcalls).
      exists later. split; [|now rewrite Hcalls]. exact E.
Qed.

(** An emission that is resumed at once whenever it waits, with no
    other call in between, ends in the state [emit] gives, has called
    the listeners [execute] calls, in that order, and leaves the
    callbacks of the thenables nobody awaited. *)
Lemma uninterrupted_emission_is_emit event payload st (n : nat) :
  EventBus.reachable st ->
  (length (getMatching patternMatcher event st) < n)%nat ->
  fst (resumeTimes n 0 (fst (emitBegin event payload (idle st))))
  = {| store := snd (emit event payload st);
       inFlight := [];
       callbacks := detached payload (getMatching patternMatcher event st) |}
  /\ snd (emitBegin event payload (idle st))
     ++ snd (resumeTimes n 0 (fst (emitBegin event payload (idle st))))
     = ids (called (execute payload (getMatching patternMatcher event st))).
Proof.
  intros Hreach Hn. pose proof (reachable_wf _ _ Hreach) as Hwf.
  destruct (resumeTimes_runLoop payload (getMatching patternMatcher event st)
              [] st [] n Hwf (getMatching_NoDup _ patternMatcher event st Hwf))
    as (later & E & Hcalls); [|exact Hn|].
  - intros x Hx. now apply (In_getMatching _ patternMatcher event st x Hwf) in Hx.
  - unfold emitBegin, idle. cbn [store inFlight callbacks fst snd app].
    cbn [app] in E. rewrite E, emit_spec, called_ids. cbn [fst snd].
    split; [reflexivity|exact Hcalls].
Qed.

End AsyncFacts.

(** ** One-shot listeners that are called again *)

Section OneShotAgain.
Import ListenerStore HandlerExecutor EventBus Async Examples.

Local Open Scope Z_scope.

Lemma bothStarted_arises : arises bothStarted.
Proof.
  assert (arises (idle succeedingOnce)) as H0.
  { exact (turns_step (turns_refl (idle fresh))
             (turn_call (idle fresh)
                (step_add userLogin succeeding onceOnly 1000 fresh))). }
  exact (turns_step
           (turns_step H0 (turn_emitBegin userLogin tt (idle succeedingOnce)))
           (turn_emitBegin userLogin tt firstStarted)).
Qed.

(** C3.  A one-shot listener whose handler succeeded is called again in
    two cases.  First, when its event is emitted twice and the second
    emission starts while the first waits at
    [await handlerExecutor.execute(...)]: the loop that removes the
    listener has not run, the second emission selects the listener and
    calls its handler, and the listener has run twice before either
    emission is resumed.  Second, when its handler returns a fulfilled
    promise of another realm: [execute] does not await it, reads no
    [shouldRemove] from it, [emit] removes nothing, and the next
    emission, though the first was awaited, calls the handler again. *)
Theorem once_listener_can_fire_again :
  (ListenerStore.once onceListener = true
   /\ succeeds tt onceListener = true
   /\ getMatching pm userLogin succeedingOnce = [onceListener]
   /\ arises bothStarted
   /\ snd (emitBegin userLogin tt (idle succeedingOnce)) = [0%nat]
   /\ inFlight firstStarted = [AtExecute unit [0%nat]]
   /\ snd (emitBegin userLogin tt firstStarted) = [0%nat]
   /\ map (@executionCount unit) (allListeners (store bothStarted)) = [2]
   /\ allListeners (store (fst (resume 0 (fst (resume 0 bothStarted))))) = [])
  /\ (ListenerStore.once foreignListener = true
      /\ completes tt foreignListener = true
      /\ getMatching pm userLogin foreignOnce = [foreignListener]
      /\ ids (called (execute tt (getMatching pm userLogin foreignOnce))) = [0%nat]
      /\ fst (emit userLogin tt foreignOnce) = Promise.Fulfilled tt
      /\ getMatching pm userLogin (snd (emit userLogin tt foreignOnce))
         = [foreignListener]
      /\ ids (called
                (execute tt
                   (getMatching pm userLogin (snd (emit userLogin tt foreignOnce)))))
         = [0%nat]).
Proof.
  split.
  - split; [reflexivity|]. split; [reflexivity|]. split; [reflexivity|].
    split; [exact bothStarted_arises|]. repeat split.
  - repeat split.
Qed.

End OneShotAgain.


(** ** Further properties of the store and the bus *)

Section BusProperties.
Variable Payload : Type.
Import ListenerStore HandlerExecutor EventBus StoreViews Clock.
Implicit Types (l : Listener Payload) (ls : list (Listener Payload))
  (st : State Payload) (payload : Payload) (event pat : JS.str).

Local Open Scope Z_scope.

Lemma filter_one ls l :
  NoDup (ids ls) -> In l ls ->
  (length (filter (fun x => negb (hasId (id l) x)) ls) + 1 = length ls)%nat.
Proof.
  induction ls as [|x ls IH]; intros Hnd Hin; [destruct Hin|].
  simpl in Hnd. inversion Hnd as [|? ? Hx Hnd']; subst. simpl.
  destruct (hasId (id l) x) eqn:E; simpl.
  - apply hasId_true in E.
    rewrite filter_id; [lia|]. intros y Hy.
    apply negb_true_iff, hasId_false. intros Hid. apply Hx.
    apply In_ids. exists y. split; [assumption|congruence].
  - destruct Hin as [->|Hin].
    + apply hasId_false in E. congruence.
    + specialize (IH Hnd' Hin). lia.
Qed.

Lemma bucket_of_listener st l :
  wf patternMatcher st -> In l (allListeners st) ->
  In l (Types.orElse
          (JSMap.get (pattern l) (getMapForPattern patternMatcher (pattern l) st)) []).
Proof.
  intros Hwf Hl. pose proof (wf_side _ _ _ _ Hwf Hl) as Hside.
  assert (exists wild, bucketsOk patternMatcher wild
                         (getMapForPattern patternMatcher (pattern l) st))
    as [wild Hok].
  { unfold getMapForPattern.
    destruct (PatternMatcher.hasWildcard patternMatcher (pattern l));
      eexists; [apply (wf_wildcard Hwf)|apply (wf_exact Hwf)]. }
  rewrite (get_as_filter _ _ _ _ _ Hok). apply filter_In.
  split; [assumption|apply str_eqb_refl].
Qed.

(** X5.  In every state the bus can reach each bucket is in the order
    [sortByPriority] gives: higher priority first, earlier timestamp
    first among equal priorities.  No removal, no update of counters and
    no emission disturbs the order [add] established. *)
Theorem buckets_stay_sorted st :
  reachable st ->
  forall pat ls,
    In (pat, ls) (exactMatches st) \/ In (pat, ls) (wildcardPatterns st) ->
    StronglySorted (@before Payload) ls.
Proof. intros Hreach. exact (reachable_sorted _ st Hreach). Qed.

(** X6.  Subscribing and calling the returned function at once gives
    back the two maps and the marks as they were: the bucket the listener
    went into has its old content and order, a bucket created for it is
    deleted again.  Only the symbol is used up.  The call of [remove]
    behind the returned function answers [true]. *)
Theorem subscribe_then_unsubscribe_restores pat (h : Types.ListenerHandler Payload)
    (options : Types.SubscribeOptions) (now : Z) st :
  reachable st ->
  unsubscribe (fst (subscribe pat h options now st))
    (snd (subscribe pat h options now st))
  = {| exactMatches := exactMatches st;
       wildcardPatterns := wildcardPatterns st;
       markedForRemoval := markedForRemoval st;
       nextSymbol := S (nextSymbol st) |}
  /\ fst (remove patternMatcher pat (nextSymbol st)
            (snd (subscribe pat h options now st))) = true.
Proof.
  intros Hreach. pose proof (reachable_wf _ _ Hreach) as Hwf.
  pose proof (reachable_sorted _ _ Hreach) as Hsorted.
  set (new := newListener (nextSymbol st) pat h options now).
  assert (forall wild m,
             bucketsOk patternMatcher wild m ->
             (forall ls, In (pat, ls) m -> StronglySorted (@before Payload) ls) ->
             (forall x, In x (listenersOf m) -> In x (allListeners st)) ->
             deleteOrSet pat
               (withoutId (nextSymbol st)
                  (Types.orElse
                     (JSMap.get pat
                        (JSMap.set pat
                           (sortByPriority (Types.orElse (JSMap.get pat m) [] ++ [new]))
                           m)) []))
               (JSMap.set pat
                  (sortByPriority (Types.orElse (JSMap.get pat m) [] ++ [new])) m)
             = m) as Hback.
  { intros wild m Hok Hs Hsub.
    apply (set_then_remove _ patternMatcher wild m pat new Hok Hs).
    intros Hin. apply In_ids in Hin as (x & Hx & Hid).
    apply Hsub, (wf_fresh Hwf) in Hx. simpl in Hid. lia. }
  split.
  - unfold unsubscribe, subscribe, remove, add, getMapForPattern, putMapForPattern.
    cbn [fst snd unsub_pattern unsub_id].
    destruct (PatternMatcher.hasWildcard patternMatcher pat) eqn:Hw;
      cbn [withWildcard withExact exactMatches wildcardPatterns markedForRemoval
             nextSymbol]; fold new.
    + rewrite (Hback true _ (wf_wildcard Hwf)); [reflexivity| |].
      * intros ls H. apply (Hsorted pat ls). now right.
      * intros x Hx. apply In_allListeners. now right.
    + rewrite (Hback false _ (wf_exact Hwf)); [reflexivity| |].
      * intros ls H. apply (Hsorted pat ls). now left.
      * intros x Hx. apply In_allListeners. now left.
  - apply remove_result.
    pose proof (add_wf _ patternMatcher pat h options now st Hwf) as Hwf1.
    assert (In new (allListeners (snd (subscribe pat h options now st)))) as Hnew.
    { apply (Permutation_in _
               (Permutation_sym (add_allListeners _ patternMatcher pat h options now st Hwf))).
      now left. }
    apply In_ids. exists new. split; [|reflexivity].
    exact (bucket_of_listener _ new Hwf1 Hnew).
Qed.

(** X7.  [removeById] with the id of a listener of the store answers
    the pattern the listener was registered with and removes this
    listener and no other: the listeners left are the others, in their
    order, one fewer than before. *)
Theorem removeById_removes_that_listener st l :
  reachable st -> In l (allListeners st) ->
  fst (removeById (id l) st) = Some (pattern l)
  /\ allListeners (snd (removeById (id l) st))
     = filter (fun x => negb (hasId (id l) x)) (allListeners st)
  /\ (forall x, In x (allListeners (snd (removeById (id l) st)))
                <-> In x (allListeners st) /\ x <> l)
  /\ (length (allListeners (snd (removeById (id l) st))) + 1
      = length (allListeners st))%nat.
Proof.
  intros Hreach Hl. pose proof (reachable_wf _ _ Hreach) as Hwf.
  destruct (removeById_pruned _ patternMatcher (id l) st Hwf) as [Hst _].
  assert (allListeners (snd (removeById (id l) st))
          = filter (fun x => negb (hasId (id l) x)) (allListeners st)) as Hall.
  { rewrite Hst. apply isPruned_all, isPruned_pruned. }
  split; [exact (removeById_found _ patternMatcher (id l) st l Hwf Hl eq_refl)|].
  split; [exact Hall|]. split.
  - intros x. rewrite Hall, filter_In, negb_true_iff, hasId_false.
    split; intros [Hx Hne]; (split; [assumption|]).
    + intros ->. now apply Hne.
    + intros Hid. apply Hne.
      exact (unique_by_id _ _ _ _ (wf_unique Hwf) Hx Hl Hid).
  - rewrite Hall. apply filter_one; [apply (wf_unique Hwf)|assumption].
Qed.

(** X8.  For a listener of the store, [remove] with its pattern and id
    answers [true] and leaves the same state as [removeById] with its
    id: the function [subscribe] returns and [off] do the same. *)
Theorem remove_agrees_with_removeById st l :
  reachable st -> In l (allListeners st) ->
  remove patternMatcher (pattern l) (id l) st = (true, snd (removeById (id l) st)).
Proof.
  intros Hreach Hl. pose proof (reachable_wf _ _ Hreach) as Hwf.
  destruct (removeById_pruned _ patternMatcher (id l) st Hwf) as [Hst _].
  rewrite (surjective_pairing (remove patternMatcher (pattern l) (id l) st)).
  f_equal.
  - apply remove_result, In_ids. exists l. split; [|reflexivity].
    now apply bucket_of_listener.
  - rewrite (remove_pruned _ patternMatcher (pattern l) (id l) st Hwf), Hst.
    apply pruned_ext. intros x Hx.
    destruct (hasId (id l) x) eqn:E; [|now rewrite andb_false_r].
    apply hasId_true in E.
    rewrite (unique_by_id _ _ _ _ (wf_unique Hwf) Hx Hl E), str_eqb_refl. reflexivity.
Qed.

(** X9.  [updateStats] adds one execution and the duration to the
    counters of the listener with the given id and touches nothing else:
    every other listener, every key and the order of the buckets stay.
    With an id the store does not hold the state is unchanged. *)
Theorem updateStats_bumps_one_listener (listenerId : Types.symbol)
    (elapsed : Z) st :
  reachable st ->
  allListeners (updateStats listenerId elapsed st)
  = map (withStats listenerId elapsed) (allListeners st)
  /\ JSMap.keys (exactMatches (updateStats listenerId elapsed st))
     = JSMap.keys (exactMatches st)
  /\ JSMap.keys (wildcardPatterns (updateStats listenerId elapsed st))
     = JSMap.keys (wildcardPatterns st)
  /\ (~ In listenerId (ids (allListeners st)) ->
      updateStats listenerId elapsed st = st).
Proof.
  intros Hreach. pose proof (reachable_wf _ _ Hreach) as Hwf.
  rewrite (updateStats_char _ patternMatcher listenerId elapsed st Hwf).
  split; [|split; [|split]].
  - unfold allListeners. cbn [withWildcard withExact exactMatches wildcardPatterns].
    now rewrite !listenersOf_rewrite, map_app.
  - apply rewriteBuckets_keys.
  - apply rewriteBuckets_keys.
  - intros Hno.
    assert (forall x, In x (allListeners st) -> withStats listenerId elapsed x = x)
      as Hfix.
    { intros x Hx. unfold withStats. destruct (hasId listenerId x) eqn:E; [|reflexivity].
      exfalso. apply Hno, In_ids. exists x. split; [assumption|].
      now apply hasId_true. }
    apply state_ext; cbn [withWildcard withExact exactMatches wildcardPatterns
                            markedForRemoval nextSymbol]; try reflexivity;
      apply rewriteBuckets_fixed; intros x Hx; apply Hfix, In_allListeners; auto.
Qed.

(** X10.  Marking ids and then calling [removeMarked] removes the
    listeners with a marked id, those marked before included, and leaves
    the set of marks empty.  When no mark was pending the state is the
    one that [removeById] for each of the ids gives. *)
Theorem removeMarked_removes_the_marked (listenerIds : list Types.symbol) st :
  reachable st ->
  allListeners (removeMarked (markEach listenerIds st))
  = filter
      (fun l =>
         negb (existsb (Nat.eqb (id l)) listenerIds
               || JSSet.has (id l) (markedForRemoval st)))
      (allListeners st)
  /\ markedForRemoval (removeMarked (markEach listenerIds st)) = JSSet.empty
  /\ (markedForRemoval st = JSSet.empty ->
      removeMarked (markEach listenerIds st) = removeEach listenerIds st).
Proof.
  intros Hreach. pose proof (reachable_wf _ _ Hreach) as Hwf.
  destruct (markEach_buckets _ listenerIds st) as (He & Hw & Hn).
  pose proof (wf_same_buckets _ st (markEach listenerIds st) He Hw Hn Hwf) as Hwf2.
  pose proof (removeMarked_pruned _ patternMatcher _ Hwf2) as (Pe & Pw & Pn).
  rewrite He in Pe. rewrite Hw in Pw. rewrite Hn in Pn.
  assert (forall m,
             prune (fun l => negb (JSSet.has (id l)
                                     (markedForRemoval (markEach listenerIds st)))) m
             = prune (fun l => negb (existsb (Nat.eqb (id l)) listenerIds
                                     || JSSet.has (id l) (markedForRemoval st))) m)
    as Hext.
  { intros m. apply prune_ext. intros l _. now rewrite markEach_has. }
  rewrite Hext in Pe, Pw.
  assert (markedForRemoval (removeMarked (markEach listenerIds st)) = JSSet.empty)
    as Hmarks.
  { unfold removeMarked.
    destruct (Nat.eqb (JSSet.size (markedForRemoval (markEach listenerIds st))) 0)
      eqn:E; [|reflexivity].
    apply Nat.eqb_eq in E. unfold JSSet.size in E.
    now destruct (markedForRemoval (markEach listenerIds st)). }
  split; [|split; [exact Hmarks|]].
  - apply isPruned_all. repeat split; assumption.
  - intros Hnone.
    destruct (removeEach_pruned _ listenerIds st Hwf) as (Re & Rw & Rn).
    apply state_ext.
    + rewrite Pe, Re. apply prune_ext. intros l _. rewrite Hnone. simpl.
      now rewrite orb_false_r.
    + rewrite Pw, Rw. apply prune_ext. intros l _. rewrite Hnone. simpl.
      now rewrite orb_false_r.
    + rewrite Hmarks, (removeEach_marks _ listenerIds st Hwf). now symmetry.
    + now rewrite Pn, Rn.
Qed.

(** X11.  [removeAll] without a name, or with a name that has no
    wildcard, reports the pattern and the id of every listener it
    removes, in store order, and removes the listeners registered under
    that name (all of them without a name) and no other. *)
Theorem removeAll_reports_what_it_removes (event : option JS.str) st :
  reachable st ->
  match event with
  | Some ev => PatternMatcher.hasWildcard patternMatcher ev = false
  | None => True
  end ->
  fst (removeAll event st)
  = map (fun l => (pattern l, id l)) (filter (named event) (allListeners st))
  /\ allListeners (snd (removeAll event st))
     = filter (fun l => negb (named event l)) (allListeners st).
Proof.
  intros Hreach Hev. pose proof (reachable_wf _ _ Hreach) as Hwf. split.
  - destruct event as [ev|]; unfold named; cbn [removeAll fst].
    + rewrite (get_as_filter _ _ _ _ ev (wf_exact Hwf)).
      unfold allListeners. rewrite filter_app.
      rewrite (filter_none _ (fun l => JS.eqb (pattern l) ev)
                 (listenersOf (wildcardPatterns st))).
      * rewrite app_nil_r. apply map_ext_in. intros l Hl.
        apply filter_In in Hl as [_ Hl]. apply str_eqb_eq in Hl. now rewrite Hl.
      * intros l Hl. apply str_eqb_neq. intros E.
        apply In_listenersOf in Hl as (pat & ls & Hin & Hl).
        destruct (wf_wildcard Hwf) as [_ Hok].
        destruct (Hok pat ls Hin) as (_ & Hw & Hpat).
        rewrite <- (Hpat l Hl), E in Hw. congruence.
    + rewrite filter_id by (intros; reflexivity). unfold allListeners. rewrite map_app.
      now rewrite (collectAllListeners_pairs _ _ _ _ (wf_exact Hwf)),
        (collectAllListeners_pairs _ _ _ _ (wf_wildcard Hwf)).
  - rewrite (removeAll_pruned _ patternMatcher event st Hwf).
    rewrite (isPruned_all _ _ _ _ (isPruned_pruned _ _ _)).
    apply filter_ext. intros l. now destruct event.
Qed.

(** X12.  [getAll] returns one entry for each bucket whose key the
    matcher accepts for the given name, every bucket without a name, the
    exact buckets before the wildcard buckets and each in map order, with
    one summary for each listener of the bucket in bucket order. *)
Theorem getAll_lists_the_matching_buckets (event : option JS.str) st :
  reachable st ->
  getAll patternMatcher event st
  = map (@summary Payload)
      (filter (listed patternMatcher event)
         (exactMatches st ++ wildcardPatterns st))
  /\ NoDup (JSMap.keys (getAll patternMatcher event st)).
Proof.
  intros Hreach. pose proof (reachable_wf _ _ Hreach) as Hwf.
  rewrite (getAll_char _ patternMatcher event st Hwf). split; [reflexivity|].
  unfold JSMap.keys. rewrite map_map. cbn [summary fst].
  assert (NoDup (map fst (exactMatches st ++ wildcardPatterns st))) as Hnd.
  { rewrite map_app. apply NoDup_app.
    - apply (wf_exact Hwf).
    - apply (wf_wildcard Hwf).
    - intros k Hk1 Hk2.
      apply in_map_iff in Hk1 as ([k1 ls1] & <- & H1).
      apply in_map_iff in Hk2 as ([k2 ls2] & E & H2). simpl in E. subst k2.
      destruct (wf_exact Hwf) as [_ Hok1]. destruct (wf_wildcard Hwf) as [_ Hok2].
      destruct (Hok1 _ _ H1) as (_ & A1 & _). destruct (Hok2 _ _ H2) as (_ & A2 & _).
      rewrite A1 in A2. discriminate. }
  revert Hnd. generalize (exactMatches st ++ wildcardPatterns st).
  intros m. induction m as [|e m IH]; intros Hnd; [constructor|].
  simpl in Hnd. inversion Hnd as [|? ? Hx Hnd']; subst. simpl.
  destruct (listed patternMatcher event e); [|now apply IH].
  simpl. constructor; [|now apply IH].
  intros Hin. apply Hx. apply in_map_iff in Hin as (e' & E & He').
  apply filter_In in He' as [He' _]. apply in_map_iff. now exists e'.
Qed.

(** X13.  [getMatching] returns the listeners the event name selects,
    those registered under the name and those whose wildcard pattern
    matches it, each once; higher priority comes first and an earlier
    timestamp first among equal priorities; listeners that agree in both
    keep the order of the store, exact bucket before wildcard buckets. *)
Theorem getMatching_selects_and_orders event st :
  reachable st ->
  Permutation (getMatching patternMatcher event st)
    (filter (selects patternMatcher event) (allListeners st))
  /\ StronglySorted (@before Payload) (getMatching patternMatcher event st)
  /\ NoDup (ids (getMatching patternMatcher event st))
  /\ forall z : Listener Payload,
       filter (fun w => comparePriority z w =? 0)
         (getMatching patternMatcher event st)
       = filter (fun w => comparePriority z w =? 0)
           (filter (selects patternMatcher event) (allListeners st)).
Proof.
  intros Hreach. pose proof (reachable_wf _ _ Hreach) as Hwf.
  split; [now apply getMatching_perm|].
  split; [apply getMatching_sorted|].
  split; [now apply getMatching_NoDup|].
  intros z. rewrite (getMatching_spec _ patternMatcher event st Hwf).
  apply sortByPriority_stable.
Qed.

Lemma ticking_inv st : ticking st -> reachable st /\ chronological st.
Proof.
  intros Ht. induction Ht as [|st st' _ [Hreach Hchron] Hstep Hclock].
  - split; [constructor|]. intros a b [].
  - split; [exact (steps_step Hreach Hstep)|].
    apply (step_chronological _ st st'); auto. now apply reachable_wf.
Qed.

(** X14.  When the clock moves on between registrations, so that no two
    fall into one millisecond, the listeners of an event are called
    highest priority first and in the order of registration among equal
    priorities, whichever buckets they come from. *)
Theorem registration_order_with_a_ticking_clock event st :
  ticking st ->
  StronglySorted (@fifo Payload) (getMatching patternMatcher event st).
Proof.
  intros Ht. destruct (ticking_inv st Ht) as [Hreach Hchron].
  apply getMatching_fifo_when_chronological; [|assumption].
  now apply reachable_wf.
Qed.

(** X15.  [add] returns a symbol no listener of the store has and puts
    one new listener into the store, with the pattern, handler, priority
    and one-shot flag given, the clock value as its timestamp and both
    counters at 0.  The event name equal to its pattern selects it, and
    for every event name the listeners selected afterwards are those
    selected before and, when the name selects it, the new one. *)
Theorem add_registers_one_new_listener pat (h : Types.ListenerHandler Payload)
    (options : Types.SubscribeOptions) (now : Z) st :
  reachable st ->
  let new := newListener (nextSymbol st) pat h options now in
  let st' := snd (add patternMatcher pat h options now st) in
  fst (add patternMatcher pat h options now st) = id new
  /\ ~ In (id new) (ids (allListeners st))
  /\ Permutation (allListeners st') (new :: allListeners st)
  /\ In new (getMatching patternMatcher pat st')
  /\ forall event l,
       In l (getMatching patternMatcher event st')
       <-> (l = new /\ selects patternMatcher event new = true)
           \/ In l (getMatching patternMatcher event st).
Proof.
  intros Hreach new st'. pose proof (reachable_wf _ _ Hreach) as Hwf.
  pose proof (add_wf _ patternMatcher pat h options now st Hwf) as Hwf'.
  pose proof (add_allListeners _ patternMatcher pat h options now st Hwf) as Hperm.
  fold new in Hperm. fold st' in Hperm, Hwf'.
  assert (forall event l,
             In l (getMatching patternMatcher event st')
             <-> (l = new /\ selects patternMatcher event new = true)
                 \/ In l (getMatching patternMatcher event st)) as Hsel.
  { intros event l.
    rewrite (In_getMatching _ patternMatcher event st' l Hwf'),
      (In_getMatching _ patternMatcher event st l Hwf).
    split.
    - intros [Hl Hs]. apply (Permutation_in _ Hperm) in Hl as [<-|Hl]; auto.
    - intros [[-> Hs]|[Hl Hs]]; (split; [|assumption]);
        apply (Permutation_in _ (Permutation_sym Hperm)); [now left|now right]. }
  split; [reflexivity|]. split; [|split; [exact Hperm|split; [|exact Hsel]]].
  - intros Hin. apply In_ids in Hin as (x & Hx & Hid).
    apply (wf_fresh Hwf) in Hx. simpl in Hid. lia.
  - apply Hsel. left. split; [reflexivity|]. unfold selects. cbn [new pattern newListener].
    destruct (PatternMatcher.hasWildcard patternMatcher pat);
      [apply matches_refl|apply str_eqb_refl].
Qed.

(** X16.  What an emission that nothing interrupts leaves in the
    store.  The listeners that are gone are the one-shot listeners the
    event selected and whose handler [execute] saw succeed: it returned,
    or its promise of this realm was fulfilled.  Every other listener
    stays, also a one-shot listener whose handler returned a thenable of
    another kind, fulfilled or not.  When no selected handler returns
    such a thenable, each listener left is where it was, with one
    execution and the handler's duration added to its counters when the
    event selected it and its handler succeeded, and unchanged
    otherwise.  Marks and the supply of symbols are untouched. *)
Theorem emit_counts_and_removes event payload st :
  reachable st ->
  ids (allListeners (snd (emit event payload st)))
  = ids (filter
           (fun l =>
              negb (selects patternMatcher event l && succeeds payload l
                    && ListenerStore.once l))
           (allListeners st))
  /\ (forall l,
        In l (allListeners st) -> detaches payload l = true ->
        In (id l) (ids (allListeners (snd (emit event payload st)))))
  /\ ((forall l, In l (getMatching patternMatcher event st) ->
                 detaches payload l = false) ->
      allListeners (snd (emit event payload st))
      = map (fun l => if selects patternMatcher event l
                      then afterCall payload l else l)
          (filter
             (fun l =>
                negb (selects patternMatcher event l && succeeds payload l
                      && ListenerStore.once l))
             (allListeners st)))
  /\ markedForRemoval (snd (emit event payload st)) = markedForRemoval st
  /\ nextSymbol (snd (emit event payload st)) = nextSymbol st.
Proof.
  intros Hreach. pose proof (reachable_wf _ _ Hreach) as Hwf.
  pose proof (emit_allListeners _ event payload st Hwf) as Hall.
  assert (ids (allListeners (snd (emit event payload st)))
          = ids (filter
                   (fun l =>
                      negb (selects patternMatcher event l && succeeds payload l
                            && ListenerStore.once l))
                   (allListeners st))) as Hids.
  { rewrite Hall. unfold ids. rewrite map_map. apply map_ext. intros x.
    destruct (selects patternMatcher event x); [apply afterCall_id|reflexivity]. }
  split; [exact Hids|]. split; [|split; [intros _; exact Hall|]].
  - intros l Hl Hd. rewrite Hids. apply in_map, filter_In. split; [assumption|].
    assert (succeeds payload l = false) as ->.
    { unfold detaches in Hd. unfold succeeds.
      now destruct (fst (handler l payload)). }
    now rewrite andb_false_r.
  - rewrite emit_spec. cbn [snd].
    pose proof (emit_seen_same _ event payload st Hwf) as Hsame.
    pose proof (sameState_wf _ _ _ _ Hsame Hwf) as Hwf1.
    split.
    + rewrite (removeEach_marks _ _ _ Hwf1). apply seenByStore_marks.
    + destruct (removeEach_pruned _
                  (ids (filter (fun l => succeeds payload l && ListenerStore.once l)
                          (getMatching patternMatcher event st)))
                  _ Hwf1) as (_ & _ & ->).
      now destruct Hsame as (_ & _ & ->).
Qed.

(** X17.  [off] with the id [subscribe] produced does at any later
    time what the function [subscribe] returned does: the id stays with
    the pattern of the subscription, so [removeById] and [remove] leave
    the same state. *)
Theorem off_does_what_the_returned_function_does pat
    (h : Types.ListenerHandler Payload) (options : Types.SubscribeOptions)
    (now : Z) st0 st :
  reachable st0 ->
  steps (snd (subscribe pat h options now st0)) st ->
  off (unsub_id (fst (subscribe pat h options now st0))) st
  = unsubscribe (fst (subscribe pat h options now st0)) st.
Proof.
  intros Hreach Hsteps.
  destruct (subscription_pattern _ pat h options now st0 st Hreach Hsteps)
    as [Hwf Hown].
  unfold off, unsubscribe. cbn [subscribe add fst unsub_pattern unsub_id].
  destruct (removeById_pruned _ patternMatcher (nextSymbol st0) st Hwf) as [-> _].
  rewrite (remove_pruned _ patternMatcher pat (nextSymbol st0) st Hwf).
  apply pruned_ext. intros x Hx.
  destruct (hasId (nextSymbol st0) x) eqn:E; [|now rewrite andb_false_r].
  apply hasId_true in E. rewrite (Hown x Hx E), str_eqb_refl. reflexivity.
Qed.

(** X18.  [offAll] with a non-empty event name removes the listeners
    registered under exactly that text and no other; without a name it
    removes every listener, and so it does with the empty string as
    name, which is falsy: listeners under other names go as well, where
    the store's own [removeAll] with the empty string would remove those
    registered under the empty name only. *)
Theorem offAll_removes_by_name_or_everything (event : option JS.str) st :
  reachable st ->
  allListeners (offAll event st)
  = filter
      (fun l =>
         match event with
         | Some (c :: s) => negb (JS.eqb (pattern l) (c :: s))
         | Some [] | None => false
         end)
      (allListeners st)
  /\ offAll (Some []) st = offAll None st
  /\ allListeners (snd (removeAll (Some []) st))
     = filter (fun l => negb (JS.eqb (pattern l) [])) (allListeners st).
Proof.
  intros Hreach. pose proof (reachable_wf _ _ Hreach) as Hwf.
  split; [|split; [reflexivity|]].
  - unfold offAll.
    destruct event as [[|c s]|];
      rewrite (removeAll_pruned _ patternMatcher _ st Hwf);
      apply isPruned_all, isPruned_pruned.
  - rewrite (removeAll_pruned _ patternMatcher (Some []) st Hwf).
    apply isPruned_all, isPruned_pruned.
Qed.

(** X19.  Ids identify listeners: in every reachable state no two
    listeners share an id, and an id is never handed out twice: whatever
    happens to the bus later, [add] returns an id that no listener held
    at any earlier time has, and the supply of symbols never goes back. *)
Theorem ids_are_unique_and_never_reused st :
  reachable st ->
  NoDup (ids (allListeners st))
  /\ forall st',
       steps st st' ->
       (nextSymbol st <= nextSymbol st')%nat
       /\ forall pat (h : Types.ListenerHandler Payload)
                 (options : Types.SubscribeOptions) (now : Z),
            ~ In (fst (add patternMatcher pat h options now st'))
                (ids (allListeners st)).
Proof.
  intros Hreach. pose proof (reachable_wf _ _ Hreach) as Hwf.
  split; [apply (wf_unique Hwf)|].
  intros st' Hsteps. destruct (steps_wf _ _ _ Hwf Hsteps) as [_ [Hle _]].
  split; [assumption|]. intros pat h options now Hin.
  apply In_ids in Hin as (x & Hx & Hid). apply (wf_fresh Hwf) in Hx.
  simpl in Hid. lia.
Qed.


End BusProperties.


(** ** The plugin manager *)

Section PluginFacts.
Variable Args : Type.
Import Types PluginManager.
Implicit Types (plugins : list (Plugin Args)) (plugin : Plugin Args)
  (hookName : HookName) (args : Args) (trace : list JS.str)
  (con : Logger.Console).

(** One callback of [map], seen through the words for the properties. *)
Lemma callOne_char hookName args plugin trace con :
  callOne hookName args plugin trace con
  = (fst (fst (callOne hookName args plugin [] [])),
     trace ++ (if hasHook hookName plugin then [name plugin] else []),
     con ++ (if throws hookName args plugin
             then [{| Logger.level := Logger.Error;
                      Logger.message := errorMessage plugin hookName |}]
             else []))
  /\ definedOnly [fst (fst (callOne hookName args plugin [] []))]
     = (if rejects hookName args plugin then [Promise.Rejected]
        else match definedOnly [fst (fst (callOne hookName args plugin [] []))] with
             | [] => []
             | _ => [Promise.Fulfilled tt]
             end).
Proof.
  unfold callOne, hasHook, throws, rejects, Logger.error.
  destruct (property plugin hookName) as [|[|c s]|h]; simpl;
    rewrite ?app_nil_r; try (split; reflexivity).
  destruct (h args); simpl; rewrite ?app_nil_r; split; reflexivity.
Qed.

Lemma mapPlugins_trace hookName args plugins :
  forall trace con,
    snd (fst (mapPlugins hookName args plugins trace con))
    = trace ++ map (@name Args) (filter (hasHook hookName) plugins).
Proof.
  induction plugins as [|plugin rest IH]; intros trace con; simpl.
  - now rewrite app_nil_r.
  - destruct (callOne_char hookName args plugin trace con) as [-> _].
    specialize (IH (trace ++ (if hasHook hookName plugin then [name plugin] else []))
                  (con ++ (if throws hookName args plugin
                           then [{| Logger.level := Logger.Error;
                                    Logger.message := errorMessage plugin hookName |}]
                           else []))).
    destruct (mapPlugins hookName args rest _ _) as [[rs t] c]. simpl in *.
    rewrite IH. destruct (hasHook hookName plugin); simpl;
      now rewrite <- ?app_assoc, ?app_nil_r.
Qed.

Lemma mapPlugins_console hookName args plugins :
  forall trace con,
    snd (mapPlugins hookName args plugins trace con)
    = con ++ map (fun plugin =>
                    {| Logger.level := Logger.Error;
                       Logger.message := errorMessage plugin hookName |})
               (filter (throws hookName args) plugins).
Proof.
  induction plugins as [|plugin rest IH]; intros trace con; simpl.
  - now rewrite app_nil_r.
  - destruct (callOne_char hookName args plugin trace con) as [-> _].
    specialize (IH (trace ++ (if hasHook hookName plugin then [name plugin] else []))
                  (con ++ (if throws hookName args plugin
                           then [{| Logger.level := Logger.Error;
                                    Logger.message := errorMessage plugin hookName |}]
                           else []))).
    destruct (mapPlugins hookName args rest _ _) as [[rs t] c]. simpl in *.
    rewrite IH. destruct (throws hookName args plugin); simpl;
      now rewrite <- ?app_assoc, ?app_nil_r.
Qed.

Lemma mapPlugins_settled hookName args plugins :
  forall trace con,
    promiseAll (definedOnly (fst (fst (mapPlugins hookName args plugins trace con))))
    = if existsb (rejects hookName args) plugins
      then Promise.Rejected else Promise.Fulfilled tt.
Proof.
  induction plugins as [|plugin rest IH]; intros trace con; simpl; [reflexivity|].
  destruct (callOne_char hookName args plugin trace con) as [-> Hone].
  specialize (IH (trace ++ (if hasHook hookName plugin then [name plugin] else []))
                (con ++ (if throws hookName args plugin
                         then [{| Logger.level := Logger.Error;
                                  Logger.message := errorMessage plugin hookName |}]
                         else []))).
  destruct (mapPlugins hookName args rest _ _) as [[rs t] c]. simpl in *.
  rewrite app_nil_r in Hone.
  destruct (fst (fst (callOne hookName args plugin [] []))) as [|[[]|]];
    destruct (rejects hookName args plugin); simpl in *;
    try discriminate; try reflexivity; exact IH.
Qed.

(** X20.  [callHook] calls the hook of every plugin that has a function
    under the hook name, each once and in the order of the plugins,
    whatever the hooks of other plugins do: a hook that throws or whose
    promise is rejected keeps no later hook from being called. *)
Theorem callHook_calls_every_hook plugins hookName args con :
  entered (callHook plugins hookName args con)
  = map (@name Args) (filter (hasHook hookName) plugins).
Proof.
  unfold callHook.
  pose proof (mapPlugins_trace hookName args plugins [] con) as H.
  destruct (mapPlugins hookName args plugins [] con) as [[rs t] c]. exact H.
Qed.

(** X21.  [callHook] writes one error to the console for each plugin
    whose call throws, in plugin order, with the message that names the
    plugin and the hook, and writes nothing else.  Under the hook name
    [name] the value called is the plugin's name: the call throws for
    every plugin whose name is not empty. *)
Theorem callHook_logs_each_throwing_hook plugins hookName args con :
  console (callHook plugins hookName args con)
  = con ++ map (fun plugin =>
                  {| Logger.level := Logger.Error;
                     Logger.message := errorMessage plugin hookName |})
             (filter (throws hookName args) plugins)
  /\ forall plugin,
       throws Name args plugin = negb (Nat.eqb (length (name plugin)) 0).
Proof.
  split.
  - unfold callHook.
    pose proof (mapPlugins_console hookName args plugins [] con) as H.
    destruct (mapPlugins hookName args plugins [] con) as [[rs t] c]. exact H.
  - intros plugin. unfold throws. simpl. now destruct (name plugin).
Qed.

(** X22.  The promise [callHook] returns is rejected exactly when the
    hook of some plugin returns a promise that is rejected, and is
    fulfilled otherwise: a hook that throws is caught and does not
    reject it, a rejected promise is not caught. *)
Theorem callHook_rejects_with_a_rejected_hook plugins hookName args con :
  settled (callHook plugins hookName args con)
  = if existsb (rejects hookName args) plugins
    then Promise.Rejected else Promise.Fulfilled tt.
Proof.
  unfold callHook.
  pose proof (mapPlugins_settled hookName args plugins [] con) as H.
  destruct (mapPlugins hookName args plugins [] con) as [[rs t] c]. exact H.
Qed.

End PluginFacts.


(** ** The properties at the sample values *)

Section MoreWitnesses.
Import ListenerStore HandlerExecutor EventBus StoreViews Clock.
Import Examples MoreExamples.

Local Open Scope Z_scope.

(** The second registration of [tickingTwo] reads a later clock. *)
Lemma tickingTwo_ticking : ticking tickingTwo.
Proof.
  assert (ticking wildcardOnly) as Hfirst.
  { apply (ticking_step (ticking_init unit)
             (step_add userAny succeeding Types.noOptions 1000 fresh)).
    intros pat h options now _ l []. }
  apply (ticking_step Hfirst
           (step_add userLogin succeeding Types.noOptions 1001 wildcardOnly)).
  intros pat h options now E l Hl.
  assert (In (newListener 1%nat pat h options now) (allListeners tickingTwo)) as Hnew.
  { assert (tickingTwo = snd (add pm pat h options now wildcardOnly)) as ->
        by exact E.
    apply (Permutation_in _
             (Permutation_sym
                (add_allListeners _ pm pat h options now wildcardOnly
                   (reachable_wf _ _ wildcardOnly_reachable)))).
    now left. }
  assert (now = 1001) as ->.
  { destruct Hnew as [H|[H|[]]].
    - exact (eq_sym (f_equal (@addedAt unit) H)).
    - discriminate (f_equal (@id unit) H). }
  destruct Hl as [<-|[]]. reflexivity.
Qed.

Lemma literal_pattern_matches_only_itself_witness :
  PatternMatcher.hasWildcardImpl userLogin = false
  /\ PatternMatcher.matchesImpl userLogin userAny = JS.eqb userLogin userAny.
Proof.
  split; [reflexivity|].
  exact (literal_pattern_matches_only_itself userLogin userAny eq_refl).
Defined.

Lemma prefix_wildcard_matches_continuations_witness :
  PatternMatcher.hasWildcardImpl user = false
  /\ user <> []
  /\ PatternMatcher.matchesImpl (user ++ [RegExp.STAR]) userLogin = true.
Proof.
  assert (user <> []) as Hne by discriminate.
  split; [reflexivity|]. split; [exact Hne|].
  apply (prefix_wildcard_matches_continuations user userLogin eq_refl Hne).
  exists (JS.lit "login"). split; reflexivity.
Defined.

Lemma pattern_cache_is_transparent_witness :
  PatternMatcher.cacheOk []
  /\ PatternMatcher.cacheOk (snd (PatternMatcher.matchesCached userAny userLogin []))
  /\ fst (PatternMatcher.matchesCached userAny userLogin
            (snd (PatternMatcher.matchesCached userAny userLogin [])))
     = Some (PatternMatcher.matchesImpl userAny userLogin)
  /\ snd (PatternMatcher.matchesCached userAny userLogin
            (snd (PatternMatcher.matchesCached userAny userLogin [])))
     = snd (PatternMatcher.matchesCached userAny userLogin []).
Proof.
  assert (PatternMatcher.cacheOk []) as Hempty
      by (intros pattern regex H; discriminate H).
  destruct (pattern_cache_is_transparent userAny userLogin [] Hempty)
    as (_ & Hok & _ & Hin).
  assert (userAny <> [RegExp.STAR]) as Hstar by discriminate.
  assert (userAny <> userLogin) as Hne by discriminate.
  destruct (pattern_cache_is_transparent userAny userLogin
              (snd (PatternMatcher.matchesCached userAny userLogin [])) Hok)
    as (Hanswer & _ & Hsame & _).
  split; [exact Hempty|]. split; [exact Hok|]. split; [exact Hanswer|].
  exact (Hsame (Hin Hstar Hne)).
Defined.

Lemma buckets_stay_sorted_witness :
  reachable failingOnceThenOk
  /\ forall pat ls,
       In (pat, ls) (exactMatches failingOnceThenOk) ->
       StronglySorted (@before unit) ls.
Proof.
  split; [apply failingOnceThenOk_reachable|].
  intros pat ls H.
  exact (buckets_stay_sorted _ failingOnceThenOk failingOnceThenOk_reachable
           pat ls (or_introl H)).
Defined.

Lemma subscribe_then_unsubscribe_restores_witness :
  reachable wildcardOnly
  /\ unsubscribe (fst (subscribe userLogin succeeding Types.noOptions 1001 wildcardOnly))
       (snd (subscribe userLogin succeeding Types.noOptions 1001 wildcardOnly))
     = {| exactMatches := exactMatches wildcardOnly;
          wildcardPatterns := wildcardPatterns wildcardOnly;
          markedForRemoval := markedForRemoval wildcardOnly;
          nextSymbol := S (nextSymbol wildcardOnly) |}.
Proof.
  split; [apply wildcardOnly_reachable|].
  exact (proj1 (subscribe_then_unsubscribe_restores _ userLogin succeeding
                  Types.noOptions 1001 wildcardOnly wildcardOnly_reachable)).
Defined.

Lemma removeById_removes_that_listener_witness :
  reachable wildcardThenExact
  /\ In wildcardListener (allListeners wildcardThenExact)
  /\ fst (removeById 0%nat wildcardThenExact) = Some userAny
  /\ (length (allListeners (snd (removeById 0%nat wildcardThenExact))) + 1
      = length (allListeners wildcardThenExact))%nat.
Proof.
  assert (In wildcardListener (allListeners wildcardThenExact)) as Hin
      by (right; left; reflexivity).
  destruct (removeById_removes_that_listener _ wildcardThenExact wildcardListener
              wildcardThenExact_reachable Hin) as (Hanswer & _ & _ & Hlen).
  split; [apply wildcardThenExact_reachable|]. split; [exact Hin|].
  split; [exact Hanswer|exact Hlen].
Defined.

Lemma remove_agrees_with_removeById_witness :
  reachable wildcardThenExact
  /\ In exactListener (allListeners wildcardThenExact)
  /\ remove pm userLogin 1%nat wildcardThenExact
     = (true, snd (removeById 1%nat wildcardThenExact)).
Proof.
  assert (In exactListener (allListeners wildcardThenExact)) as Hin
      by (left; reflexivity).
  split; [apply wildcardThenExact_reachable|]. split; [exact Hin|].
  exact (remove_agrees_with_removeById _ wildcardThenExact exactListener
           wildcardThenExact_reachable Hin).
Defined.

Lemma updateStats_bumps_one_listener_witness :
  reachable wildcardThenExact
  /\ allListeners (updateStats 1%nat 5 wildcardThenExact)
     = map (withStats 1%nat 5) (allListeners wildcardThenExact)
  /\ ~ In 7%nat (ids (allListeners wildcardThenExact))
  /\ updateStats 7%nat 5 wildcardThenExact = wildcardThenExact.
Proof.
  assert (~ In 7%nat (ids (allListeners wildcardThenExact))) as Hno.
  { simpl. intros [H|[H|[]]]; discriminate H. }
  split; [apply wildcardThenExact_reachable|].
  split; [exact (proj1 (updateStats_bumps_one_listener _ 1%nat 5 wildcardThenExact
                          wildcardThenExact_reachable))|].
  split; [exact Hno|].
  destruct (updateStats_bumps_one_listener _ 7%nat 5 wildcardThenExact
              wildcardThenExact_reachable) as (_ & _ & _ & Hsame).
  exact (Hsame Hno).
Defined.

Lemma removeMarked_removes_the_marked_witness :
  reachable wildcardThenExact
  /\ markedForRemoval wildcardThenExact = JSSet.empty
  /\ removeMarked (markEach [0%nat] wildcardThenExact)
     = removeEach [0%nat] wildcardThenExact.
Proof.
  destruct (removeMarked_removes_the_marked _ [0%nat] wildcardThenExact
              wildcardThenExact_reachable) as (_ & _ & Hsame).
  split; [apply wildcardThenExact_reachable|]. split; [reflexivity|].
  exact (Hsame eq_refl).
Defined.

Lemma removeAll_reports_what_it_removes_witness :
  reachable wildcardThenExact
  /\ PatternMatcher.hasWildcard pm userLogin = false
  /\ fst (removeAll (Some userLogin) wildcardThenExact)
     = map (fun l => (pattern l, id l))
         (filter (@named unit (Some userLogin)) (allListeners wildcardThenExact))
  /\ fst (removeAll None wildcardThenExact)
     = map (fun l => (pattern l, id l))
         (filter (@named unit None) (allListeners wildcardThenExact)).
Proof.
  split; [apply wildcardThenExact_reachable|]. split; [reflexivity|]. split.
  - exact (proj1 (removeAll_reports_what_it_removes _ (Some userLogin)
                    wildcardThenExact wildcardThenExact_reachable eq_refl)).
  - exact (proj1 (removeAll_reports_what_it_removes _ None
                    wildcardThenExact wildcardThenExact_reachable I)).
Defined.

Lemma getAll_lists_the_matching_buckets_witness :
  reachable afterLogin
  /\ getAll pm (Some userLogin) afterLogin
     = map (@summary unit)
         (filter (listed pm (Some userLogin))
            (exactMatches afterLogin ++ wildcardPatterns afterLogin)).
Proof.
  split; [apply afterLogin_reachable|].
  exact (proj1 (getAll_lists_the_matching_buckets _ (Some userLogin) afterLogin
                  afterLogin_reachable)).
Defined.

Lemma getMatching_selects_and_orders_witness :
  reachable wildcardThenExact
  /\ Permutation (getMatching pm userLogin wildcardThenExact)
       (filter (selects pm userLogin) (allListeners wildcardThenExact))
  /\ StronglySorted (@before unit) (getMatching pm userLogin wildcardThenExact).
Proof.
  destruct (getMatching_selects_and_orders _ userLogin wildcardThenExact
              wildcardThenExact_reachable) as (Hperm & Hsorted & _).
  split; [apply wildcardThenExact_reachable|]. split; [exact Hperm|exact Hsorted].
Defined.

Lemma registration_order_with_a_ticking_clock_witness :
  ticking tickingTwo
  /\ StronglySorted (@fifo unit) (getMatching pm userLogin tickingTwo).
Proof.
  split; [apply tickingTwo_ticking|].
  exact (registration_order_with_a_ticking_clock _ userLogin tickingTwo
           tickingTwo_ticking).
Defined.

Lemma add_registers_one_new_listener_witness :
  reachable wildcardOnly
  /\ ~ In 1%nat (ids (allListeners wildcardOnly))
  /\ In exactListener (getMatching pm userLogin wildcardThenExact).
Proof.
  destruct (add_registers_one_new_listener _ userLogin succeeding Types.noOptions
              1000 wildcardOnly wildcardOnly_reachable)
    as (_ & Hfresh & _ & Hin & _).
  split; [apply wildcardOnly_reachable|]. split; [exact Hfresh|exact Hin].
Defined.

Lemma emit_counts_and_removes_witness :
  reachable failingOnceThenOk
  /\ (forall l, In l (getMatching pm userLogin failingOnceThenOk) ->
                detaches tt l = false)
  /\ allListeners (snd (emit userLogin tt failingOnceThenOk))
     = map (fun l => if selects pm userLogin l then afterCall tt l else l)
         (filter
            (fun l =>
               negb (selects pm userLogin l && succeeds tt l && ListenerStore.once l))
            (allListeners failingOnceThenOk))
  /\ reachable foreignOnce
  /\ In 0%nat (ids (allListeners (snd (emit userLogin tt foreignOnce)))).
Proof.
  assert (forall l, In l (getMatching pm userLogin failingOnceThenOk) ->
                    detaches tt l = false) as Hnone.
  { intros l [<-|[<-|[]]]; reflexivity. }
  assert (reachable foreignOnce) as Hforeign.
  { exact (steps_step fresh_reachable
             (step_add userLogin foreign onceOnly 1000 fresh)). }
  destruct (emit_counts_and_removes _ userLogin tt failingOnceThenOk
              failingOnceThenOk_reachable) as (_ & _ & Hexact & _).
  destruct (emit_counts_and_removes _ userLogin tt foreignOnce Hforeign)
    as (_ & Hstays & _).
  split; [apply failingOnceThenOk_reachable|]. split; [exact Hnone|].
  split; [exact (Hexact Hnone)|]. split; [exact Hforeign|].
  exact (Hstays foreignListener (or_introl eq_refl) eq_refl).
Defined.

Lemma off_does_what_the_returned_function_does_witness :
  reachable fresh
  /\ steps (snd (subscribe userLogin succeeding Types.noOptions 1000 fresh))
       (snd (subscribe userLogin succeeding Types.noOptions 1000 fresh))
  /\ off 0%nat (snd (subscribe userLogin succeeding Types.noOptions 1000 fresh))
     = unsubscribe (fst (subscribe userLogin succeeding Types.noOptions 1000 fresh))
         (snd (subscribe userLogin succeeding Types.noOptions 1000 fresh)).
Proof.
  split; [apply fresh_reachable|]. split; [apply steps_refl|].
  exact (off_does_what_the_returned_function_does _ userLogin succeeding
           Types.noOptions 1000 fresh _ fresh_reachable (steps_refl _)).
Defined.

Lemma offAll_removes_by_name_or_everything_witness :
  reachable wildcardThenExact
  /\ allListeners (offAll (Some userLogin) wildcardThenExact)
     = filter (fun l => negb (JS.eqb (pattern l) userLogin))
         (allListeners wildcardThenExact)
  /\ allListeners (offAll (Some []) wildcardThenExact) = [].
Proof.
  split; [apply wildcardThenExact_reachable|]. split.
  - exact (proj1 (offAll_removes_by_name_or_everything _ (Some userLogin)
                    wildcardThenExact wildcardThenExact_reachable)).
  - exact (proj1 (offAll_removes_by_name_or_everything _ (Some [])
                    wildcardThenExact wildcardThenExact_reachable)).
Defined.

Lemma ids_are_unique_and_never_reused_witness :
  reachable wildcardOnly
  /\ steps wildcardOnly wildcardThenExact
  /\ NoDup (ids (allListeners wildcardOnly))
  /\ ~ In (fst (add pm userLogin succeeding Types.noOptions 1002 wildcardThenExact))
         (ids (allListeners wildcardOnly)).
Proof.
  assert (steps wildcardOnly wildcardThenExact) as Hsteps.
  { exact (steps_step (steps_refl wildcardOnly)
             (step_add userLogin succeeding Types.noOptions 1000 wildcardOnly)). }
  destruct (ids_are_unique_and_never_reused _ wildcardOnly wildcardOnly_reachable)
    as [Hnd Hlater].
  split; [apply wildcardOnly_reachable|]. split; [exact Hsteps|].
  split; [exact Hnd|].
  exact (proj2 (Hlater wildcardThenExact Hsteps) userLogin succeeding
           Types.noOptions 1002).
Defined.


End MoreWitnesses.
